(** * azoo.dev/utils/dvx and azoo.dev/utils/tearc: a shallow embedding

    Part I gives the definitions, in the order of the Go packages:

    - the functions of Go's standard library that the packages call,
      written out as executable definitions: [base64], [strs] (package
      strings), [strconv], [url], [base32], [binary], [subtle];
    - [CryptoLib]: the cryptographic libraries (BLAKE2b,
      XChaCha20-Poly1305, HMAC-SHA, Ed25519), taken as an interface, with
      the laws the code relies on in [CryptoLaws];
    - package dvx: the envelope ([Encode], [Decode]), the primitive [DV1],
      the software key pool [dvxWrapper] and the [Protocol];
    - package totp: [totp];
    - package tearc: [CacheLib] for the ARC cache of gcache, and [tearc]
      with the eviction queue, the buckets, the reaper and the sharded
      cache;
    - package dvx/tearc: [dvx_tearc], the key pool that caches the keys
      of another pool;
    - package dvx/hsm: [Pkcs11Lib] for the PKCS#11 module, and [hsm], the
      key pool over it.

    Part II states and proves the properties.

    A Go [string] and a Go [[]byte] are both sequences of bytes: they are
    [list byte] here, and [str] turns a literal into one. *)

From Stdlib Require Import ZArith Lia.
From Stdlib Require Import Strings.Byte.
From stdpp Require Import base option list gmap strings countable.

Open Scope Z_scope.

(* ****************************************************************** *)
(** * Part I: definitions *)
(* ****************************************************************** *)

(* ================================================================== *)
(** * Bytes, strings and results *)
(* ================================================================== *)

Abbreviation bytes := (list byte).

(** A string literal as its bytes. *)
Definition str (s : string) : bytes := String.list_byte_of_string s.

(** [uint(b)] for a byte [b]. *)
Definition u8 (b : byte) : Z := Z.of_N (Byte.to_N b).

(** [byte(z)]: Go's conversion of an unsigned integer to a byte keeps the
    low eight bits. *)
Definition to_byte (z : Z) : byte :=
  default x00 (Byte.of_N (Z.to_N (z mod 256))).

#[global] Instance byte_eq_dec : EqDecision byte.
Proof.
  intros x y. destruct (Byte.eqb x y) eqn:E.
  - left. apply Byte.byte_dec_bl, E.
  - right. intros H. apply Byte.byte_dec_lb in H. congruence.
Defined.

#[global] Instance byte_countable : Countable byte :=
  inj_countable Byte.to_N Byte.of_N Byte.of_to_N.

(** The errors of the three packages, one constructor per [fmt.Errorf]
    site.  [ErrLoadWrap] and [ErrSetWrap] wrap another error ([%w]);
    [ErrExternal] is an error raised outside the packages (a loader
    callback, a hardware key pool, the random source). *)
Inductive error : Type :=
  | ErrExternal (msg : string)
  (* dvx/encoding.go *)
  | ErrThreeParts
  | ErrUnknownVersion (version : bytes)
  | ErrUnknownTypePrefix (typePrefix : bytes)
  | ErrNotBase64URL
  | ErrIncorrectTypePrefix
  (* dvx/dv1.go *)
  | ErrMacKeyLen
  | ErrKeyLen
  | ErrNonceRead (e : error)
  | ErrCipherShort
  | ErrOpenFailed
  | ErrPrivateKeyLen
  | ErrPublicKeyLen
  | ErrSignatureLen
  (* dvx/protocol.go *)
  | ErrTotpID (e : error)
  (* dvx/totp/totp.go *)
  | ErrSecretEmpty
  | ErrInvalidPeriod
  | ErrInvalidAlgorithm
  | ErrInvalidDigits
  (* tearc *)
  | ErrSize (size : Z)
  | ErrShards (shards : Z)
  | ErrNotDividable
  | ErrLoaderNil
  | ErrConfigNil
  | ErrTicks
  | ErrLoadWrap (e : error)
  | ErrSetWrap (e : error)
  | ErrGetWrap (e : error).

(** [errors.Unwrap]. *)
Definition Unwrap (e : error) : option error :=
  match e with
  | ErrLoadWrap e' | ErrSetWrap e' | ErrGetWrap e' => Some e'
  | _ => None
  end.

(** What a Go call that returns [(value, error)] can do: return a value
    with a nil error, return a non-nil error, panic at run time (an index
    out of range, a method call on a nil interface), or never return (a
    loop whose condition stays true). *)
Inductive result (A : Type) : Type :=
  | Ok (a : A)
  | Err (e : error)
  | Panic
  | Diverge.
Arguments Ok {A} a.
Arguments Err {A} e.
Arguments Panic {A}.
Arguments Diverge {A}.

Definition bind {A B} (r : result A) (k : A -> result B) : result B :=
  match r with
  | Ok a => k a
  | Err e => Err e
  | Panic => Panic
  | Diverge => Diverge
  end.

Notation "'let*' x ':=' r 'in' k" := (bind r (fun x => k))
  (at level 10, x name, r at level 100, k at level 200).
Notation "'let*' ' p ':=' r 'in' k" := (bind r (fun x => let 'p := x in k))
  (at level 10, p pattern, r at level 100, k at level 200).

Definition is_Ok {A} (r : result A) : Prop := exists a, r = Ok a.
Definition is_Err {A} (r : result A) : Prop := exists e, r = Err e.

(* ================================================================== *)
(** * encoding/base64: the two unpadded encodings *)
(* ================================================================== *)

Module base64.

(** An [Encoding] without padding ([NoPadding]) and not strict: the only
    kind the packages use ([RawStdEncoding], [RawURLEncoding]). *)
Record Encoding : Type := { encode : bytes }.

Definition encodeStd : bytes :=
  str "ABCDEFGHIJKLMNOPQRSTUVWXYZabcdefghijklmnopqrstuvwxyz0123456789+/".
Definition encodeURL : bytes :=
  str "ABCDEFGHIJKLMNOPQRSTUVWXYZabcdefghijklmnopqrstuvwxyz0123456789-_".

Definition RawStdEncoding : Encoding := {| encode := encodeStd |}.
Definition RawURLEncoding : Encoding := {| encode := encodeURL |}.

(** [enc.encode[i]]. *)
Definition encode_at (enc : Encoding) (i : Z) : byte :=
  nth (Z.to_nat i) (encode enc) x00.

Fixpoint index_from (c : byte) (l : bytes) (i : Z) : Z :=
  match l with
  | [] => 255
  | x :: l' => if decide (x = c) then i else index_from c l' (i + 1)
  end.

(** [enc.decodeMap[c]]: the position of [c] in the alphabet, [0xff] for a
    byte outside it. *)
Definition decodeMap (enc : Encoding) (c : byte) : Z :=
  index_from c (encode enc) 0.

Definition sextet (val : Z) (shift : Z) : Z :=
  Z.land (Z.shiftr val shift) 63.

(** [Encoding.EncodeToString]: three bytes give four characters; a
    remainder of one or two bytes gives two or three. *)
Fixpoint EncodeToString (enc : Encoding) (src : bytes) : bytes :=
  match src with
  | [] => []
  | [b0] =>
      let val := Z.shiftl (u8 b0) 16 in
      [encode_at enc (sextet val 18); encode_at enc (sextet val 12)]
  | [b0; b1] =>
      let val := Z.lor (Z.shiftl (u8 b0) 16) (Z.shiftl (u8 b1) 8) in
      [encode_at enc (sextet val 18); encode_at enc (sextet val 12);
       encode_at enc (sextet val 6)]
  | b0 :: b1 :: b2 :: rest =>
      let val := Z.lor (Z.lor (Z.shiftl (u8 b0) 16) (Z.shiftl (u8 b1) 8))
                       (u8 b2) in
      [encode_at enc (sextet val 18); encode_at enc (sextet val 12);
       encode_at enc (sextet val 6); encode_at enc (sextet val 0)]
      ++ EncodeToString enc rest
  end.

(** The end of [decodeQuantum]: [dlen] sextets held in [dbuf] become
    [dlen - 1] bytes. *)
Definition assemble (d0 d1 d2 d3 : Z) : Z :=
  Z.lor (Z.lor (Z.lor (Z.shiftl d0 18) (Z.shiftl d1 12)) (Z.shiftl d2 6)) d3.

Definition quantum_bytes (dbuf : list Z) : option bytes :=
  match dbuf with
  | [] => Some []
  | [d0; d1] =>
      let val := assemble d0 d1 0 0 in Some [to_byte (Z.shiftr val 16)]
  | [d0; d1; d2] =>
      let val := assemble d0 d1 d2 0 in
      Some [to_byte (Z.shiftr val 16); to_byte (Z.shiftr val 8)]
  | [d0; d1; d2; d3] =>
      let val := assemble d0 d1 d2 d3 in
      Some [to_byte (Z.shiftr val 16); to_byte (Z.shiftr val 8);
            to_byte (Z.shiftr val 0)]
  | _ => None
  end.

Definition is_newline (c : byte) : bool :=
  bool_decide (c = "010"%byte) || bool_decide (c = "013"%byte).

(** [Encoding.Decode], the successive [decodeQuantum] calls written as one
    pass over the input.  [dbuf] holds the sextets of the quantum being
    read.  A byte outside the alphabet is skipped when it is ['\n'] or
    ['\r'] and is a [CorruptInputError] otherwise (no padding character
    exists); the input may end after 0, 2 or 3 sextets of a quantum, not
    after 1.  [None] is the error. *)
Fixpoint decode (enc : Encoding) (dbuf : list Z) (src : bytes)
  : option bytes :=
  match src with
  | [] =>
      match dbuf with
      | [_] => None
      | _ => quantum_bytes dbuf
      end
  | c :: rest =>
      let out := decodeMap enc c in
      if decide (out = 255) then
        if is_newline c then decode enc dbuf rest else None
      else
        match dbuf with
        | [d0; d1; d2] =>
            q ← quantum_bytes [d0; d1; d2; out];
            tl ← decode enc [] rest;
            Some (q ++ tl)
        | _ => decode enc (dbuf ++ [out]) rest
        end
  end.

Definition DecodeString (enc : Encoding) (s : bytes) : option bytes :=
  decode enc [] s.

End base64.

(* ================================================================== *)
(** * strings and strconv *)
(* ================================================================== *)

Module strs.

(** [strings.IndexByte(s, c)], which is also [strings.IndexRune(s, r)] for
    a rune [r] below [utf8.RuneSelf]: the index of the first [c], [None]
    for Go's [-1]. *)
Fixpoint IndexByte (s : bytes) (c : byte) : option nat :=
  match s with
  | [] => None
  | x :: s' => if decide (x = c) then Some 0%nat else S <$> IndexByte s' c
  end.

(** The loop of [strings.genSplit] for a separator of one byte: at most
    [k] cuts, the rest of the string is the last element. *)
Fixpoint genSplit (s : bytes) (sep : byte) (k : nat) : list bytes :=
  match k with
  | O => [s]
  | S k' =>
      match IndexByte s sep with
      | None => [s]
      | Some m => take m s :: genSplit (drop (S m) s) sep k'
      end
  end.

(** [strings.SplitN(s, sep, n)] for a separator of one byte and [n >= 0]:
    [nil] for [n = 0], at most [n] substrings otherwise. *)
Definition SplitN (s : bytes) (sep : byte) (n : nat) : list bytes :=
  match n with
  | O => []
  | S k => genSplit s sep k
  end.

End strs.

Module strconv.

Definition digit (d : Z) : byte := to_byte (48 + d).

(** The decimal digits of [n >= 0], most significant first; [fuel] bounds
    the number of digits. *)
Fixpoint digits (fuel : nat) (n : Z) (acc : bytes) : bytes :=
  match fuel with
  | O => acc
  | S fuel' =>
      let acc' := digit (n mod 10) :: acc in
      if n / 10 =? 0 then acc' else digits fuel' (n / 10) acc'
  end.

(** [strconv.Itoa(n)] for an [int] (64 bits: at most 19 digits). *)
Definition Itoa (n : Z) : bytes :=
  if n <? 0 then "-"%byte :: digits 20 (- n) [] else digits 20 n [].

End strconv.

(* ================================================================== *)
(** * net/url and encoding/base32 *)
(* ================================================================== *)

Module url.

Definition upperhex : bytes := str "0123456789ABCDEF".

Definition between (lo hi : Z) (c : byte) : bool :=
  (lo <=? u8 c) && (u8 c <=? hi).

(** [shouldEscape(c, encodePathSegment)] *)
Definition shouldEscape (c : byte) : bool :=
  if between 97 122 c || between 65 90 c || between 48 57 c then false
  else if bool_decide (c ∈ str "-_.~") then false
  else if bool_decide (c ∈ str "$&+,/:;=?@")
  then bool_decide (c ∈ str "/;,?")
  else true.

(** [url.PathEscape(s)] *)
Definition PathEscape (s : bytes) : bytes :=
  flat_map (fun c =>
    if shouldEscape c
    then ["%"%byte; nth (Z.to_nat (Z.shiftr (u8 c) 4)) upperhex x00;
          nth (Z.to_nat (Z.land (u8 c) 15)) upperhex x00]
    else [c]) s.

End url.

Module base32.

Definition encodeStd : bytes := str "ABCDEFGHIJKLMNOPQRSTUVWXYZ234567".

Definition encode_at (i : Z) : byte := nth (Z.to_nat i) encodeStd x00.

(** The eight 5-bit groups of five bytes, as characters. *)
Definition quantum (b0 b1 b2 b3 b4 : byte) : bytes :=
  let val :=
    Z.lor (Z.lor (Z.lor (Z.lor (Z.shiftl (u8 b0) 32) (Z.shiftl (u8 b1) 24))
                        (Z.shiftl (u8 b2) 16)) (Z.shiftl (u8 b3) 8)) (u8 b4) in
  map (fun sh => encode_at (Z.land (Z.shiftr val sh) 31))
      [35; 30; 25; 20; 15; 10; 5; 0].

(** [base32.StdEncoding.WithPadding(base32.NoPadding).EncodeToString]:
    five bytes give eight characters; a remainder of 1, 2, 3 or 4 bytes
    gives 2, 4, 5 or 7. *)
Fixpoint EncodeToString (src : bytes) : bytes :=
  match src with
  | [] => []
  | [b0] => take 2 (quantum b0 x00 x00 x00 x00)
  | [b0; b1] => take 4 (quantum b0 b1 x00 x00 x00)
  | [b0; b1; b2] => take 5 (quantum b0 b1 b2 x00 x00)
  | [b0; b1; b2; b3] => take 7 (quantum b0 b1 b2 b3 x00)
  | b0 :: b1 :: b2 :: b3 :: b4 :: rest =>
      quantum b0 b1 b2 b3 b4 ++ EncodeToString rest
  end.

End base32.

(* ================================================================== *)
(** * crypto/rand and the cryptographic libraries *)
(* ================================================================== *)

(** [rand.Reader], as the bytes it has left to give.  [io.ReadFull] fills a
    buffer of [n] bytes from it, or fails when the source gives fewer. *)
Abbreviation Reader := (list byte) (only parsing).

Definition ReadFull (r : Reader) (n : nat) : result bytes :=
  if decide (n ≤ length r)%nat then Ok (take n r)
  else Err (ErrExternal "unexpected EOF").

(** The hash functions [totp] selects by name. *)
Inductive hashAlg : Type := SHA1 | SHA256 | SHA512.

Definition hashSize (a : hashAlg) : nat :=
  match a with SHA1 => 20%nat | SHA256 => 32%nat | SHA512 => 64%nat end.

(** The cryptographic libraries behind the packages
    ([golang.org/x/crypto] and [crypto/...]), as the functions the code
    calls.  XChaCha20-Poly1305 is given by its two parts, the stream cipher
    and the authenticator, from which [Seal] and [Open] are composed. *)
Class CryptoLib : Type := {
  (** [h, _ := blake2b.New256(key); h.Write(message); h.Sum(nil)] *)
  blake2b_256 : bytes -> bytes -> bytes;
  (** [h, _ := blake2b.New512(key); h.Write(message); h.Sum(nil)] *)
  blake2b_512 : bytes -> bytes -> bytes;
  (** [argon2.IDKey(password, salt, time, memory, threads, keyLen)] *)
  argon2_IDKey : bytes -> bytes -> Z -> Z -> Z -> Z -> bytes;
  (** the XChaCha20 key stream of [(key, nonce)] xor-ed onto a text *)
  xchacha20 : bytes -> bytes -> bytes -> bytes;
  (** the Poly1305 tag of [(key, nonce)] over associated data and
      ciphertext *)
  poly1305_tag : bytes -> bytes -> bytes -> bytes -> bytes;
  ed25519_NewKeyFromSeed : bytes -> bytes;
  ed25519_Public : bytes -> bytes;
  ed25519_Sign : bytes -> bytes -> bytes;
  ed25519_Verify : bytes -> bytes -> bytes -> bool;
  (** [mac := hmac.New(h, secret); mac.Write(msg); mac.Sum(nil)] *)
  hmac : hashAlg -> bytes -> bytes -> bytes
}.

(** What the code relies on from these libraries. *)
Class CryptoLaws `{CryptoLib} : Prop := {
  blake2b_256_length : forall key msg, length (blake2b_256 key msg) = 32%nat;
  blake2b_512_length : forall key msg, length (blake2b_512 key msg) = 64%nat;
  xchacha20_length :
    forall key nonce text, length (xchacha20 key nonce text) = length text;
  xchacha20_involutive :
    forall key nonce text,
      xchacha20 key nonce (xchacha20 key nonce text) = text;
  poly1305_tag_length :
    forall key nonce ad ct, length (poly1305_tag key nonce ad ct) = 16%nat;
  hmac_length :
    forall a secret msg, length (hmac a secret msg) = hashSize a
}.

(** [chacha20poly1305.NewX(key)]: [Seal] and [Open] of the AEAD. *)
Module chacha20poly1305.
Section aead.
Context `{CryptoLib}.

Definition KeySize : nat := 32.
Definition NonceSizeX : nat := 24.
Definition Overhead : nat := 16.

(** [aead.Seal(dst[:0], nonce, plaintext, additionalData)]: ciphertext
    followed by the tag. *)
Definition Seal (key nonce plaintext ad : bytes) : bytes :=
  let ct := xchacha20 key nonce plaintext in
  ct ++ poly1305_tag key nonce ad ct.

(** [aead.Open(nil, nonce, ciphertext, additionalData)]: [None] is
    [errOpen]. *)
Definition Open (key nonce ciphertext ad : bytes) : option bytes :=
  if decide (length ciphertext < Overhead)%nat then None
  else
    let n := (length ciphertext - Overhead)%nat in
    let ct := take n ciphertext in
    let tag := drop n ciphertext in
    if decide (poly1305_tag key nonce ad ct = tag)
    then Some (xchacha20 key nonce ct)
    else None.
End aead.
End chacha20poly1305.

(* ================================================================== *)
(** * dvx/encoding.go *)
(* ================================================================== *)

(** [const Version string = "dv1"] *)
Definition Version : bytes := str "dv1".

(** [type TypePrefix string] *)
Abbreviation TypePrefix := (list byte) (only parsing).

Definition Encrypted : TypePrefix := str "enc".
Definition Signed : TypePrefix := str "sig".
Definition Tagged : TypePrefix := str "tag".
Definition TOTP : TypePrefix := str "totp".

(** [fmt.Sprintf("%s.%s.%s", Version, typePrefix, base64url(data))] *)
Definition Encode (typePrefix : TypePrefix) (data : bytes) : bytes :=
  Version ++ str "." ++ typePrefix ++ str "."
    ++ base64.EncodeToString base64.RawURLEncoding data.

Definition Decode (s : bytes) : result (bytes * TypePrefix * bytes) :=
  match strs.SplitN s "."%byte 3 with
  | [version; typePrefix; data64] =>
      if decide (version ≠ str "dv1") then Err (ErrUnknownVersion version)
      else if decide (typePrefix ≠ Encrypted ∧ typePrefix ≠ Signed
                      ∧ typePrefix ≠ Tagged ∧ typePrefix ≠ TOTP)
      then Err (ErrUnknownTypePrefix typePrefix)
      else
        match base64.DecodeString base64.RawURLEncoding data64 with
        | None => Err ErrNotBase64URL
        | Some data => Ok (version, typePrefix, data)
        end
  | _ => Err ErrThreeParts
  end.

Definition DecodeExpect (s : bytes) (expected : TypePrefix)
  : result (bytes * bytes) :=
  let* '(v, p, d) := Decode s in
  if decide (p ≠ expected) then Err ErrIncorrectTypePrefix
  else Ok (v, d).

(* ================================================================== *)
(** * dvx/dv1.go and dvx/dvx.go *)
(* ================================================================== *)

(** [type Primitive interface]: a low level cryptographic contract.
    [Encrypt] reads the random source. *)
Record Primitive : Type := {
  KDF512 : bytes -> bytes -> result bytes;
  MAC256 : bytes -> bytes -> result bytes;
  MAC512 : bytes -> bytes -> result bytes;
  Encrypt : bytes -> bytes -> Reader -> result bytes;
  Decrypt : bytes -> bytes -> result bytes;
  Sign : bytes -> bytes -> result bytes;
  Verify : bytes -> bytes -> bytes -> result bool
}.

Module DV1.
Section dv1.
Context `{CryptoLib}.

Definition KDF512 (password salt : bytes) : result bytes :=
  Ok (argon2_IDKey password salt 1 (64 * 1024) 4 64).

Definition MAC256 (key message : bytes) : result bytes :=
  if decide (length key ≠ 64%nat) then Err ErrMacKeyLen
  else Ok (blake2b_256 key message).

Definition MAC512 (key message : bytes) : result bytes :=
  if decide (length key ≠ 64%nat) then Err ErrMacKeyLen
  else Ok (blake2b_512 key message).

(** The nonce is read from [rand]; the associated data is
    [append([]byte(Version), nonce...)]. *)
Definition Encrypt (key data : bytes) (rand : Reader) : result bytes :=
  if decide (length key ≠ chacha20poly1305.KeySize) then Err ErrKeyLen
  else
    match ReadFull rand chacha20poly1305.NonceSizeX with
    | Ok nonce =>
        let encrypted :=
          chacha20poly1305.Seal key nonce data (Version ++ nonce) in
        Ok (nonce ++ encrypted)
    | Err e => Err (ErrNonceRead e)
    | Panic => Panic
    | Diverge => Diverge
    end.

Definition Decrypt (key cipher : bytes) : result bytes :=
  if decide (length key ≠ chacha20poly1305.KeySize) then Err ErrKeyLen
  else if decide (length cipher < chacha20poly1305.NonceSizeX)%nat
  then Err ErrCipherShort
  else
    let nonce := take chacha20poly1305.NonceSizeX cipher in
    let encrypted := drop chacha20poly1305.NonceSizeX cipher in
    match chacha20poly1305.Open key nonce encrypted (Version ++ nonce) with
    | Some data => Ok data
    | None => Err ErrOpenFailed
    end.

Definition Sign (privateKey message : bytes) : result bytes :=
  if decide (length privateKey ≠ 64%nat) then Err ErrPrivateKeyLen
  else Ok (ed25519_Sign privateKey message).

Definition Verify (publicKey message signature : bytes) : result bool :=
  if decide (length publicKey ≠ 32%nat) then Err ErrPublicKeyLen
  else if decide (length signature ≠ 64%nat) then Err ErrSignatureLen
  else Ok (ed25519_Verify publicKey message signature).

(** [DV1{}] as a [Primitive]. *)
Definition primitive : Primitive :=
  Build_Primitive KDF512 MAC256 MAC512 Encrypt Decrypt Sign Verify.
End dv1.
End DV1.

(* ================================================================== *)
(** * dvx/keypool.go *)
(* ================================================================== *)

(** [type KeyPool interface], as the protocol sees a pool between two
    calls: by the interface's contract equal keyRings give equal keys, so
    the two derivations are functions of the keyRing.  [Close] is modelled
    with the pool that implements it. *)
Record KeyPool : Type := {
  KDF32 : bytes -> result bytes;
  KDF64 : bytes -> result bytes
}.

(** Byte buffers that are shared between a caller and an object live in a
    memory of backing arrays.  A slice value is [nil] ([None]) or points to
    a backing array; [len(nil) = 0]. *)
Abbreviation memory := (gmap nat bytes).
Abbreviation slice := (option nat) (only parsing).

Definition deref (m : memory) (s : slice) : bytes :=
  match s with
  | None => []
  | Some a => default [] (m !! a)
  end.

Module dvxWrapper.

(** [type dvxWrapper struct]; the audit logger is not modelled. *)
Record t : Type := { dvx : Primitive; rootKey : slice }.

Definition kdf (d : t) (m : memory) (keyRing : bytes)
    (mac : bytes -> bytes -> result bytes) : result bytes :=
  let* key := mac (deref m (rootKey d)) keyRing in
  Ok key.

Definition KDF32 (d : t) (m : memory) (keyRing : bytes) : result bytes :=
  kdf d m keyRing (MAC256 (dvx d)).

Definition KDF64 (d : t) (m : memory) (keyRing : bytes) : result bytes :=
  kdf d m keyRing (MAC512 (dvx d)).

(** [d.rootKey = nil; return nil]: the wrapper afterwards, the memory
    afterwards, and the returned error. *)
Definition Close (d : t) (m : memory) : t * memory * option error :=
  ({| dvx := dvx d; rootKey := None |}, m, None).

(** The wrapper as a [KeyPool], at a given memory. *)
Definition pool (d : t) (m : memory) : KeyPool :=
  Build_KeyPool (KDF32 d m) (KDF64 d m).

End dvxWrapper.

(** [WrapDVXAsKeyPool(dvx, rootKey, log)]: the wrapper keeps the caller's
    slice, it does not copy the key. *)
Definition WrapDVXAsKeyPool (dvx : Primitive) (rootKey : slice)
  : dvxWrapper.t :=
  {| dvxWrapper.dvx := dvx; dvxWrapper.rootKey := rootKey |}.

(* ================================================================== *)
(** * dvx/totp/totp.go *)
(* ================================================================== *)

Module binary.

(** [binary.BigEndian.PutUint64(b, v)] on a fresh buffer of 8 bytes. *)
Definition PutUint64 (v : Z) : bytes :=
  map (fun sh => to_byte (Z.shiftr v sh)) [56; 48; 40; 32; 24; 16; 8; 0].

(** [binary.BigEndian.Uint32(b)] for the four bytes of [b]. *)
Definition Uint32 (b0 b1 b2 b3 : byte) : Z :=
  Z.lor (Z.lor (Z.lor (u8 b3) (Z.shiftl (u8 b2) 8)) (Z.shiftl (u8 b1) 16))
        (Z.shiftl (u8 b0) 24).

End binary.

Module subtle.

(** [subtle.ConstantTimeCompare(x, y)]: 1 when the two slices have equal
    contents, 0 otherwise (also when the lengths differ). *)
Definition ConstantTimeCompare (x y : bytes) : Z :=
  if decide (x = y) then 1 else 0.

End subtle.

Module totp.

Definition uriScheme : bytes := str "otpauth".
Definition uriHost : bytes := str "totp".

Record TOTP : Type := {
  Secret : bytes;
  Algorithm : bytes;
  Digits : Z;
  Period : Z;
  Issuer : bytes;
  AccountName : bytes
}.

(** [TOTP.URI]: the writes to the [strings.Builder], in order. *)
Definition URI (t : TOTP) : bytes :=
  let issuer := url.PathEscape (Issuer t) in
  uriScheme ++ str "://" ++ uriHost ++ str "/" ++ issuer ++ str ":"
    ++ url.PathEscape (AccountName t)
    ++ str "?secret=" ++ base32.EncodeToString (Secret t)
    ++ str "&issuer=" ++ issuer
    ++ str "&algorithm=" ++ Algorithm t
    ++ str "&digits=" ++ strconv.Itoa (Digits t)
    ++ str "&period=" ++ strconv.Itoa (Period t).

(** [for len(code) != digits { code = "0" + code }].  The loop leaves
    after at most [digits] rounds or never: with that much fuel, running
    out of it is the loop that does not end. *)
Fixpoint pad (fuel : nat) (code : bytes) (digits : Z) : result bytes :=
  if decide (Z.of_nat (length code) ≠ digits) then
    match fuel with
    | O => Diverge
    | S fuel' => pad fuel' ("0"%byte :: code) digits
    end
  else Ok code.

Section totp.
Context `{CryptoLib}.

(** [generateOTP(secret, algorithm, digits, counter)]; [counter] is an
    [int64].  [h[offset : offset+4]] is checked against the length of the
    digest. *)
Definition generateOTP (secret : bytes) (algorithm : bytes) (digits : Z)
    (counter : Z) : result bytes :=
  let* alg :=
    (if decide (algorithm = str "SHA1") then Ok SHA1
     else if decide (algorithm = str "SHA256") then Ok SHA256
     else if decide (algorithm = str "SHA512") then Ok SHA512
     else Err ErrInvalidAlgorithm) in
  let counterBytes := binary.PutUint64 (counter mod 2 ^ 64) in
  let h := hmac alg secret counterBytes in
  match h !! (length h - 1)%nat with
  | None => Panic
  | Some l =>
      let offset := Z.to_nat (Z.land (u8 l) 15) in
      match take 4 (drop offset h) with
      | [h0; h1; h2; h3] =>
          let h0' := to_byte (Z.land (u8 h0) 127) in
          let decimal := binary.Uint32 h0' h1 h2 h3 in
          if decide (digits ≠ 6 ∧ digits ≠ 8) then Err ErrInvalidDigits
          else
            let otp := decimal mod (10 ^ digits) in
            let code := strconv.Itoa otp in
            pad (Z.to_nat digits) code digits
      | _ => Panic
      end
  end.

(** [TOTP.Generate]; [now] is [time.Now().Unix()]. *)
Definition Generate (t : TOTP) (now : Z) : result bytes :=
  if decide (length (Secret t) = 0%nat) then Err ErrSecretEmpty
  else if decide (Period t ≠ 30) then Err ErrInvalidPeriod
  else
    let counter := Z.quot now (Period t) in
    generateOTP (Secret t) (Algorithm t) (Digits t) counter.

(** [TOTP.Verify]: [Ok valid] is the return of [(valid, nil)]. *)
Definition Verify (t : TOTP) (now : Z) (code : bytes) : result bool :=
  match Generate t now with
  | Ok expected =>
      Ok (bool_decide (subtle.ConstantTimeCompare expected code = 1))
  | Err _ => Ok false
  | Panic => Panic
  | Diverge => Diverge
  end.
End totp.
End totp.

(* ================================================================== *)
(** * dvx/protocol.go *)
(* ================================================================== *)

Module ed25519.
Section ed25519.
Context `{CryptoLib}.

(** [ed25519.NewKeyFromSeed] panics on a seed that is not 32 bytes. *)
Definition NewKeyFromSeed (seed : bytes) : result bytes :=
  if decide (length seed ≠ 32%nat) then Panic
  else Ok (ed25519_NewKeyFromSeed seed).

(** [ed25519.PrivateKey(priv).Public()] slices [priv[32:]]. *)
Definition Public (priv : bytes) : result bytes :=
  if decide (length priv < 32)%nat then Panic
  else Ok (ed25519_Public priv).
End ed25519.
End ed25519.

Module Protocol.
Section protocol.
Context `{CryptoLib}.

Record t : Type := { keys : gmap bytes KeyPool }.

Definition NewProtocol (keyPools : gmap bytes KeyPool) : t :=
  {| keys := keyPools |}.

(** [p.keys[version]] as the receiver of a method call: the call panics
    on the nil interface of a missing entry. *)
Definition keys_at (p : t) (version : bytes) : result KeyPool :=
  match keys p !! version with
  | Some pool => Ok pool
  | None => Panic
  end.

Definition keyRingToBytes (p : t) (keyRing : bytes) : bytes :=
  match strs.IndexByte keyRing ":"%byte with
  | None => keyRing
  | Some idx =>
      match base64.DecodeString base64.RawStdEncoding
              (drop (S idx) keyRing) with
      | None => keyRing
      | Some base64Buf => base64Buf
      end
  end.

Definition Encrypt (p : t) (keyRing : bytes) (data : bytes) (rand : Reader)
  : result bytes :=
  let* pool := keys_at p Version in
  let* key := KDF32 pool (keyRingToBytes p keyRing) in
  let* cipher := DV1.Encrypt key data rand in
  Ok (Encode Encrypted cipher).

Definition decrypt (p : t) (keyRing cipher version : bytes)
  : result bytes :=
  if decide (version = str "dv1") then
    let* pool := keys_at p version in
    let* key := KDF32 pool keyRing in
    let* data := DV1.Decrypt key cipher in
    Ok data
  else Ok [].

Definition Decrypt (p : t) (keyRing ciphertext : bytes) : result bytes :=
  let* '(v, d) := DecodeExpect ciphertext Encrypted in
  decrypt p (keyRingToBytes p keyRing) d v.

Definition deriveSignKey (p : t) (keyRing version : bytes)
  : result bytes :=
  if decide (version = str "dv1") then
    let* pool := keys_at p Version in
    let* seed := KDF32 pool keyRing in
    ed25519.NewKeyFromSeed seed
  else Ok [].

Definition CreateSignKey (p : t) (keyRing : bytes) : result bytes :=
  let* privateKey := deriveSignKey p (keyRingToBytes p keyRing) Version in
  ed25519.Public privateKey.

(** [Sign] returns the envelope and the raw signature. *)
Definition Sign (p : t) (keyRing message : bytes)
  : result (bytes * bytes) :=
  let* key := deriveSignKey p (keyRingToBytes p keyRing) Version in
  let* sig := DV1.Sign key message in
  Ok (Encode Signed sig, sig).

Definition verifyPK (p : t) (publicKey message signature version : bytes)
  : result bool :=
  if decide (version = str "dv1") then
    DV1.Verify publicKey message signature
  else Ok false.

Definition verify (p : t) (keyRing message signature version : bytes)
  : result bool :=
  let* publicKey :=
    (if decide (version = str "dv1") then
       let* privateKey := deriveSignKey p keyRing (str "dv1") in
       ed25519.Public privateKey
     else Ok []) in
  verifyPK p publicKey message signature version.

Definition Verify (p : t) (keyRing message signature : bytes)
  : result bool :=
  let* '(v, sig) := DecodeExpect signature Signed in
  verify p (keyRingToBytes p keyRing) message sig v.

Definition VerifyPK (p : t) (publicKey message signature : bytes)
  : result bool :=
  let* '(v, signatureBuf) := DecodeExpect signature Signed in
  verifyPK p publicKey message signatureBuf v.

Definition MAC (p : t) (keyRing message : bytes) : result bytes :=
  let* pool := keys_at p Version in
  let* key := KDF64 pool (keyRingToBytes p keyRing) in
  let* buffer := DV1.MAC512 key message in
  Ok (Encode Tagged buffer).

Definition deriveTOTPKey (p : t) (keyRing rawID accountID version : bytes)
  : result bytes :=
  if decide (version = str "dv1") then
    let* pool := keys_at p Version in
    let* totpSK := KDF64 pool keyRing in
    let* intermediate := DV1.MAC512 totpSK rawID in
    let* key := DV1.MAC256 intermediate accountID in
    Ok key
  else Ok [].

(** [GenerateTOTP] returns the selector id and the URI. *)
Definition GenerateTOTP (p : t) (keyRing issuer accountName accountID : bytes)
    (rand : Reader) : result (bytes * bytes) :=
  match ReadFull rand 32 with
  | Ok rawID =>
      let id := Encode TOTP rawID in
      let* key :=
        deriveTOTPKey p (keyRingToBytes p keyRing) rawID accountID Version in
      let uri :=
        totp.URI {| totp.Secret := key;
                    totp.Algorithm := str "SHA256";
                    totp.Digits := 6;
                    totp.Period := 30;
                    totp.Issuer := issuer;
                    totp.AccountName := accountName |} in
      Ok (id, uri)
  | Err e => Err (ErrTotpID e)
  | Panic => Panic
  | Diverge => Diverge
  end.

(** [VerifyTOTP]; [now] is the clock read by [TOTP.Generate]. *)
Definition VerifyTOTP (p : t) (keyRing id accountID code : bytes) (now : Z)
  : result bool :=
  let* '(v, rawID) := DecodeExpect id TOTP in
  let* key := deriveTOTPKey p (keyRingToBytes p keyRing) rawID accountID v in
  if decide (v = str "dv1") then
    totp.Verify {| totp.Secret := key;
                   totp.Algorithm := str "SHA256";
                   totp.Digits := 6;
                   totp.Period := 30;
                   totp.Issuer := [];
                   totp.AccountName := [] |} now code
  else Ok false.
End protocol.
End Protocol.

(* ================================================================== *)
(** * utils/tearc: the sharded cache *)
(* ================================================================== *)

(** What [arc.Get] of github.com/bluele/gcache returns: the value, the
    [KeyNotFoundError], or another error. *)
Inductive lookup (V : Type) : Type :=
  | Hit (v : V)
  | KeyNotFound
  | Failed (e : error).
Arguments Hit {V} v.
Arguments KeyNotFound {V}.
Arguments Failed {V} e.

(** The libraries behind the cache: the ARC cache of gcache (built without
    loader, expiry or callbacks), as a state with its operations, and
    [hash/maphash].  The state [arc] is what the cache holds and the order
    it keeps; its hit and miss counters are not part of it. *)
Class CacheLib (V : Type) : Type := {
  arc : Type;
  (** [gcache.New(size).ARC().Build()] *)
  arc_Build : Z -> arc;
  arc_Get : arc -> bytes -> arc * lookup V;
  arc_Set : arc -> bytes -> V -> arc * option error;
  arc_Remove : arc -> bytes -> arc * bool;
  arc_Purge : arc -> arc;
  (** [h.SetSeed(seed); h.WriteString(key); h.Sum64()] *)
  maphash_Sum64 : Z -> bytes -> Z
}.

Class CacheLaws `{CacheLib V} : Prop := {
  (** a lookup that misses moves nothing in the cache *)
  arc_Get_miss : forall a k a', arc_Get a k = (a', KeyNotFound) -> a' = a;
  maphash_Sum64_range : forall seed k, 0 <= maphash_Sum64 seed k < 2 ^ 64
}.

Module tearc.

(** [time.Duration] and [time.Time]: nanoseconds, as [int64] and as an
    instant. *)
Abbreviation Duration := Z (only parsing).
Abbreviation Time := Z (only parsing).

Definition Millisecond : Z := 1000000.
Definition Second : Z := 1000 * Millisecond.
Definition Minute : Z := 60 * Second.

(** The range of a [Duration], and the sum of two durations, which is a
    sum of [int64]: it wraps around. *)
Definition minDuration : Z := - 2 ^ 63.
Definition maxDuration : Z := 2 ^ 63 - 1.

Definition int64 (z : Z) : Z := (z + 2 ^ 63) mod 2 ^ 64 - 2 ^ 63.

(** [t.Sub(u)]: the duration [t - u], or the minimum or the maximum
    duration when the difference is outside the range. *)
Definition Sub (t u : Time) : Duration :=
  if decide (t - u < minDuration) then minDuration
  else if decide (t - u > maxDuration) then maxDuration
  else t - u.

Record BucketConfig : Type := { MinTick : Duration; MaxTick : Duration }.

Record heapItem : Type := {
  key : bytes;
  evictionTime : Time;
  index : Z
}.

(** The heap and the pointer map share their [*heapItem]s: the items live
    in a store of cells, and [evictionQueue] and [eqPtrMap] hold
    addresses of cells. *)
Abbreviation cells := (gmap nat heapItem).
Abbreviation evictionQueue := (list nat) (only parsing).

(** [eq[i]], with Go's bounds check. *)
Definition at_index (eq : evictionQueue) (i : Z) : result nat :=
  if decide (i < 0) then Panic
  else match eq !! Z.to_nat i with
       | Some a => Ok a
       | None => Panic
       end.

(** [*p] for a [*heapItem]; a nil or dangling pointer panics. *)
Definition cell (st : cells) (a : nat) : result heapItem :=
  match st !! a with
  | Some it => Ok it
  | None => Panic
  end.

Definition set_index (st : cells) (a : nat) (i : Z) : cells :=
  alter (fun it => {| key := key it; evictionTime := evictionTime it;
                      index := i |}) a st.

Definition set_evictionTime (st : cells) (a : nat) (t : Time) : cells :=
  alter (fun it => {| key := key it; evictionTime := t;
                      index := index it |}) a st.

(** ** [evictionQueue]: the [heap.Interface] methods *)

Definition Len (eq : evictionQueue) : Z := Z.of_nat (length eq).

Definition Less (st : cells) (eq : evictionQueue) (i j : Z) : result bool :=
  let* a := at_index eq i in
  let* b := at_index eq j in
  let* x := cell st a in
  let* y := cell st b in
  Ok (bool_decide (evictionTime x < evictionTime y)).

Definition Swap (st : cells) (eq : evictionQueue) (i j : Z)
  : result (cells * evictionQueue) :=
  let* a := at_index eq i in
  let* b := at_index eq j in
  let eq' := <[Z.to_nat j := a]> (<[Z.to_nat i := b]> eq) in
  let* _ := cell st b in
  let st1 := set_index st b i in
  let* _ := cell st1 a in
  Ok (set_index st1 a j, eq').

Definition Push (st : cells) (eq : evictionQueue) (x : nat)
  : result (cells * evictionQueue) :=
  let n := Len eq in
  let* _ := cell st x in
  Ok (set_index st x n, eq ++ [x]).

(** ** container/heap *)

(** [up(h, j)]; the parent index [(j - 1) / 2] is Go's truncated
    division.  Each round makes [j] smaller, so [fuel] above [j] is never
    used up. *)
Fixpoint up (fuel : nat) (st : cells) (eq : evictionQueue) (j : Z)
  : result (cells * evictionQueue) :=
  let i := Z.quot (j - 1) 2 in
  if decide (i = j) then Ok (st, eq)
  else
    let* lt := Less st eq j i in
    if negb lt then Ok (st, eq)
    else
      let* '(st', eq') := Swap st eq i j in
      match fuel with
      | O => Diverge
      | S fuel' => up fuel' st' eq' i
      end.

(** [down(h, i0, n)]: the heap afterwards and the final index [i]. *)
Fixpoint down (fuel : nat) (st : cells) (eq : evictionQueue) (i n : Z)
  : result (cells * evictionQueue * Z) :=
  let j1 := 2 * i + 1 in
  if decide (j1 >= n ∨ j1 < 0) then Ok (st, eq, i)
  else
    let j2 := j1 + 1 in
    let* j :=
      (if decide (j2 < n) then
         let* lt21 := Less st eq j2 j1 in Ok (if lt21 then j2 else j1)
       else Ok j1) in
    let* lt := Less st eq j i in
    if negb lt then Ok (st, eq, i)
    else
      let* '(st', eq') := Swap st eq i j in
      match fuel with
      | O => Diverge
      | S fuel' => down fuel' st' eq' j n
      end.

(** [heap.Push(h, x)] *)
Definition heap_Push (st : cells) (eq : evictionQueue) (x : nat)
  : result (cells * evictionQueue) :=
  let* '(st1, eq1) := Push st eq x in
  up (length eq1) st1 eq1 (Len eq1 - 1).

(** [heap.Fix(h, i)] *)
Definition heap_Fix (st : cells) (eq : evictionQueue) (i : Z)
  : result (cells * evictionQueue) :=
  let* '(st1, eq1, i') := down (length eq) st eq i (Len eq) in
  if decide (i' > i) then Ok (st1, eq1)
  else up (length eq1) st1 eq1 i.

(** [evictionQueue.Pop]: the last item leaves the queue, its [index]
    set to [-1]; on an empty queue [old[n-1]] is out of range. *)
Definition Pop (st : cells) (eq : evictionQueue)
  : result (cells * evictionQueue * nat) :=
  let n := Len eq in
  let* item := at_index eq (n - 1) in
  let* _ := cell st item in
  Ok (set_index st item (-1), take (Z.to_nat (n - 1)) eq, item).

(** [heap.Pop(h)] *)
Definition heap_Pop (st : cells) (eq : evictionQueue)
  : result (cells * evictionQueue * nat) :=
  let n := Len eq - 1 in
  let* '(st1, eq1) := Swap st eq 0 n in
  let* '(st2, eq2, _) := down (length eq) st1 eq1 0 n in
  Pop st2 eq2.

Section cache.
Context {V I W : Type} `{CacheLib V}.

(** [LoaderFunc]: the callback returns [(value, evictIn, err)].  It runs
    outside the cache, on a world [W] of its own (the wrapped key pool,
    the flags of a test).  [V] is the type of the cached [interface{}]
    values and [I] the type of the load hint. *)
Definition LoaderFunc : Type :=
  bytes -> I -> W -> W * (V * Duration * option error).

Definition EvictedFunc : Type := bytes -> W -> W.

(** [type bucket struct], without the logger, the mutex and the close
    signal.  [allocs] counts the cells allocated so far: the next
    [&heapItem{...}] gets that address. *)
Record bucket : Type := {
  id : Z;
  loader : LoaderFunc;
  evicted : EvictedFunc;
  config : BucketConfig;
  b_arc : arc;
  store : cells;
  allocs : nat;
  eq : evictionQueue;
  eqPtrMap : gmap bytes nat
}.

Definition with_arc (b : bucket) (a : arc) : bucket :=
  {| id := id b; loader := loader b; evicted := evicted b;
     config := config b; b_arc := a; store := store b;
     allocs := allocs b; eq := eq b; eqPtrMap := eqPtrMap b |}.

Definition with_heap (b : bucket) (st : cells) (n : nat)
    (q : evictionQueue) (m : gmap bytes nat) : bucket :=
  {| id := id b; loader := loader b; evicted := evicted b;
     config := config b; b_arc := b_arc b; store := st;
     allocs := n; eq := q; eqPtrMap := m |}.

(** [bucket.loadAndSet]: the bucket and the world afterwards, and what
    is returned.  [now] is the [time.Now()] read after the value is
    set. *)
Definition loadAndSet (b : bucket) (key : bytes) (loadInfo : I) (w : W)
    (now : Time) : bucket * W * result V :=
  let '(w', (value, evictIn, err)) := loader b key loadInfo w in
  match err with
  | Some e => (b, w', Err (ErrLoadWrap e))
  | None =>
      let '(a', err') := arc_Set (b_arc b) key value in
      let b1 := with_arc b a' in
      match err' with
      | Some e => (b1, w', Err (ErrSetWrap e))
      | None =>
          let evictionTime := now + evictIn in
          let item := allocs b1 in
          let st1 :=
            <[item := {| key := key; evictionTime := evictionTime;
                         index := 0 |}]> (store b1) in
          let m1 := <[key := item]> (eqPtrMap b1) in
          match heap_Push st1 (eq b1) item with
          | Ok (st2, q2) =>
              (with_heap b1 st2 (S item) q2 m1, w', Ok value)
          | Err e => (with_heap b1 st1 (S item) (eq b1) m1, w', Err e)
          | Panic => (with_heap b1 st1 (S item) (eq b1) m1, w', Panic)
          | Diverge => (with_heap b1 st1 (S item) (eq b1) m1, w', Diverge)
          end
      end
  end.

(** The goroutine that [bucket.Get] starts on a hit:
    [go func(evictionTime time.Time) {...}(now + 1 minute)]. *)
Record slideGo : Type := { slide_key : bytes; slide_evictionTime : Time }.

(** The body of that goroutine, run under the bucket's lock. *)
Definition slide (b : bucket) (g : slideGo) : result bucket :=
  match eqPtrMap b !! slide_key g with
  | None => Ok b
  | Some item =>
      let* _ := cell (store b) item in
      let st1 := set_evictionTime (store b) item (slide_evictionTime g) in
      let* it := cell st1 item in
      let* '(st2, q2) := heap_Fix st1 (eq b) (index it) in
      Ok (with_heap b st2 (allocs b) q2 (eqPtrMap b))
  end.

(** [bucket.Get]: the bucket and the world afterwards, what is returned,
    and the goroutine started, if any.  [now] is the clock read on the
    path taken. *)
Definition bucket_Get (b : bucket) (key : bytes) (loadInfo : I) (w : W)
    (now : Time) : bucket * W * result V * option slideGo :=
  let '(a', r) := arc_Get (b_arc b) key in
  let b1 := with_arc b a' in
  match r with
  | KeyNotFound => (loadAndSet b1 key loadInfo w now, None)
  | Failed e => (b1, w, Err (ErrGetWrap e), None)
  | Hit value =>
      (b1, w, Ok value,
       Some {| slide_key := key; slide_evictionTime := now + 1 * Minute |})
  end.

(** The closure [reap] of [bucket.startReaper], run under the bucket's
    lock: the bucket afterwards, the keys for which [go b.evicted(key)] was
    started, in order, and the duration returned.  [now k] is the clock as
    the [k]-th round of the loop reads it.  A round that goes on has taken
    one item from the queue, so [fuel] at the length of the queue is never
    used up. *)
Fixpoint reap_loop (fuel : nat) (b : bucket) (now : nat -> Time)
    (started : list bytes) : result (bucket * list bytes * Duration) :=
  if decide (Len (eq b) > 0) then
    match fuel with
    | O => Diverge
    | S fuel' =>
        let* '(st1, q1, item) := heap_Pop (store b) (eq b) in
        let* it := cell st1 item in
        if decide (now 0%nat < evictionTime it) then
          let* '(st2, q2) := heap_Push st1 q1 item in
          let timeout :=
            int64 (Sub (evictionTime it) (now 0%nat) + 50 * Millisecond) in
          Ok (with_heap b st2 (allocs b) q2 (eqPtrMap b), started, timeout)
        else
          let '(a', removed) := arc_Remove (b_arc b) (key it) in
          let started' :=
            if removed then started ++ [key it] else started in
          let b' := with_heap (with_arc b a') st1 (allocs b) q1
                      (delete (key it) (eqPtrMap b)) in
          reap_loop fuel' b' (fun k => now (S k)) started'
    end
  else Ok (b, started, MinTick (config b)).

Definition reap (b : bucket) (now : nat -> Time)
  : result (bucket * list bytes * Duration) :=
  reap_loop (length (eq b)) b now [].

(** The [case <-t.C] of the reaper goroutine: one run of [reap], and the
    interval that [t.Reset] is given. *)
Definition tick (b : bucket) (now : nat -> Time)
  : result (bucket * list bytes * Duration) :=
  let* '(b', started, next) := reap b now in
  let next :=
    if decide (next < MinTick (config b)) then MinTick (config b)
    else if decide (next > MaxTick (config b)) then MaxTick (config b)
    else next in
  Ok (b', started, next).

(** [type tearc struct]; [jumpSeed] is the seed drawn by
    [maphash.MakeSeed()]. *)
Record tearc : Type := {
  size : Z;
  shards : Z;
  jumpSeed : Z;
  buckets : list bucket
}.

(** [NewCache(size, shards, loader, evicted, config, log)]; [seed] is the
    seed that [maphash.MakeSeed()] draws.  A nil [loader], [evicted] or
    [config] is [None].  The reaper goroutine of each bucket is started
    and runs on its own: it is not part of what [NewCache] returns. *)
Definition NewCache (size shards : Z) (loader : option LoaderFunc)
    (evicted : option EvictedFunc) (config : option BucketConfig)
    (seed : Z) : result tearc :=
  if decide (size <= 0) then Err (ErrSize size)
  else if decide (shards <= 0) then Err (ErrShards shards)
  else if decide (Z.rem size shards ≠ 0) then Err ErrNotDividable
  else
    match loader with
    | None => Err ErrLoaderNil
    | Some loader =>
        let evicted := default (fun _ w => w) evicted in
        match config with
        | None => Err ErrConfigNil
        | Some config =>
            if decide (MinTick config >= MaxTick config) then Err ErrTicks
            else
              Ok {| size := size;
                    shards := shards;
                    jumpSeed := seed;
                    buckets :=
                      map (fun i =>
                             {| id := Z.of_nat i;
                                loader := loader;
                                evicted := evicted;
                                config := config;
                                b_arc := arc_Build (Z.quot size shards);
                                store := ∅;
                                allocs := 0;
                                eq := [];
                                eqPtrMap := ∅ |})
                          (seq 0 (Z.to_nat shards)) |}
        end
    end.

(** [tearc.jump]: the index of the bucket of [key]. *)
Definition jump (t : tearc) (key : bytes) : Z :=
  maphash_Sum64 (jumpSeed t) key mod shards t.

(** [tearc.Get]: [t.jump(key).Get(key, loadInfo)]. *)
Definition Get (t : tearc) (key : bytes) (loadInfo : I) (w : W)
    (now : Time) : tearc * W * result V * option slideGo :=
  let jumpIdx := Z.to_nat (jump t key) in
  match buckets t !! jumpIdx with
  | None => (t, w, Panic, None)
  | Some b =>
      let '(b', w', r, g) := bucket_Get b key loadInfo w now in
      ({| size := size t; shards := shards t; jumpSeed := jumpSeed t;
          buckets := <[jumpIdx := b']> (buckets t) |}, w', r, g)
  end.
End cache.
End tearc.

(* ================================================================== *)
(** * dvx/tearc: the caching key pool *)
(* ================================================================== *)

Module dvx_tearc.

(** [KeyPool], the interface as the package copies it.  The pool behind
    it has a state [S] of its own (a root key, a hardware module); a
    method returns Go's pair [(key, err)]. *)
Record KeyPool (S : Type) : Type := {
  KDF32 : bytes -> S -> S * (bytes * option error);
  KDF64 : bytes -> S -> S * (bytes * option error);
  Close : S -> S * option error
}.
Arguments KDF32 {S} k keyRing s.
Arguments KDF64 {S} k keyRing s.
Arguments Close {S} k s.

Record Config : Type := {
  Size : Z;
  Shards : Z;
  BucketMinTick : tearc.Duration;
  BucketMaxTick : tearc.Duration;
  AliveTime : tearc.Duration
}.

Section wrapper.
Context {S : Type} `{CacheLib (option bytes)}.

(** [wrapper.get], the loader of the cache.  The cached [interface{}] is
    [Some key] for a [[]byte] and [None] for the nil interface, which is
    what a load hint other than 32 and 64 leaves in [value]. *)
Definition get (config : Config) (src : KeyPool S)
  : @tearc.LoaderFunc (option bytes) Z S :=
  fun key loadInfo s =>
    let '(s', (value, err)) :=
      if decide (loadInfo = 32) then
        let '(s', (k, err)) := KDF32 src key s in (s', (Some k, err))
      else if decide (loadInfo = 64) then
        let '(s', (k, err)) := KDF64 src key s in (s', (Some k, err))
      else (s, (None, None)) in
    match err with
    | Some e => (s', (None, 0, Some e))
    | None => (s', (value, AliveTime config, None))
    end.

(** [wrapper.evict] writes to the log. *)
Definition evict : @tearc.EvictedFunc S := fun _ s => s.

Record wrapper : Type := {
  config : Config;
  src : KeyPool S;
  cache : @tearc.tearc (option bytes) Z S _
}.

(** [New], for a [config] that is not nil; [seed] is the seed that
    [tearc.NewCache] draws. *)
Definition New (config : Config) (pool : KeyPool S) (seed : Z)
  : result wrapper :=
  let* c :=
    tearc.NewCache (Size config) (Shards config) (Some (get config pool))
      (Some evict)
      (Some {| tearc.MinTick := BucketMinTick config;
               tearc.MaxTick := BucketMaxTick config |}) seed in
  Ok {| config := config; src := pool; cache := c |}.

Definition with_cache (w : wrapper)
    (c : @tearc.tearc (option bytes) Z S _) : wrapper :=
  {| config := config w; src := src w; cache := c |}.

(** [value.([]byte)] behind the check of [err]: the type assertion panics
    on the nil interface. *)
Definition as_bytes (r : result (option bytes)) : result bytes :=
  let* value := r in
  match value with
  | Some key => Ok key
  | None => Panic
  end.

(** [wrapper.KDF32] and [wrapper.KDF64]; as for [tearc.Get], the
    goroutine that a hit starts is returned. *)
Definition wrapper_KDF32 (w : wrapper) (keyRing : bytes) (s : S)
    (now : tearc.Time)
  : wrapper * S * result bytes * option tearc.slideGo :=
  let '(c', s', r, g) := tearc.Get (cache w) keyRing 32 s now in
  (with_cache w c', s', as_bytes r, g).

Definition wrapper_KDF64 (w : wrapper) (keyRing : bytes) (s : S)
    (now : tearc.Time)
  : wrapper * S * result bytes * option tearc.slideGo :=
  let '(c', s', r, g) := tearc.Get (cache w) keyRing 64 s now in
  (with_cache w c', s', as_bytes r, g).

(** [wrapper.Close]: [w.src.Close()]; the cache is not closed. *)
Definition wrapper_Close (w : wrapper) (s : S)
  : wrapper * S * option error :=
  let '(s', err) := Close (src w) s in (w, s', err).
End wrapper.
End dvx_tearc.

(* ================================================================== *)
(** * dvx/hsm: the key pool of a PKCS#11 module *)
(* ================================================================== *)

(** github.com/miekg/pkcs11, as far as the package uses it.  [ctx] is the
    state of the module with its tokens and sessions; a slot, a session,
    an object and a mechanism are numbers; an error is a [pkcs11.Error],
    with its [Error()] text.  A call returns the state afterwards and
    Go's results.  The constants are those of the library. *)
Record TokenInfo : Type := { ti_Label : bytes }.

(** The value of an attribute: a string, a boolean, a number, or a
    constant of the library by its name. *)
Inductive AttributeValue : Type :=
  | AString (s : bytes)
  | ABool (b : bool)
  | AUint (n : Z)
  | AConst (name : string).

(** [pkcs11.NewAttribute(typ, x)], the type by the name of its
    constant. *)
Record Attribute : Type := NewAttribute {
  a_Type : string;
  a_Value : AttributeValue
}.

Class Pkcs11Lib : Type := {
  ctx : Type;
  p11error : Type;
  p11_Error : p11error -> bytes;
  CKM_SHA256_HMAC : Z;
  CKM_SHA512_HMAC : Z;
  CKM_GENERIC_SECRET_KEY_GEN : Z;
  CKF_SERIAL_SESSION : Z;
  CKF_RW_SESSION : Z;
  CKU_USER : Z;
  (** [pkcs11.New(module)]: [None] is the nil context *)
  p11_New : bytes -> option ctx;
  p11_Initialize : ctx -> ctx * option p11error;
  p11_GetSlotList : ctx -> bool -> ctx * (list Z * option p11error);
  p11_GetTokenInfo : ctx -> Z -> ctx * (TokenInfo * option p11error);
  (** the [Mechanism] fields of the mechanisms returned *)
  p11_GetMechanismList : ctx -> Z -> ctx * (list Z * option p11error);
  p11_OpenSession : ctx -> Z -> Z -> ctx * (Z * option p11error);
  p11_CloseSession : ctx -> Z -> ctx * option p11error;
  p11_Login : ctx -> Z -> Z -> bytes -> ctx * option p11error;
  p11_Logout : ctx -> Z -> ctx * option p11error;
  p11_FindObjectsInit : ctx -> Z -> list Attribute -> ctx * option p11error;
  (** without the flag [more], which the package drops *)
  p11_FindObjects : ctx -> Z -> Z -> ctx * (list Z * option p11error);
  p11_FindObjectsFinal : ctx -> Z -> ctx * option p11error;
  p11_GenerateKey :
    ctx -> Z -> list Z -> list Attribute -> ctx * (Z * option p11error);
  p11_SignInit : ctx -> Z -> list Z -> Z -> ctx * option p11error;
  p11_Sign : ctx -> Z -> bytes -> ctx * (bytes * option p11error);
  p11_Finalize : ctx -> ctx * option p11error;
  p11_Destroy : ctx -> ctx
}.

Module hsm.
Section hsm.
Context `{Pkcs11Lib}.

(** The errors of the package: the [fmt.Errorf] calls, by call site;
    [ErrP11] is an error of the module returned as it is. *)
Inductive error : Type :=
  | ErrP11 (e : p11error)
  | ErrNewLink
  | ErrInit (e : p11error)
  | ErrListSlots (e : p11error)
  | ErrTokenInfo (e : p11error)
  | ErrSlotNotFound (label : bytes)
  | ErrMechanismList (e : p11error)
  | ErrNotSupported (mechanism : Z) (mechanismName : string) (slot : Z)
  | ErrOpenSession (e : p11error)
  | ErrLogin (e : p11error)
  | ErrFindInit (e : p11error)
  | ErrFindObjects (e : p11error)
  | ErrFindFinal (e : p11error)
  | ErrObjectHandles (n : Z)
  | ErrGenerateKey (e : p11error)
  | ErrSignInit (e : p11error)
  | ErrSign (e : p11error)
  | ErrMacLength (n : Z) (keyLen : Z).

Record Config : Type := {
  Module_ : bytes;
  Label : bytes;
  UserPin : bytes;
  RootKeyID : bytes;
  RootKeyLabel : bytes
}.

(** The calls made to the module, in order: what the package does to the
    token. *)
Inductive call : Type :=
  | CInitialize
  | CGetSlotList (tokenPresent : bool)
  | CGetTokenInfo (slotID : Z)
  | CGetMechanismList (slotID : Z)
  | COpenSession (slotID : Z) (flags : Z)
  | CCloseSession (session : Z)
  | CLogin (session : Z) (userType : Z) (pin : bytes)
  | CLogout (session : Z)
  | CFindObjectsInit (session : Z) (template : list Attribute)
  | CFindObjects (session : Z) (max : Z)
  | CFindObjectsFinal (session : Z)
  | CGenerateKey (session : Z) (mechanisms : list Z)
      (template : list Attribute)
  | CSignInit (session : Z) (mechanisms : list Z) (key : Z)
  | CSign (session : Z) (message : bytes)
  | CFinalize
  | CDestroy.

(** The module behind [h.ctx], with the calls it has received. *)
Record world : Type := { dev : ctx; calls : list call }.

Definition called {A} (w : world) (c : call) (r : ctx * A) : world * A :=
  ({| dev := r.1; calls := calls w ++ [c] |}, r.2).

(** [type hsm struct], without the loggers; the context is in the
    [world]. *)
Record t : Type := {
  config : Config;
  slot : Z;
  keySession : Z;
  key : Z
}.

Definition with_slot (h : t) (s : Z) : t :=
  {| config := config h; slot := s; keySession := keySession h;
     key := key h |}.
Definition with_keySession (h : t) (s : Z) : t :=
  {| config := config h; slot := slot h; keySession := s; key := key h |}.
Definition with_key (h : t) (k : Z) : t :=
  {| config := config h; slot := slot h; keySession := keySession h;
     key := k |}.

(** [hsm.initCtx]: the world that [h.ctx] then points to, or [None] when
    [pkcs11.New] returned nil. *)
Definition initCtx (h : t) : option world * option error :=
  match p11_New (Module_ (config h)) with
  | None => (None, Some ErrNewLink)
  | Some c =>
      let '(w, err) :=
        called {| dev := c; calls := [] |} CInitialize (p11_Initialize c) in
      match err with
      | Some e => (Some w, Some (ErrInit e))
      | None => (Some w, None)
      end
  end.

(** The loop of [selectSlot] over the slots that are left:
    [selectedSlot] so far, and the error that ends the function. *)
Fixpoint selectSlot_loop (h : t) (slots : list Z) (selectedSlot : Z)
    (w : world) : world * (Z * option error) :=
  match slots with
  | [] => (w, (selectedSlot, None))
  | si :: rest =>
      let '(w1, (ti, err)) :=
        called w (CGetTokenInfo si) (p11_GetTokenInfo (dev w) si) in
      match err with
      | Some e => (w1, (selectedSlot, Some (ErrTokenInfo e)))
      | None =>
          if decide (ti_Label ti ≠ Label (config h))
          then selectSlot_loop h rest selectedSlot w1
          else selectSlot_loop h rest si w1
      end
  end.

Definition selectSlot (h : t) (w : world) : t * world * option error :=
  let '(w1, (slots, err)) :=
    called w (CGetSlotList true) (p11_GetSlotList (dev w) true) in
  match err with
  | Some e => (h, w1, Some (ErrListSlots e))
  | None =>
      let '(w2, (selectedSlot, err)) := selectSlot_loop h slots 0 w1 in
      match err with
      | Some e => (h, w2, Some e)
      | None =>
          if decide (selectedSlot = 0)
          then (h, w2, Some (ErrSlotNotFound (Label (config h))))
          else (with_slot h selectedSlot, w2, None)
      end
  end.

(** The closure [isSupported] of [checkMechanismSupport]. *)
Fixpoint isSupported (h : t) (supportedMechanisms : list Z)
    (mechanism : Z) (mechanismName : string) : option error :=
  match supportedMechanisms with
  | [] => Some (ErrNotSupported mechanism mechanismName (slot h))
  | m :: rest =>
      if decide (m = mechanism) then None
      else isSupported h rest mechanism mechanismName
  end.

Definition checkMechanismSupport (h : t) (w : world)
  : world * option error :=
  let '(w1, (supportedMechanisms, err)) :=
    called w (CGetMechanismList (slot h))
      (p11_GetMechanismList (dev w) (slot h)) in
  match err with
  | Some e => (w1, Some (ErrMechanismList e))
  | None =>
      match isSupported h supportedMechanisms CKM_SHA256_HMAC
              "CKM_SHA256_HMAC" with
      | Some e => (w1, Some e)
      | None =>
          match isSupported h supportedMechanisms CKM_SHA512_HMAC
                  "CKM_SHA512_HMAC" with
          | Some e => (w1, Some e)
          | None => (w1, None)
          end
      end
  end.

(** [closeSession] and [logoutSession] log an error and go on. *)
Definition closeSession (w : world) (session : Z) : world :=
  (called w (CCloseSession session) (p11_CloseSession (dev w) session)).1.

Definition logoutSession (w : world) (session : Z) : world :=
  (called w (CLogout session) (p11_Logout (dev w) session)).1.

(** [hsm.inSession].  [C] is what the callback captures and assigns to
    (fields of [h], results of the caller).  The deferred calls run when
    the function returns, the last deferred first. *)
Definition inSession {C : Type} (h : t) (finishAfterUse : bool)
    (callback : Z -> C -> world -> C * world * option error)
    (c : C) (w : world) : C * world * (Z * option error) :=
  let '(w1, (session, err)) :=
    called w (COpenSession (slot h) (Z.lor CKF_SERIAL_SESSION CKF_RW_SESSION))
      (p11_OpenSession (dev w) (slot h)
         (Z.lor CKF_SERIAL_SESSION CKF_RW_SESSION)) in
  match err with
  | Some e => (c, w1, (0, Some (ErrOpenSession e)))
  | None =>
      let '(w2, err) :=
        called w1 (CLogin session CKU_USER (UserPin (config h)))
          (p11_Login (dev w1) session CKU_USER (UserPin (config h))) in
      let refused :=
        match err with
        | Some e =>
            if decide (p11_Error e
                       ≠ str "pkcs11: 0x100: CKR_USER_ALREADY_LOGGED_IN")
            then Some e else None
        | None => None
        end in
      match refused with
      | Some e =>
          let w3 := if finishAfterUse then closeSession w2 session else w2 in
          (c, w3, (0, Some (ErrLogin e)))
      | None =>
          let '(c', w3, cerr) := callback session c w2 in
          let w4 := if finishAfterUse then logoutSession w3 session else w3 in
          let w5 := if finishAfterUse then closeSession w4 session else w4 in
          (c', w5, (session, cerr))
      end
  end.

(** [hsm.findAndSetKey]; the callback assigns to [h.key] and to
    [found]. *)
Definition findAndSetKey (h : t) (w : world)
  : t * world * (bool * option error) :=
  let callback := fun (session : Z) (c : t * bool) (w : world) =>
    let template :=
      [NewAttribute "CKA_LABEL" (AString (RootKeyLabel (config h)))] in
    let '(w1, err) :=
      called w (CFindObjectsInit session template)
        (p11_FindObjectsInit (dev w) session template) in
    match err with
    | Some e => (c, w1, Some (ErrFindInit e))
    | None =>
        let '(w2, (objHandles, err)) :=
          called w1 (CFindObjects session 1)
            (p11_FindObjects (dev w1) session 1) in
        match err with
        | Some e => (c, w2, Some (ErrFindObjects e))
        | None =>
            let '(w3, err) :=
              called w2 (CFindObjectsFinal session)
                (p11_FindObjectsFinal (dev w2) session) in
            match err with
            | Some e => (c, w3, Some (ErrFindFinal e))
            | None =>
                match objHandles with
                | [] => (c, w3, None)
                | [handle] => ((with_key c.1 handle, true), w3, None)
                | _ =>
                    (c, w3,
                     Some (ErrObjectHandles (Z.of_nat (length objHandles))))
                end
            end
        end
    end in
  let '((h', found), w', (session, err)) :=
    inSession h false callback (h, false) w in
  let h'' := with_keySession h' session in
  match err with
  | Some e => (h'', w', (false, Some e))
  | None => (h'', w', (found, None))
  end.

Definition generateKey (h : t) (w : world) : t * world * option error :=
  let callback := fun (session : Z) (c : t) (w : world) =>
    let template :=
      [NewAttribute "CKA_ID" (AString (RootKeyID (config h)));
       NewAttribute "CKA_LABEL" (AString (RootKeyLabel (config h)));
       NewAttribute "CKA_CLASS" (AConst "CKO_SECRET_KEY");
       NewAttribute "CKA_KEY_TYPE" (AConst "CKK_GENERIC_SECRET");
       NewAttribute "CKA_TOKEN" (ABool true);
       NewAttribute "CKA_SENSITIVE" (ABool true);
       NewAttribute "CKA_EXTRACTABLE" (ABool false);
       NewAttribute "CKA_ENCRYPT" (ABool false);
       NewAttribute "CKA_DECRYPT" (ABool false);
       NewAttribute "CKA_WRAP" (ABool false);
       NewAttribute "CKA_UNWRAP" (ABool false);
       NewAttribute "CKA_SIGN" (ABool true);
       NewAttribute "CKA_VERIFY" (ABool false);
       NewAttribute "CKA_VALUE_LEN" (AUint 64)] in
    let '(w1, (obj, err)) :=
      called w (CGenerateKey session [CKM_GENERIC_SECRET_KEY_GEN] template)
        (p11_GenerateKey (dev w) session [CKM_GENERIC_SECRET_KEY_GEN]
           template) in
    match err with
    | Some e => (c, w1, Some (ErrGenerateKey e))
    | None => (with_key c obj, w1, None)
    end in
  let '(h', w', (session, err)) := inSession h false callback h w in
  (with_keySession h' session, w', err).

(** [hsm.kdf]; the callback assigns to the result [key]. *)
Definition kdf (h : t) (keyRing : bytes) (hsmMechanism : Z) (keyLen : Z)
    (w : world) : world * (bytes * option error) :=
  let callback := fun (session : Z) (c : bytes) (w : world) =>
    let '(w1, err) :=
      called w (CSignInit session [hsmMechanism] (key h))
        (p11_SignInit (dev w) session [hsmMechanism] (key h)) in
    match err with
    | Some e => (c, w1, Some (ErrSignInit e))
    | None =>
        let '(w2, (mac, err)) :=
          called w1 (CSign session keyRing)
            (p11_Sign (dev w1) session keyRing) in
        match err with
        | Some e => (c, w2, Some (ErrSign e))
        | None =>
            if decide (Z.of_nat (length mac) ≠ keyLen)
            then (c, w2,
                  Some (ErrMacLength (Z.of_nat (length mac)) keyLen))
            else (mac, w2, None)
        end
    end in
  let '(key, w', (_, err)) := inSession h true callback [] w in
  match err with
  | Some e => (w', ([], Some e))
  | None => (w', (key, None))
  end.

Definition KDF32 (h : t) (keyRing : bytes) (w : world)
  : world * (bytes * option error) :=
  kdf h keyRing CKM_SHA256_HMAC 32 w.

Definition KDF64 (h : t) (keyRing : bytes) (w : world)
  : world * (bytes * option error) :=
  kdf h keyRing CKM_SHA512_HMAC 64 w.

Definition Close (h : t) (w : world) : world * option error :=
  let w1 := logoutSession w (keySession h) in
  let w2 := closeSession w1 (keySession h) in
  let '(w3, err) := called w2 CFinalize (p11_Finalize (dev w2)) in
  let w4 := {| dev := p11_Destroy (dev w3);
               calls := calls w3 ++ [CDestroy] |} in
  (w4, ErrP11 <$> err).

(** [New]: the pool and the world of its module; [None] is the nil pool
    that is returned with an error.  ([initCtx] returns no error only
    with a context.) *)
Definition New (config : Config)
  : option t * option world * option error :=
  let h := {| config := config; slot := 0; keySession := 0; key := 0 |} in
  match initCtx h with
  | (w, Some e) => (None, w, Some e)
  | (None, None) => (None, None, Some ErrNewLink)
  | (Some w, None) =>
      let '(h1, w1, err) := selectSlot h w in
      match err with
      | Some e => (None, Some w1, Some e)
      | None =>
          let '(w2, err) := checkMechanismSupport h1 w1 in
          match err with
          | Some e => (None, Some w2, Some e)
          | None =>
              let '(h3, w3, (found, err)) := findAndSetKey h1 w2 in
              match err with
              | Some e => (None, Some w3, Some e)
              | None =>
                  if found then (Some h3, Some w3, None)
                  else
                    let w4 := logoutSession w3 (keySession h3) in
                    let w5 := closeSession w4 (keySession h3) in
                    let '(h6, w6, err) := generateKey h3 w5 in
                    match err with
                    | Some e => (None, Some w6, Some e)
                    | None => (Some h6, Some w6, None)
                    end
              end
          end
      end
  end.
End hsm.
End hsm.


(* ================================================================== *)
(** * Vocabulary of the statements *)
(* ================================================================== *)

(** An alphabet of 64 characters that [decodeMap] inverts. *)
Definition alphabet_ok (enc : base64.Encoding) : Prop :=
  forall i, 0 <= i < 64 ->
    base64.decodeMap enc (base64.encode_at enc i) = i.

(** A character of the alphabet of [enc]. *)
Definition in_alphabet (enc : base64.Encoding) (c : byte) : Prop :=
  base64.decodeMap enc c <> 255.

(** An alphabet without the two characters that the decoder skips. *)
Definition newlines_out (enc : base64.Encoding) : Prop :=
  forall c, base64.is_newline c = true -> base64.decodeMap enc c = 255.

(** The text that the decoder reads: the input without ['\n'] and
    ['\r']. *)
Definition strip_newlines (s : bytes) : bytes :=
  filter (fun c => base64.is_newline c = false) s.

(** Unpadded base64 as the decoder of Go takes it: once line breaks are
    dropped, every character is of the alphabet and the length is not
    [1] modulo [4] (a lone character carries fewer than eight bits). *)
Definition valid_raw (enc : base64.Encoding) (s : bytes) : Prop :=
  Forall (in_alphabet enc) (strip_newlines s)
  /\ (length (strip_newlines s) mod 4 <> 1)%nat.

(** Unpadded base64 as RFC 4648 writes it: characters of the alphabet and
    nothing else, and a length that is not [1] modulo [4]. *)
Definition strict_raw (enc : base64.Encoding) (s : bytes) : Prop :=
  Forall (in_alphabet enc) s /\ (length s mod 4 <> 1)%nat.

(** The segments of a string between its separators, all of them. *)
Fixpoint segments (sep : byte) (s : bytes) : list bytes :=
  match s with
  | [] => [[]]
  | x :: s' =>
      if decide (x = sep) then [] :: segments sep s'
      else match segments sep s' with
           | h :: t => (x :: h) :: t
           | [] => [[x]]
           end
  end.

(** [Decode] refuses every string of three segments whose data is not
    unpadded URL-safe base64 in the sense of [strict_raw]. *)
Definition Decode_rejects_invalid_data : Prop :=
  forall s version typePrefix data,
    segments "."%byte s = [version; typePrefix; data] ->
    ¬ strict_raw base64.RawURLEncoding data ->
    is_Err (Decode s).

(** Stand-ins for the cryptographic libraries, to run the definitions on
    concrete inputs: digests and tags are the first bytes of their padded
    input, the key stream is all zeros.  They satisfy [CryptoLaws] and
    nothing more. *)
Definition fill (n : nat) (input : bytes) : bytes :=
  take n (input ++ repeat x00 n).

Definition sample_crypto : CryptoLib :=
  {| blake2b_256 := fun key msg => fill 32 (msg ++ key);
     blake2b_512 := fun key msg => fill 64 (msg ++ key);
     argon2_IDKey := fun password salt _ _ _ keyLen =>
                       fill (Z.to_nat keyLen) (password ++ salt);
     xchacha20 := fun _ _ text => text;
     poly1305_tag := fun key nonce ad ct => fill 16 (ct ++ ad ++ key);
     ed25519_NewKeyFromSeed := fun seed => seed ++ seed;
     ed25519_Public := fun priv => drop 32 priv;
     ed25519_Sign := fun priv msg => fill 64 (msg ++ priv);
     ed25519_Verify := fun pub msg sig =>
                         bool_decide (sig = fill 64 (msg ++ pub ++ pub));
     hmac := fun a secret msg => fill (hashSize a) (msg ++ secret) |}.

(** Zeroization on [Close], as the specification asks for it: the buffer
    that the pool retained holds only zeros afterwards. *)
Definition zeroed_on_Close (d : dvxWrapper.t) (m : memory) : Prop :=
  forall a root,
    dvxWrapper.rootKey d = Some a -> m !! a = Some root ->
    (dvxWrapper.Close d m).1.2 !! a = Some (repeat x00 (length root)).

(** ** The reference computation of RFC 4226, in the words of the
    specification *)

(** The name of a hash function, as [TOTP.Algorithm] spells it. *)
Definition hashName (a : hashAlg) : bytes :=
  match a with
  | SHA1 => str "SHA1"
  | SHA256 => str "SHA256"
  | SHA512 => str "SHA512"
  end.

(** The counter on 8 bytes, big-endian: byte [i] is the digit of weight
    [256 ^ (7 - i)] of the counter taken as an unsigned 64-bit number. *)
Definition big_endian_8 (counter : Z) : bytes :=
  map (fun i => to_byte ((counter mod 2 ^ 64) / 256 ^ (7 - i) mod 256))
      [0; 1; 2; 3; 4; 5; 6; 7].

(** The decimal representation of [n] on exactly [d] characters, padded on
    the left with ['0']. *)
Fixpoint fixed_decimal (d : nat) (n : Z) : bytes :=
  match d with
  | O => []
  | S d' => fixed_decimal d' (n / 10) ++ [to_byte (48 + n mod 10)]
  end.

(** [h = HMAC(secret, counter)]; [offset = last byte & 0x0F]; [v] is the
    big-endian number of the 4 bytes at [offset], the high bit of the
    first one cleared; the code is [v mod 10^digits] on [digits]
    characters. *)
Definition rfc4226_reference `{CryptoLib} (a : hashAlg) (secret : bytes)
    (digits : Z) (counter : Z) : option bytes :=
  let h := hmac a secret (big_endian_8 counter) in
  last_byte ← list.last h;
  let offset := Z.to_nat (u8 last_byte mod 16) in
  match drop offset h with
  | b0 :: b1 :: b2 :: b3 :: _ =>
      let v := (u8 b0 mod 128) * 2 ^ 24 + u8 b1 * 2 ^ 16
               + u8 b2 * 2 ^ 8 + u8 b3 in
      Some (fixed_decimal (Z.to_nat digits) (v mod 10 ^ digits))
  | _ => None
  end.

(** ** The cache *)

(** A stand-in for the ARC cache and the hash, to run the cache on
    concrete inputs: the newest [capacity] entries, the hash by length. *)
Definition sample_cache (V : Type) : CacheLib V :=
  {| arc := Z * list (bytes * V);
     arc_Build := fun capacity => (capacity, []);
     arc_Get := fun a k =>
       (a, match list_find (fun kv => kv.1 = k) a.2 with
           | Some (_, (_, v)) => Hit v
           | None => KeyNotFound
           end);
     arc_Set := fun a k v =>
       ((a.1, take (Z.to_nat a.1)
                ((k, v) :: filter (fun kv => kv.1 ≠ k) a.2)), None);
     arc_Remove := fun a k =>
       ((a.1, filter (fun kv => kv.1 ≠ k) a.2),
        bool_decide (k ∈ a.2.*1));
     arc_Purge := fun a => (a.1, []);
     maphash_Sum64 := fun seed k => (seed + Z.of_nat (length k)) mod 2 ^ 64 |}.

(** The loader of the package's test: two known keys, an error for every
    other key.  Its world counts the calls. *)
Definition sample_loader : @tearc.LoaderFunc bytes unit nat :=
  fun key _ calls =>
    (S calls,
     if decide (key = str "key1")
     then (str "private key 1", 1 * tearc.Second, None)
     else if decide (key = str "key2")
     then (str "private key 2", 1 * tearc.Second, None)
     else ([], 0, Some (ErrExternal "unknown key"))).

(** The constraints on the configuration, as the specification lists
    them: [size % shards == 0], [minTick < maxTick], all durations
    positive. *)
Definition constraints (size shards : Z) (config : tearc.BucketConfig)
  : Prop :=
  Z.rem size shards = 0
  /\ tearc.MinTick config < tearc.MaxTick config
  /\ 0 < tearc.MinTick config /\ 0 < tearc.MaxTick config.

(** [NewCache] decides the constraints: an error when they are violated,
    a cache when they hold. *)
Definition NewCache_decides_constraints (size shards : Z)
    (config : tearc.BucketConfig) : Prop :=
  let r := @tearc.NewCache bytes unit nat (sample_cache bytes) size shards
             (Some sample_loader) None (Some config) 0 in
  (¬ constraints size shards config -> is_Err r)
  /\ (constraints size shards config -> is_Ok r).

(** A cache as [NewCache] builds it and [Get] keeps it: as many buckets
    as shards. *)
Definition well_formed {V I W : Type} `{CacheLib V}
    (t : @tearc.tearc V I W _) : Prop :=
  0 < tearc.shards t
  /\ length (tearc.buckets t) = Z.to_nat (tearc.shards t).

(** The cache of the package's test ([size = 1000], [shards = 4], ticks of
    500 ms and 3 s), and the same cache after [Get("key1")] at time 0. *)
Definition sample_tearc : @tearc.tearc bytes unit nat (sample_cache bytes) :=
  match tearc.NewCache 1000 4 (Some sample_loader) None
          (Some {| tearc.MinTick := 500 * tearc.Millisecond;
                   tearc.MaxTick := 3 * tearc.Second |}) 0 with
  | Ok t => t
  | _ => {| tearc.size := 0; tearc.shards := 0; tearc.jumpSeed := 0;
            tearc.buckets := [] |}
  end.

Definition sample_tearc_key1
  : @tearc.tearc bytes unit nat (sample_cache bytes) :=
  (tearc.Get sample_tearc (str "key1") tt 0%nat 0).1.1.1.

(** ** Ed25519 *)

(** What the code relies on from [crypto/ed25519]: the sizes of keys and
    signatures, and that a signature verifies under the public key of the
    key that made it. *)
Class Ed25519Laws `{CryptoLib} : Prop := {
  NewKeyFromSeed_length :
    forall seed, length seed = 32%nat ->
      length (ed25519_NewKeyFromSeed seed) = 64%nat;
  Public_length :
    forall priv, length priv = 64%nat ->
      length (ed25519_Public priv) = 32%nat;
  Sign_length :
    forall priv msg, length priv = 64%nat ->
      length (ed25519_Sign priv msg) = 64%nat;
  Verify_Sign :
    forall seed msg, length seed = 32%nat ->
      let priv := ed25519_NewKeyFromSeed seed in
      ed25519_Verify (ed25519_Public priv) msg (ed25519_Sign priv msg) = true
}.

(** A software pool over a root key of 64 bytes ['k'], and the protocol
    that uses it for ["dv1"]. *)
Definition sample_pool : KeyPool :=
  dvxWrapper.pool
    (WrapDVXAsKeyPool (@DV1.primitive sample_crypto) (Some 0%nat))
    {[ 0%nat := repeat "k"%byte 64 ]}.

Definition sample_protocol : Protocol.t :=
  Protocol.NewProtocol {[ Version := sample_pool ]}.


(** ** The eviction queue as a heap *)

(** The queue and the items agree: no item is queued twice, and the item
    at position [i] holds [i] in its [index]. *)
Definition linked (st : tearc.cells) (q : list nat) : Prop :=
  NoDup q
  /\ forall (i a : nat), q !! i = Some a ->
       exists it, st !! a = Some it /\ tearc.index it = Z.of_nat i.

(** The eviction time of the item at a position of the queue. *)
Definition time_at (st : tearc.cells) (q : list nat) (i : Z) : Z :=
  default 0 (a ← q !! Z.to_nat i; tearc.evictionTime <$> st !! a).

(** Position [c] is a child of position [p] in the tree that
    container/heap lays over the slice. *)
Definition child (p c : Z) : Prop :=
  0 <= p /\ (c = 2 * p + 1 \/ c = 2 * p + 2).

(** The order of the heap on the first [n] positions: no item is due
    before its parent. *)
Definition heap_le (f : Z -> Z) (n : Z) : Prop :=
  forall p c, child p c -> c < n -> f p <= f c.

Definition heap_ordered (st : tearc.cells) (q : list nat) : Prop :=
  heap_le (time_at st q) (tearc.Len q).

(** The order with one position out of place: the invariant of the loop of
    [up], whose item at [j] may be due before its parent, and of the loop
    of [down], whose item at [i] may be due after its children. *)
Definition up_inv (f : Z -> Z) (n j : Z) : Prop :=
  (forall p c, child p c -> c < n -> c ≠ j -> f p <= f c)
  /\ (forall g c, child g j -> child j c -> c < n -> f g <= f c).

Definition down_inv (f : Z -> Z) (n i : Z) : Prop :=
  (forall p c, child p c -> c < n -> c ≠ i -> p ≠ i -> f p <= f c)
  /\ (forall g c, child g i -> child i c -> c < n -> f g <= f c).

(** The items keep their keys and their eviction times. *)
Definition same_items (st st' : tearc.cells) : Prop :=
  forall a,
    (fun it => (tearc.key it, tearc.evictionTime it)) <$> st' !! a
    = (fun it => (tearc.key it, tearc.evictionTime it)) <$> st !! a.

(** A heap operation that only moves items: the queue afterwards is
    linked and holds the same items. *)
Definition reorders (st : tearc.cells) (q : list nat)
    (st' : tearc.cells) (q' : list nat) : Prop :=
  linked st' q' /\ q' ≡ₚ q /\ same_items st st'.

(** The eviction time and the key of an item. *)
Definition deadline (st : tearc.cells) (a : nat) : option Z :=
  tearc.evictionTime <$> st !! a.

Definition key_of (st : tearc.cells) (a : nat) : option bytes :=
  tearc.key <$> st !! a.

(** The eviction state of a bucket as its operations keep it: the queue
    is a linked heap, the items allocated so far are those below
    [allocs], and every entry of the pointer map points to a queued item
    of its key. *)
Definition bucket_inv {V I W : Type} `{CacheLib V}
    (b : @tearc.bucket V I W _) : Prop :=
  linked (tearc.store b) (tearc.eq b)
  /\ heap_ordered (tearc.store b) (tearc.eq b)
  /\ (forall a, is_Some (tearc.store b !! a) -> (a < tearc.allocs b)%nat)
  /\ (forall k a, tearc.eqPtrMap b !! k = Some a ->
        a ∈ tearc.eq b /\ key_of (tearc.store b) a = Some k).

Definition cache_inv {V I W : Type} `{CacheLib V}
    (t : @tearc.tearc V I W _) : Prop :=
  well_formed t /\ Forall bucket_inv (tearc.buckets t).

(** A bucket as [NewCache] builds it for the cache of the test, and the
    same bucket after ["key1"] was loaded at time 0 and ["key2"] two
    seconds later (the loader asks for one second each). *)
Definition sample_bucket0
  : @tearc.bucket bytes unit nat (sample_cache bytes) :=
  {| tearc.id := 0;
     tearc.loader := sample_loader;
     tearc.evicted := fun _ w => w;
     tearc.config := {| tearc.MinTick := 500 * tearc.Millisecond;
                        tearc.MaxTick := 3 * tearc.Second |};
     tearc.b_arc := arc_Build 250;
     tearc.store := ∅;
     tearc.allocs := 0;
     tearc.eq := [];
     tearc.eqPtrMap := ∅ |}.

Definition sample_bucket
  : @tearc.bucket bytes unit nat (sample_cache bytes) :=
  let b1 := (tearc.bucket_Get sample_bucket0 (str "key1") tt 0%nat 0).1.1.1 in
  (tearc.bucket_Get b1 (str "key2") tt 1%nat (2 * tearc.Second)).1.1.1.

(** ** The caching key pool *)

(** A caching pool as [New] builds it and the derivations keep it: the
    cache is in order, and the loader of every bucket is [get] over the
    pool behind. *)
Definition wrapper_inv {S : Type} `{CacheLib (option bytes)}
    (w : @dvx_tearc.wrapper S _) : Prop :=
  cache_inv (dvx_tearc.cache w)
  /\ Forall (fun b => tearc.loader b
                      = dvx_tearc.get (dvx_tearc.config w) (dvx_tearc.src w))
            (tearc.buckets (dvx_tearc.cache w)).

(** What a derivation does when the lookup misses, for one of the two
    sizes: [derive] is the method of the caching pool, [source] the method
    of the pool behind, [b] the bucket of the keyRing.  An error of the
    source comes back wrapped, and the pool is as before; a key of the
    source is returned and set in the ARC cache of the bucket, with an
    item that is due [AliveTime] after the load. *)
Definition loads_through {S : Type} `{CacheLib (option bytes)}
    (w : @dvx_tearc.wrapper S _)
    (derive : @dvx_tearc.wrapper S _ -> bytes -> S -> Z ->
              @dvx_tearc.wrapper S _ * S * result bytes
              * option tearc.slideGo)
    (source : bytes -> S -> S * (bytes * option error))
    (keyRing : bytes) (s : S) (now : Z)
    (b : @tearc.bucket (option bytes) Z S _) : Prop :=
  (forall s' key e,
     source keyRing s = (s', (key, Some e)) ->
     derive w keyRing s now = (w, s', Err (ErrLoadWrap e), None))
  /\ (forall s' key a',
        source keyRing s = (s', (key, None)) ->
        arc_Set (tearc.b_arc b) keyRing (Some key) = (a', None) ->
        exists w' b',
          derive w keyRing s now = (w', s', Ok key, None)
          /\ wrapper_inv w'
          /\ tearc.buckets (dvx_tearc.cache w')
               !! Z.to_nat (tearc.jump (dvx_tearc.cache w) keyRing)
             = Some b'
          /\ tearc.b_arc b' = a'
          /\ tearc.eqPtrMap b' !! keyRing = Some (tearc.allocs b)
          /\ deadline (tearc.store b') (tearc.allocs b)
             = Some (now + dvx_tearc.AliveTime (dvx_tearc.config w))).

(** A pool that counts its calls, the caching pool over it with the cache
    of the test and keys kept for ten seconds, and that pool after
    [KDF32("ring")] at time 0. *)
Definition sample_source : dvx_tearc.KeyPool nat :=
  {| dvx_tearc.KDF32 := fun keyRing calls =>
       (S calls, (fill 32 keyRing, None));
     dvx_tearc.KDF64 := fun keyRing calls =>
       (S calls, (fill 64 keyRing, None));
     dvx_tearc.Close := fun calls => (calls, None) |}.

Definition sample_wrapper0
  : @dvx_tearc.wrapper nat (sample_cache (option bytes)) :=
  let config :=
    {| dvx_tearc.Size := 1000;
       dvx_tearc.Shards := 4;
       dvx_tearc.BucketMinTick := 500 * tearc.Millisecond;
       dvx_tearc.BucketMaxTick := 3 * tearc.Second;
       dvx_tearc.AliveTime := 10 * tearc.Second |} in
  match dvx_tearc.New config sample_source 0 with
  | Ok w => w
  | _ => {| dvx_tearc.config := config;
            dvx_tearc.src := sample_source;
            dvx_tearc.cache :=
              {| tearc.size := 0; tearc.shards := 0; tearc.jumpSeed := 0;
                 tearc.buckets := [] |} |}
  end.

Definition sample_wrapper
  : @dvx_tearc.wrapper nat (sample_cache (option bytes)) :=
  (dvx_tearc.wrapper_KDF32 sample_wrapper0 (str "ring") 0%nat 0).1.1.1.

(** ** The PKCS#11 module *)

(** What the package relies on from the module in [selectSlot]:
    [GetTokenInfo] is a query, it leaves the module as it is. *)
Class Pkcs11Laws `{Pkcs11Lib} : Prop := {
  GetTokenInfo_query : forall d si, (p11_GetTokenInfo d si).1 = d
}.


(** A module with one token per slot, labelled by a table, that supports
    the mechanisms of a list, opens sessions with increasing numbers and
    signs with the message itself, cut or padded to 32 bytes.  Its state
    is the number of the last session; its errors are the codes. *)
Definition sample_pkcs11 (labels : list (Z * bytes)) (mechanisms : list Z)
  : Pkcs11Lib :=
  {| ctx := Z;
     p11error := Z;
     p11_Error := fun e =>
       if decide (e = 256)
       then str "pkcs11: 0x100: CKR_USER_ALREADY_LOGGED_IN"
       else str "pkcs11: error";
     CKM_SHA256_HMAC := 593;
     CKM_SHA512_HMAC := 625;
     CKM_GENERIC_SECRET_KEY_GEN := 848;
     CKF_SERIAL_SESSION := 4;
     CKF_RW_SESSION := 2;
     CKU_USER := 1;
     p11_New := fun _ => Some 0;
     p11_Initialize := fun d => (d, None);
     p11_GetSlotList := fun d _ => (d, (labels.*1, None));
     p11_GetTokenInfo := fun d si =>
       (d, match list_find (fun p => p.1 = si) labels with
           | Some (_, (_, l)) => ({| ti_Label := l |}, None)
           | None => ({| ti_Label := [] |}, Some 3)
           end);
     p11_GetMechanismList := fun d _ => (d, (mechanisms, None));
     p11_OpenSession := fun d _ _ => (d + 1, (d + 1, None));
     p11_CloseSession := fun d _ => (d, None);
     p11_Login := fun d _ _ _ => (d, None);
     p11_Logout := fun d _ => (d, None);
     p11_FindObjectsInit := fun d _ _ => (d, None);
     p11_FindObjects := fun d _ _ => (d, ([], None));
     p11_FindObjectsFinal := fun d _ => (d, None);
     p11_GenerateKey := fun d _ _ _ => (d, (7, None));
     p11_SignInit := fun d _ _ _ => (d, None);
     p11_Sign := fun d _ message => (d, (fill 32 message, None));
     p11_Finalize := fun d => (d, None);
     p11_Destroy := fun d => d |}.

(** A pool for the token ["dvx"], as [New] starts with it. *)
Definition sample_hsm : hsm.t :=
  {| hsm.config := {| hsm.Module_ := str "/usr/lib/softhsm/libsofthsm2.so";
                      hsm.Label := str "dvx";
                      hsm.UserPin := str "1234";
                      hsm.RootKeyID := str "root";
                      hsm.RootKeyLabel := str "root" |};
     hsm.slot := 0;
     hsm.keySession := 0;
     hsm.key := 0 |}.


(* ****************************************************************** *)
(** * Part II: properties *)
(* ****************************************************************** *)

(* ================================================================== *)
(** ** Bytes and bit arithmetic *)
(* ================================================================== *)

Lemma u8_range (b : byte) : 0 <= u8 b < 256.
Proof.
  unfold u8. pose proof (Byte.to_N_bounded b). lia.
Qed.

Lemma to_byte_u8 (b : byte) : to_byte (u8 b) = b.
Proof.
  unfold to_byte. pose proof (u8_range b) as Hb.
  rewrite Z.mod_small by lia. unfold u8.
  rewrite N2Z.id, Byte.of_to_N. reflexivity.
Qed.

Lemma u8_to_byte (z : Z) : u8 (to_byte z) = z mod 256.
Proof.
  unfold to_byte, u8.
  pose proof (Z.mod_pos_bound z 256 ltac:(lia)) as Hz.
  destruct (Byte.of_N (Z.to_N (z mod 256))) as [b|] eqn:E.
  - apply Byte.to_of_N in E. simpl. rewrite E. lia.
  - apply Byte.of_N_None_iff in E. lia.
Qed.

Lemma u8_inj (a b : byte) : u8 a = u8 b -> a = b.
Proof.
  intros E. rewrite <- (to_byte_u8 a), <- (to_byte_u8 b). now rewrite E.
Qed.

(** A shifted value and a value below the shift have no bit in common:
    their [lor] is their sum. *)
Lemma lor_shiftl_add (a b k : Z) :
  0 <= k -> 0 <= b < 2 ^ k -> Z.lor (Z.shiftl a k) b = a * 2 ^ k + b.
Proof.
  intros Hk Hb.
  rewrite <- Z.shiftl_mul_pow2 by lia.
  rewrite <- Z.add_lor_land.
  enough (Z.land (Z.shiftl a k) b = 0) as -> by lia.
  apply Z.bits_inj'. intros n Hn.
  rewrite Z.land_spec, Z.bits_0.
  destruct (Z.lt_ge_cases n k) as [Hlt|Hge].
  - rewrite Z.shiftl_spec_low by lia. reflexivity.
  - destruct (Z.eq_dec b 0) as [->|Hnz].
    + rewrite Z.bits_0. apply andb_false_r.
    + rewrite (Z.bits_above_log2 b n); [apply andb_false_r | lia |].
      apply Z.log2_lt_pow2; [lia|].
      apply Z.lt_le_trans with (2 ^ k); [lia|].
      apply Z.pow_le_mono_r; lia.
Qed.

Lemma land_63 (a : Z) : Z.land a 63 = a mod 64.
Proof. change 63 with (Z.ones 6). rewrite Z.land_ones by lia. reflexivity. Qed.

Lemma land_15 (a : Z) : Z.land a 15 = a mod 16.
Proof. change 15 with (Z.ones 4). rewrite Z.land_ones by lia. reflexivity. Qed.

Lemma land_127 (a : Z) : Z.land a 127 = a mod 128.
Proof. change 127 with (Z.ones 7). rewrite Z.land_ones by lia. reflexivity. Qed.

Lemma sextet_div (val sh : Z) :
  0 <= sh -> base64.sextet val sh = (val / 2 ^ sh) mod 64.
Proof.
  intros Hsh. unfold base64.sextet.
  rewrite land_63, Z.shiftr_div_pow2 by lia. reflexivity.
Qed.

Lemma sextet_range (val sh : Z) : 0 <= sh -> 0 <= base64.sextet val sh < 64.
Proof.
  intros Hsh. rewrite sextet_div by lia. apply Z.mod_pos_bound. lia.
Qed.

(** Three bytes as one 24-bit value. *)
Lemma val3_add (b0 b1 b2 : byte) :
  Z.lor (Z.lor (Z.shiftl (u8 b0) 16) (Z.shiftl (u8 b1) 8)) (u8 b2)
  = u8 b0 * 65536 + u8 b1 * 256 + u8 b2.
Proof.
  pose proof (u8_range b0). pose proof (u8_range b1).
  pose proof (u8_range b2).
  rewrite (Z.shiftl_mul_pow2 (u8 b1)) by lia.
  rewrite (lor_shiftl_add (u8 b0) _ 16) by lia.
  replace (u8 b0 * 2 ^ 16 + u8 b1 * 2 ^ 8)
    with (Z.shiftl (u8 b0 * 256 + u8 b1) 8)
    by (rewrite Z.shiftl_mul_pow2 by lia; lia).
  rewrite lor_shiftl_add by lia. lia.
Qed.

(** Four sextets as one 24-bit value. *)
Lemma assemble_add (d0 d1 d2 d3 : Z) :
  0 <= d1 < 64 -> 0 <= d2 < 64 -> 0 <= d3 < 64 ->
  base64.assemble d0 d1 d2 d3 = d0 * 262144 + d1 * 4096 + d2 * 64 + d3.
Proof.
  intros H1 H2 H3. unfold base64.assemble.
  rewrite (Z.shiftl_mul_pow2 d1), (Z.shiftl_mul_pow2 d2) by lia.
  rewrite (lor_shiftl_add d0 _ 18) by lia.
  replace (d0 * 2 ^ 18 + d1 * 2 ^ 12)
    with (Z.shiftl (d0 * 64 + d1) 12)
    by (rewrite Z.shiftl_mul_pow2 by lia; lia).
  rewrite (lor_shiftl_add _ _ 12) by lia.
  replace ((d0 * 64 + d1) * 2 ^ 12 + d2 * 2 ^ 6)
    with (Z.shiftl ((d0 * 64 + d1) * 64 + d2) 6)
    by (rewrite Z.shiftl_mul_pow2 by lia; lia).
  rewrite lor_shiftl_add by lia. lia.
Qed.

Lemma to_byte_eq (z : Z) (b : byte) : z mod 256 = u8 b -> to_byte z = b.
Proof.
  intros E. apply u8_inj. rewrite u8_to_byte. exact E.
Qed.

(* ================================================================== *)
(** ** encoding/base64: decoding inverts encoding *)
(* ================================================================== *)

Lemma list_ind3 {A} (P : list A -> Prop) :
  P [] -> (forall a, P [a]) -> (forall a b, P [a; b]) ->
  (forall a b c l, P l -> P (a :: b :: c :: l)) ->
  forall l, P l.
Proof.
  intros H0 H1 H2 H3.
  fix IH 1. intros [|a [|b [|c l]]].
  - exact H0.
  - apply H1.
  - apply H2.
  - apply H3, IH.
Qed.

Lemma RawStdEncoding_ok : alphabet_ok base64.RawStdEncoding.
Proof.
  intros i Hi. rewrite <- (Z2Nat.id i) by lia.
  assert (Z.to_nat i < 64)%nat as Hn by lia.
  generalize dependent (Z.to_nat i). clear. intros n Hn.
  do 64 (destruct n as [|n]; [reflexivity|]). lia.
Qed.

Lemma RawURLEncoding_ok : alphabet_ok base64.RawURLEncoding.
Proof.
  intros i Hi. rewrite <- (Z2Nat.id i) by lia.
  assert (Z.to_nat i < 64)%nat as Hn by lia.
  generalize dependent (Z.to_nat i). clear. intros n Hn.
  do 64 (destruct n as [|n]; [reflexivity|]). lia.
Qed.

Section Base64RoundTrip.
Variable enc : base64.Encoding.
Hypothesis Henc : alphabet_ok enc.

Lemma decodeMap_sextet (val sh : Z) :
  0 <= sh ->
  base64.decodeMap enc (base64.encode_at enc (base64.sextet val sh))
  = base64.sextet val sh.
Proof. intros Hsh. apply Henc, sextet_range, Hsh. Qed.

(** Reading one character of an encoded text. *)
Lemma decode_sextet (val sh : Z) (dbuf : list Z) (rest : bytes) :
  0 <= sh ->
  base64.decode enc dbuf
    (base64.encode_at enc (base64.sextet val sh) :: rest)
  = match dbuf with
    | [d0; d1; d2] =>
        q ← base64.quantum_bytes [d0; d1; d2; base64.sextet val sh];
        tl ← base64.decode enc [] rest;
        Some (q ++ tl)
    | _ => base64.decode enc (dbuf ++ [base64.sextet val sh]) rest
    end.
Proof.
  intros Hsh. cbn [base64.decode].
  rewrite decodeMap_sextet by lia.
  pose proof (sextet_range val sh Hsh).
  destruct (decide (base64.sextet val sh = 255)) as [E|_]; [lia|].
  reflexivity.
Qed.

Lemma quantum3 (b0 b1 b2 : byte) :
  let val := Z.lor (Z.lor (Z.shiftl (u8 b0) 16) (Z.shiftl (u8 b1) 8))
                   (u8 b2) in
  base64.quantum_bytes
    [base64.sextet val 18; base64.sextet val 12; base64.sextet val 6;
     base64.sextet val 0] = Some [b0; b1; b2].
Proof.
  intros val. subst val. rewrite val3_add.
  pose proof (u8_range b0). pose proof (u8_range b1).
  pose proof (u8_range b2).
  cbn [base64.quantum_bytes].
  rewrite assemble_add by (apply sextet_range; lia).
  rewrite !sextet_div, !Z.shiftr_div_pow2 by lia.
  change (2 ^ 18) with 262144. change (2 ^ 16) with 65536.
  change (2 ^ 12) with 4096. change (2 ^ 8) with 256.
  change (2 ^ 6) with 64. change (2 ^ 0) with 1.
  repeat f_equal; apply to_byte_eq; Z.div_mod_to_equations; lia.
Qed.

Lemma quantum2 (b0 b1 : byte) :
  let val := Z.lor (Z.shiftl (u8 b0) 16) (Z.shiftl (u8 b1) 8) in
  base64.quantum_bytes
    [base64.sextet val 18; base64.sextet val 12; base64.sextet val 6]
  = Some [b0; b1].
Proof.
  intros val. subst val.
  pose proof (u8_range b0). pose proof (u8_range b1).
  rewrite (Z.shiftl_mul_pow2 (u8 b1)), lor_shiftl_add by lia.
  cbn [base64.quantum_bytes].
  rewrite assemble_add by (first [apply sextet_range; lia | lia]).
  rewrite !sextet_div, !Z.shiftr_div_pow2 by lia.
  change (2 ^ 18) with 262144. change (2 ^ 16) with 65536.
  change (2 ^ 12) with 4096. change (2 ^ 8) with 256.
  change (2 ^ 6) with 64.
  repeat f_equal; apply to_byte_eq; Z.div_mod_to_equations; lia.
Qed.

Lemma quantum1 (b0 : byte) :
  let val := Z.shiftl (u8 b0) 16 in
  base64.quantum_bytes [base64.sextet val 18; base64.sextet val 12]
  = Some [b0].
Proof.
  intros val. subst val.
  pose proof (u8_range b0).
  rewrite Z.shiftl_mul_pow2 by lia.
  cbn [base64.quantum_bytes].
  rewrite assemble_add by (first [apply sextet_range; lia | lia]).
  rewrite !sextet_div, !Z.shiftr_div_pow2 by lia.
  change (2 ^ 18) with 262144. change (2 ^ 16) with 65536.
  change (2 ^ 12) with 4096.
  repeat f_equal; apply to_byte_eq; Z.div_mod_to_equations; lia.
Qed.

(** [DecodeString(EncodeToString(x))] gives [x] back, without error. *)
Lemma DecodeString_EncodeToString (x : bytes) :
  base64.DecodeString enc (base64.EncodeToString enc x) = Some x.
Proof.
  unfold base64.DecodeString.
  induction x as [|b0|b0 b1|b0 b1 b2 rest IH] using list_ind3.
  - reflexivity.
  - cbn [base64.EncodeToString].
    rewrite !decode_sextet by lia. cbn [app base64.decode].
    apply quantum1.
  - cbn [base64.EncodeToString].
    rewrite !decode_sextet by lia. cbn [app base64.decode].
    apply quantum2.
  - cbn [base64.EncodeToString app].
    rewrite !decode_sextet by lia. cbn [app].
    rewrite quantum3, IH. reflexivity.
Qed.
End Base64RoundTrip.

(* ================================================================== *)
(** ** encoding/base64: which inputs are decoded *)
(* ================================================================== *)

Section Base64Valid.
Variable enc : base64.Encoding.
Hypothesis Hnl : newlines_out enc.

Lemma quantum_bytes_4 (d0 d1 d2 d3 : Z) :
  exists q, base64.quantum_bytes [d0; d1; d2; d3] = Some q.
Proof. eexists. reflexivity. Qed.

(** A byte that is neither of the alphabet nor a line break makes the
    decoder fail, wherever it stands. *)
Lemma decode_bad_byte (c : byte) (src : bytes) :
  c ∈ src -> ¬ in_alphabet enc c -> base64.is_newline c = false ->
  forall dbuf, base64.decode enc dbuf src = None.
Proof.
  intros Hin Hbad Hnot. unfold in_alphabet in Hbad.
  induction src as [|x src IH]; intros dbuf.
  - inversion Hin.
  - cbn [base64.decode].
    destruct (decide (x = c)) as [->|Hne].
    + destruct (decide (base64.decodeMap enc c = 255)) as [_|E];
        [| exfalso; apply Hbad; exact E].
      rewrite Hnot. reflexivity.
    + assert (c ∈ src) as Hin' by (inversion Hin; subst; congruence).
      specialize (IH Hin').
      destruct (decide (base64.decodeMap enc x = 255)).
      * destruct (base64.is_newline x); [apply IH | reflexivity].
      * destruct dbuf as [|d0 [|d1 [|d2 [|d3 dbuf]]]]; try apply IH.
        rewrite (IH []). cbn. reflexivity.
Qed.

(** The decoder succeeds exactly on the valid texts; [dbuf] is the part of
    a quantum already read. *)
Lemma decode_Some_iff (src : bytes) :
  forall dbuf, (length dbuf < 4)%nat ->
    is_Some (base64.decode enc dbuf src)
    <-> Forall (in_alphabet enc) (strip_newlines src)
        /\ ((length dbuf + length (strip_newlines src)) mod 4 <> 1)%nat.
Proof.
  induction src as [|x src IH]; intros dbuf Hlen.
  - cbn [base64.decode strip_newlines filter length].
    rewrite Nat.add_0_r.
    destruct dbuf as [|d0 [|d1 [|d2 [|d3 dbuf]]]]; cbn in *; try lia.
    + split; [intros _; split; [constructor | lia] | intros _; eauto].
    + split; [intros [? ?]; discriminate | intros [_ ?]; lia].
    + split; [intros _; split; [constructor | lia] | intros _; eauto].
    + split; [intros _; split; [constructor | lia] | intros _; eauto].
  - cbn [base64.decode]. unfold strip_newlines in *.
    set (keep := fun c : byte => base64.is_newline c = false) in *.
    destruct (decide (base64.decodeMap enc x = 255)) as [E|E].
    + destruct (base64.is_newline x) eqn:Hx.
      * rewrite filter_cons_False by (unfold keep; rewrite Hx; discriminate).
        apply IH, Hlen.
      * rewrite filter_cons_True by exact Hx.
        split; [intros [? ?]; discriminate |].
        intros [HF _]. apply Forall_cons_iff in HF as [Hx' _].
        exfalso. apply Hx'. exact E.
    + assert (keep x) as Hx.
      { unfold keep. destruct (base64.is_newline x) eqn:Hx; [|reflexivity].
        exfalso. apply E, Hnl, Hx. }
      rewrite filter_cons_True by exact Hx.
      rewrite Forall_cons_iff. cbn [length].
      assert (in_alphabet enc x) as Hax by exact E.
      destruct dbuf as [|d0 [|d1 [|d2 [|d3 dbuf]]]]; cbn [length] in *;
        try lia.
      * rewrite IH by (cbn; lia). cbn [app length].
        replace (0 + S (length (filter keep src)))%nat
          with (1 + length (filter keep src))%nat by lia.
        tauto.
      * rewrite IH by (cbn; lia). cbn [app length].
        replace (1 + S (length (filter keep src)))%nat
          with (2 + length (filter keep src))%nat by lia.
        tauto.
      * rewrite IH by (cbn; lia). cbn [app length].
        replace (2 + S (length (filter keep src)))%nat
          with (3 + length (filter keep src))%nat by lia.
        tauto.
      * destruct (quantum_bytes_4 d0 d1 d2 (base64.decodeMap enc x))
          as [q ->].
        cbn [mbind option_bind].
        specialize (IH [] ltac:(cbn; lia)). cbn [length] in IH.
        assert (forall n, ((3 + S n) mod 4 = (0 + n) mod 4)%nat) as Hmod.
        { intros n. replace (3 + S n)%nat with (n + 1 * 4)%nat by lia.
          rewrite Nat.Div0.mod_add. reflexivity. }
        rewrite Hmod.
        destruct (base64.decode enc [] src) as [tl|].
        -- cbn. split; [intros _ | eauto].
           destruct IH as [IH _]. specialize (IH ltac:(eauto)). tauto.
        -- cbn. split; [intros [? ?]; discriminate |].
           intros [[_ HF] Hm]. destruct IH as [_ IH].
           destruct (IH (conj HF Hm)) as [? ?]. discriminate.
Qed.

Lemma DecodeString_Some_iff (s : bytes) :
  is_Some (base64.DecodeString enc s) <-> valid_raw enc s.
Proof.
  unfold base64.DecodeString, valid_raw.
  rewrite decode_Some_iff by (cbn; lia). reflexivity.
Qed.

Lemma DecodeString_None_iff (s : bytes) :
  base64.DecodeString enc s = None <-> ¬ valid_raw enc s.
Proof.
  rewrite <- DecodeString_Some_iff, <- eq_None_not_Some. reflexivity.
Qed.
End Base64Valid.

Lemma RawStdEncoding_newlines : newlines_out base64.RawStdEncoding.
Proof.
  intros c Hc. unfold base64.is_newline in Hc.
  apply orb_true_iff in Hc as [Hc|Hc]; apply bool_decide_eq_true in Hc;
    subst c; reflexivity.
Qed.

Lemma RawURLEncoding_newlines : newlines_out base64.RawURLEncoding.
Proof.
  intros c Hc. unfold base64.is_newline in Hc.
  apply orb_true_iff in Hc as [Hc|Hc]; apply bool_decide_eq_true in Hc;
    subst c; reflexivity.
Qed.

(* ================================================================== *)
(** ** strings: [IndexByte] and [SplitN] *)
(* ================================================================== *)

Lemma IndexByte_None (s : bytes) (c : byte) :
  strs.IndexByte s c = None <-> c ∉ s.
Proof.
  induction s as [|x s IH]; cbn [strs.IndexByte].
  - split; [intros _ H; inversion H | reflexivity].
  - destruct (decide (x = c)) as [->|Hne].
    + split; [discriminate | intros H; exfalso; apply H; constructor].
    + rewrite fmap_None, IH, not_elem_of_cons. split; [auto | tauto].
Qed.

(** The first [c] cuts the string in a part without [c] and the rest. *)
Lemma IndexByte_Some (s : bytes) (c : byte) (m : nat) :
  strs.IndexByte s c = Some m ->
  s = take m s ++ c :: drop (S m) s
  /\ (c ∉ take m s) /\ (m < length s)%nat.
Proof.
  revert m. induction s as [|x s IH]; intros m; cbn [strs.IndexByte].
  - discriminate.
  - destruct (decide (x = c)) as [->|Hne].
    + intros [= <-]. cbn. rewrite drop_0.
      split; [reflexivity | split; [apply not_elem_of_nil | lia]].
    + intros Hm. apply fmap_Some in Hm as (m' & Hm' & ->).
      destruct (IH m' Hm') as (Hs & Hnot & Hlt).
      cbn [take drop app length firstn skipn].
      split; [f_equal; exact Hs | split; [| lia]].
      rewrite not_elem_of_cons. split; [congruence | exact Hnot].
Qed.

Lemma IndexByte_app (a r : bytes) (c : byte) :
  c ∉ a -> strs.IndexByte (a ++ c :: r) c = Some (length a).
Proof.
  induction a as [|x a IH]; intros Hnot; cbn [app strs.IndexByte length].
  - destruct (decide (c = c)); [reflexivity | congruence].
  - apply not_elem_of_cons in Hnot as [Hne Hnot].
    destruct (decide (x = c)); [congruence|].
    rewrite IH by exact Hnot. reflexivity.
Qed.

Lemma segments_no_sep (sep : byte) (a : bytes) :
  sep ∉ a -> segments sep a = [a].
Proof.
  induction a as [|x a IH]; intros Hnot; cbn [segments].
  - reflexivity.
  - apply not_elem_of_cons in Hnot as [Hne Hnot].
    destruct (decide (x = sep)); [congruence|].
    rewrite IH by exact Hnot. reflexivity.
Qed.

Lemma segments_app (sep : byte) (a r : bytes) :
  sep ∉ a -> segments sep (a ++ sep :: r) = a :: segments sep r.
Proof.
  induction a as [|x a IH]; intros Hnot; cbn [app segments].
  - destruct (decide (sep = sep)); [reflexivity | congruence].
  - apply not_elem_of_cons in Hnot as [Hne Hnot].
    destruct (decide (x = sep)); [congruence|].
    rewrite IH by exact Hnot. reflexivity.
Qed.

Lemma segments_nonempty (sep : byte) (s : bytes) : segments sep s <> [].
Proof.
  destruct s as [|x s]; cbn [segments]; [discriminate|].
  destruct (decide (x = sep)); [discriminate|].
  destruct (segments sep s); discriminate.
Qed.

Lemma segments_singleton (sep : byte) (s a : bytes) :
  segments sep s = [a] -> a = s /\ sep ∉ s.
Proof.
  destruct (strs.IndexByte s sep) as [m|] eqn:E.
  - apply IndexByte_Some in E as (Hs & Hnot & _).
    rewrite Hs at 1. rewrite segments_app by exact Hnot.
    intros [= _ Hr]. exfalso. exact (segments_nonempty _ _ Hr).
  - apply IndexByte_None in E. rewrite segments_no_sep by exact E.
    intros [= <-]. split; [reflexivity | exact E].
Qed.

(** [SplitN(s, sep, 3)] against the segments of [s]: with at most three
    segments it returns them; with more, the first two and the unsplit
    rest, which then holds a separator. *)
Lemma SplitN_3_segments (s : bytes) (sep : byte) :
  ((length (segments sep s) <= 3)%nat
   /\ strs.SplitN s sep 3 = segments sep s)
  \/ ((length (segments sep s) > 3)%nat
      /\ exists a b c, strs.SplitN s sep 3 = [a; b; c] /\ sep ∈ c).
Proof.
  cbn [strs.SplitN strs.genSplit].
  destruct (strs.IndexByte s sep) as [m|] eqn:E1.
  2:{ apply IndexByte_None in E1. rewrite segments_no_sep by exact E1.
      left. split; [cbn; lia | reflexivity]. }
  apply IndexByte_Some in E1 as (Hs & Hnot1 & _).
  set (a := take m s) in *. set (r := drop (S m) s) in *.
  rewrite Hs, segments_app by exact Hnot1.
  destruct (strs.IndexByte r sep) as [k|] eqn:E2.
  2:{ apply IndexByte_None in E2. rewrite segments_no_sep by exact E2.
      left. split; [cbn; lia | reflexivity]. }
  apply IndexByte_Some in E2 as (Hr & Hnot2 & _).
  set (b := take k r) in *. set (c := drop (S k) r) in *.
  rewrite Hr, segments_app by exact Hnot2.
  destruct (strs.IndexByte c sep) as [j|] eqn:E3.
  - right. apply IndexByte_Some in E3 as (Hc & Hnot3 & _).
    split.
    + rewrite Hc, segments_app by exact Hnot3. cbn [length].
      pose proof (segments_nonempty sep (drop (S j) c)).
      destruct (segments sep (drop (S j) c)); [congruence | cbn; lia].
    + exists a, b, c. split; [reflexivity|].
      rewrite Hc. apply elem_of_app. right. constructor.
  - left. apply IndexByte_None in E3.
    rewrite segments_no_sep by exact E3. split; [cbn; lia | reflexivity].
Qed.

Lemma SplitN_3_app (a b c : bytes) (sep : byte) :
  sep ∉ a -> sep ∉ b ->
  strs.SplitN (a ++ sep :: b ++ sep :: c) sep 3 = [a; b; c].
Proof.
  intros Ha Hb. cbn [strs.SplitN strs.genSplit].
  rewrite IndexByte_app by exact Ha.
  rewrite take_app_length.
  replace (drop (S (length a)) (a ++ sep :: b ++ sep :: c))
    with (b ++ sep :: c)
    by (rewrite drop_app_ge by lia;
        replace (S (length a) - length a)%nat with 1%nat by lia;
        reflexivity).
  rewrite IndexByte_app by exact Hb.
  rewrite take_app_length.
  rewrite drop_app_ge by lia.
  replace (S (length b) - length b)%nat with 1%nat by lia.
  reflexivity.
Qed.

(* ================================================================== *)
(** ** dvx/encoding.go: [Encode] and [Decode] *)
(* ================================================================== *)

(** The four type prefixes of the envelope. *)
Lemma typePrefix_known (t : TypePrefix) :
  t ∈ [Encrypted; Signed; Tagged; TOTP]
  <-> ¬ (t ≠ Encrypted ∧ t ≠ Signed ∧ t ≠ Tagged ∧ t ≠ TOTP).
Proof.
  rewrite !elem_of_cons, elem_of_nil.
  destruct (decide (t = Encrypted)), (decide (t = Signed)),
    (decide (t = Tagged)), (decide (t = TOTP)); tauto.
Qed.

Lemma dot_not_in_typePrefix (t : TypePrefix) :
  t ∈ [Encrypted; Signed; Tagged; TOTP] -> "."%byte ∉ t.
Proof.
  rewrite !elem_of_cons, elem_of_nil.
  intros [->|[->|[->|[->|[]]]]]; compute_done.
Qed.

(** What [Decode] does on a string, by the three parts [SplitN] finds. *)
Lemma Decode_parts (s version typePrefix data64 : bytes) :
  strs.SplitN s "."%byte 3 = [version; typePrefix; data64] ->
  Decode s =
    if decide (version ≠ str "dv1") then Err (ErrUnknownVersion version)
    else if decide (typePrefix ∈ [Encrypted; Signed; Tagged; TOTP])
    then match base64.DecodeString base64.RawURLEncoding data64 with
         | Some data => Ok (version, typePrefix, data)
         | None => Err ErrNotBase64URL
         end
    else Err (ErrUnknownTypePrefix typePrefix).
Proof.
  intros Hs. unfold Decode. rewrite Hs.
  destruct (decide (version ≠ str "dv1")); [reflexivity|].
  pose proof (typePrefix_known typePrefix) as Hk.
  destruct (decide (typePrefix ≠ Encrypted ∧ typePrefix ≠ Signed
                    ∧ typePrefix ≠ Tagged ∧ typePrefix ≠ TOTP)),
    (decide (typePrefix ∈ [Encrypted; Signed; Tagged; TOTP]));
    try reflexivity; tauto.
Qed.

(** The envelope of a known type prefix is split, checked and decoded
    back. *)
Lemma Decode_Encode_known (t : TypePrefix) (x : bytes) :
  t ∈ [Encrypted; Signed; Tagged; TOTP] ->
  Decode (Encode t x) = Ok (str "dv1", t, x).
Proof.
  intros Ht. unfold Encode.
  change (str ".") with ["."%byte]. cbn [app].
  rewrite (Decode_parts _ Version t
             (base64.EncodeToString base64.RawURLEncoding x)).
  - destruct (decide (Version ≠ str "dv1")) as [Hv|_];
      [exfalso; apply Hv; reflexivity|].
    destruct (decide (t ∈ [Encrypted; Signed; Tagged; TOTP]));
      [| contradiction].
    rewrite DecodeString_EncodeToString by apply RawURLEncoding_ok.
    reflexivity.
  - apply SplitN_3_app.
    + compute_done.
    + apply dot_not_in_typePrefix, Ht.
Qed.

Lemma DecodeExpect_Encode (t : TypePrefix) (x : bytes) :
  t ∈ [Encrypted; Signed; Tagged; TOTP] ->
  DecodeExpect (Encode t x) t = Ok (str "dv1", x).
Proof.
  intros Ht. unfold DecodeExpect. rewrite Decode_Encode_known by exact Ht.
  cbn [bind]. destruct (decide (t ≠ t)); [congruence | reflexivity].
Qed.

(** C5. For each of the four type prefixes [t] and every byte string [x],
    [Decode(Encode(t, x))] succeeds and returns the version ["dv1"], the
    type prefix [t] and the data [x]. *)
Theorem Decode_Encode (t : TypePrefix) (x : bytes) :
  t ∈ [Encrypted; Signed; Tagged; TOTP] ->
  Decode (Encode t x) = Ok (str "dv1", t, x).
Proof. exact (Decode_Encode_known t x). Qed.

Lemma Decode_Encode_witness :
  Decode (Encode TOTP (str "selector")) = Ok (str "dv1", TOTP, str "selector").
Proof.
  apply (Decode_Encode TOTP (str "selector")).
  compute_done.
Defined.

Lemma dot_invalid_base64url :
  ¬ in_alphabet base64.RawURLEncoding "."%byte
  /\ base64.is_newline "."%byte = false.
Proof. split; [intros H; apply H |]; reflexivity. Qed.

(** C6, as stated, fails: a data segment with a line feed in it is not
    unpadded URL-safe base64, and [Decode] returns its bytes, because
    Go's decoder skips ['\r'] and ['\n'].  The decoder also ignores the
    bits that the last character carries beyond the last byte: ["AB"]
    decodes like ["AA"]. *)
Lemma Decode_accepts_line_feed :
  let data := str "AA" ++ ["010"%byte] ++ str "AA" in
  Decode (str "dv1.enc." ++ data) = Ok (str "dv1", Encrypted, [x00; x00; x00])
  /\ ¬ strict_raw base64.RawURLEncoding data
  /\ Decode (str "dv1.enc.AB") = Decode (str "dv1.enc.AA")
  /\ ¬ Decode_rejects_invalid_data.
Proof.
  intros data.
  assert (¬ strict_raw base64.RawURLEncoding data) as Hbad.
  { intros [Hall _]. unfold data in Hall.
    apply Forall_app in Hall as [_ Hall].
    apply Forall_app in Hall as [Hlf _].
    apply Forall_cons_iff in Hlf as [Hlf _].
    apply Hlf. reflexivity. }
  assert (Decode (str "dv1.enc." ++ data)
          = Ok (str "dv1", Encrypted, [x00; x00; x00])) as Hok
    by (vm_compute; reflexivity).
  split; [exact Hok|]. split; [exact Hbad|].
  split; [vm_compute; reflexivity|].
  intros Hall.
  destruct (Hall (str "dv1.enc." ++ data) (str "dv1") Encrypted data
              ltac:(vm_compute; reflexivity) Hbad) as [e He].
  rewrite Hok in He. discriminate He.
Qed.

(** C6, amended. [Decode] returns an error on every string that does not
    consist of exactly three dot-separated segments, and on three segments
    as soon as the version is not ["dv1"], the type prefix is none of the
    four, or the data is not what Go's decoder of unpadded URL-safe base64
    takes: once line breaks are dropped, characters of the alphabet only,
    and a length that is not 1 modulo 4. *)
Theorem Decode_rejects (s : bytes) :
  (length (segments "."%byte s) ≠ 3)%nat
  \/ (exists version typePrefix data,
        segments "."%byte s = [version; typePrefix; data]
        /\ (version ≠ str "dv1"
            \/ typePrefix ∉ [Encrypted; Signed; Tagged; TOTP]
            \/ ¬ valid_raw base64.RawURLEncoding data)) ->
  is_Err (Decode s).
Proof.
  intros Hbad.
  destruct (SplitN_3_segments s "."%byte)
    as [[Hle Hsplit] | [Hgt (a & b & c & Hsplit & Hdot)]].
  - destruct Hbad as [Hlen | (v & t & d & Hseg & Hwrong)].
    + unfold Decode. rewrite Hsplit.
      pose proof (segments_nonempty "."%byte s).
      destruct (segments "."%byte s) as [|p0 [|p1 [|p2 [|p3 l]]]];
        cbn [length] in *; try congruence; try lia;
        eexists; reflexivity.
    + rewrite Hseg in Hsplit. rewrite (Decode_parts _ _ _ _ Hsplit).
      destruct (decide (v ≠ str "dv1")); [eexists; reflexivity|].
      destruct (decide (t ∈ [Encrypted; Signed; Tagged; TOTP]));
        [| eexists; reflexivity].
      destruct Hwrong as [Hv | [Ht | Hd]]; [contradiction..|].
      apply (DecodeString_None_iff _ RawURLEncoding_newlines) in Hd.
      rewrite Hd. eexists; reflexivity.
  - rewrite (Decode_parts _ _ _ _ Hsplit).
    destruct (decide (a ≠ str "dv1")); [eexists; reflexivity|].
    destruct (decide (b ∈ [Encrypted; Signed; Tagged; TOTP]));
      [| eexists; reflexivity].
    unfold base64.DecodeString.
    rewrite (decode_bad_byte base64.RawURLEncoding "."%byte c Hdot
               (proj1 dot_invalid_base64url) (proj2 dot_invalid_base64url)).
    eexists; reflexivity.
Qed.

Lemma not_valid_raw_bangs : ¬ valid_raw base64.RawURLEncoding (str "!!!").
Proof.
  apply (DecodeString_None_iff _ RawURLEncoding_newlines). reflexivity.
Qed.

(** The four inputs of the specification, each through [Decode_rejects]. *)
Lemma Decode_rejects_witness :
  is_Err (Decode (str "dv2.enc.AAAA"))
  /\ is_Err (Decode (str "dv1.xxx.AAAA"))
  /\ is_Err (Decode (str "dv1.enc"))
  /\ is_Err (Decode (str "dv1.enc.!!!")).
Proof.
  repeat split.
  - apply (Decode_rejects (str "dv2.enc.AAAA")). right.
    exists (str "dv2"), (str "enc"), (str "AAAA").
    split; [reflexivity | left; discriminate].
  - apply (Decode_rejects (str "dv1.xxx.AAAA")). right.
    exists (str "dv1"), (str "xxx"), (str "AAAA").
    split; [reflexivity | right; left].
    compute_done.
  - apply (Decode_rejects (str "dv1.enc")). left. vm_compute. lia.
  - apply (Decode_rejects (str "dv1.enc.!!!")). right.
    exists (str "dv1"), (str "enc"), (str "!!!").
    split; [reflexivity | right; right; apply not_valid_raw_bangs].
Defined.

(** The converse: a string of three segments with the version ["dv1"], one
    of the four type prefixes and valid data is decoded. *)
Lemma Decode_accepts (typePrefix data64 : bytes) :
  typePrefix ∈ [Encrypted; Signed; Tagged; TOTP] ->
  valid_raw base64.RawURLEncoding data64 ->
  exists data,
    base64.DecodeString base64.RawURLEncoding data64 = Some data
    /\ Decode (str "dv1" ++ str "." ++ typePrefix ++ str "." ++ data64)
       = Ok (str "dv1", typePrefix, data).
Proof.
  intros Ht Hd.
  apply (DecodeString_Some_iff _ RawURLEncoding_newlines) in Hd
    as [data Hdata].
  exists data. split; [exact Hdata|].
  change (str ".") with ["."%byte]. cbn [app].
  rewrite (Decode_parts _ (str "dv1") typePrefix data64).
  - destruct (decide (str "dv1" ≠ str "dv1")) as [Hv|_];
      [exfalso; apply Hv; reflexivity|].
    destruct (decide (typePrefix ∈ [Encrypted; Signed; Tagged; TOTP]));
      [| contradiction].
    rewrite Hdata. reflexivity.
  - apply SplitN_3_app.
    + compute_done.
    + apply dot_not_in_typePrefix, Ht.
Qed.

(* ================================================================== *)
(** ** The sample libraries satisfy the laws *)
(* ================================================================== *)

Lemma fill_length (n : nat) (input : bytes) : length (fill n input) = n.
Proof.
  unfold fill. rewrite length_take, length_app, repeat_length. lia.
Qed.

Lemma sample_crypto_laws : @CryptoLaws sample_crypto.
Proof.
  split; intros; cbn; try apply fill_length; reflexivity.
Qed.

(* ================================================================== *)
(** ** dvx/protocol.go: the keyRing *)
(* ================================================================== *)

Lemma keyRingToBytes_no_colon (p : Protocol.t) (keyRing : bytes) :
  ":"%byte ∉ keyRing -> Protocol.keyRingToBytes p keyRing = keyRing.
Proof.
  intros Hnot. unfold Protocol.keyRingToBytes.
  apply IndexByte_None in Hnot. rewrite Hnot. reflexivity.
Qed.

Lemma keyRingToBytes_colon (p : Protocol.t) (label suffix : bytes) :
  ":"%byte ∉ label ->
  Protocol.keyRingToBytes p (label ++ str ":" ++ suffix)
  = match base64.DecodeString base64.RawStdEncoding suffix with
    | Some decoded => decoded
    | None => label ++ str ":" ++ suffix
    end.
Proof.
  intros Hnot. unfold Protocol.keyRingToBytes.
  change (str ":") with [":"%byte]. cbn [app].
  rewrite IndexByte_app by exact Hnot.
  rewrite drop_app_ge by lia.
  replace (S (length label) - length label)%nat with 1%nat by lia.
  reflexivity.
Qed.

(** C1. A keyRing without [':'] is used as it is.  With a [':'], what
    follows the first one is decoded as unpadded standard base64: the
    decoded bytes are used on success, the bytes of the whole string on
    failure.  Two keyRings with the same decodable part after their first
    [':'] therefore give the same bytes, the same derived keys, and the
    same result of every operation of the protocol. *)
Theorem keyRing_normalization `{CryptoLib} (p : Protocol.t)
    (label label' suffix : bytes) :
  ":"%byte ∉ label -> ":"%byte ∉ label' ->
  let keyRing := label ++ str ":" ++ suffix in
  let keyRing' := label' ++ str ":" ++ suffix in
  (forall plain, ":"%byte ∉ plain -> Protocol.keyRingToBytes p plain = plain)
  /\ Protocol.keyRingToBytes p keyRing
     = match base64.DecodeString base64.RawStdEncoding suffix with
       | Some decoded => decoded
       | None => keyRing
       end
  /\ forall decoded,
       base64.DecodeString base64.RawStdEncoding suffix = Some decoded ->
       Protocol.keyRingToBytes p keyRing = decoded
       /\ Protocol.keyRingToBytes p keyRing' = decoded
       /\ (forall pool : KeyPool,
             KDF32 pool (Protocol.keyRingToBytes p keyRing)
             = KDF32 pool (Protocol.keyRingToBytes p keyRing')
             /\ KDF64 pool (Protocol.keyRingToBytes p keyRing)
                = KDF64 pool (Protocol.keyRingToBytes p keyRing'))
       /\ (forall data rand,
             Protocol.Encrypt p keyRing data rand
             = Protocol.Encrypt p keyRing' data rand)
       /\ (forall ciphertext,
             Protocol.Decrypt p keyRing ciphertext
             = Protocol.Decrypt p keyRing' ciphertext)
       /\ Protocol.CreateSignKey p keyRing = Protocol.CreateSignKey p keyRing'
       /\ (forall message,
             Protocol.Sign p keyRing message
             = Protocol.Sign p keyRing' message)
       /\ (forall message signature,
             Protocol.Verify p keyRing message signature
             = Protocol.Verify p keyRing' message signature)
       /\ (forall message,
             Protocol.MAC p keyRing message = Protocol.MAC p keyRing' message)
       /\ (forall issuer accountName accountID rand,
             Protocol.GenerateTOTP p keyRing issuer accountName accountID rand
             = Protocol.GenerateTOTP p keyRing' issuer accountName accountID
                 rand)
       /\ (forall id accountID code now,
             Protocol.VerifyTOTP p keyRing id accountID code now
             = Protocol.VerifyTOTP p keyRing' id accountID code now).
Proof.
  intros Hl Hl' keyRing keyRing'.
  split; [apply keyRingToBytes_no_colon|].
  split; [apply keyRingToBytes_colon, Hl|].
  intros decoded Hdec.
  assert (Protocol.keyRingToBytes p keyRing = decoded) as E
    by (unfold keyRing; rewrite keyRingToBytes_colon, Hdec by exact Hl;
        reflexivity).
  assert (Protocol.keyRingToBytes p keyRing' = decoded) as E'
    by (unfold keyRing'; rewrite keyRingToBytes_colon, Hdec by exact Hl';
        reflexivity).
  split; [exact E|]. split; [exact E'|].
  unfold Protocol.Encrypt, Protocol.Decrypt, Protocol.CreateSignKey,
    Protocol.Sign, Protocol.Verify, Protocol.MAC, Protocol.GenerateTOTP,
    Protocol.VerifyTOTP.
  rewrite E, E'. repeat split; reflexivity.
Qed.

(** The two keyRings of the specification, on a software pool. *)
Lemma keyRing_normalization_witness :
  let pool := dvxWrapper.pool
                (WrapDVXAsKeyPool (@DV1.primitive sample_crypto) (Some 0%nat))
                {[ 0%nat := repeat "k"%byte 64 ]} in
  let p := Protocol.NewProtocol {[ Version := pool ]} in
  Protocol.keyRingToBytes p (str "totp:dG90cA") = str "totp"
  /\ Protocol.keyRingToBytes p (str "anything:dG90cA") = str "totp"
  /\ KDF32 pool (Protocol.keyRingToBytes p (str "totp:dG90cA"))
     = KDF32 pool (Protocol.keyRingToBytes p (str "anything:dG90cA"))
  /\ forall message,
       @Protocol.MAC sample_crypto p (str "totp:dG90cA") message
       = @Protocol.MAC sample_crypto p (str "anything:dG90cA") message.
Proof.
  intros pool p.
  assert (":"%byte ∉ str "totp") as H1 by compute_done.
  assert (":"%byte ∉ str "anything") as H2 by compute_done.
  destruct (@keyRing_normalization sample_crypto p (str "totp")
              (str "anything") (str "dG90cA") H1 H2) as (_ & _ & Hsame).
  destruct (Hsame (str "totp") eq_refl)
    as (E1 & E2 & Hkdf & _ & _ & _ & _ & _ & Hmac & _).
  split; [exact E1|]. split; [exact E2|].
  split; [exact (proj1 (Hkdf pool)) | exact Hmac].
Defined.

(* ================================================================== *)
(** ** dvx/dv1.go: [Encrypt] and [Decrypt] *)
(* ================================================================== *)

Section AEAD.
Context `{CryptoLaws}.

Lemma Seal_length (key nonce plaintext ad : bytes) :
  length (chacha20poly1305.Seal key nonce plaintext ad)
  = (length plaintext + chacha20poly1305.Overhead)%nat.
Proof.
  unfold chacha20poly1305.Seal.
  rewrite length_app, xchacha20_length, poly1305_tag_length. reflexivity.
Qed.

(** [Open] undoes [Seal] under the same key, nonce and associated data. *)
Lemma Open_Seal (key nonce plaintext ad : bytes) :
  chacha20poly1305.Open key nonce
    (chacha20poly1305.Seal key nonce plaintext ad) ad = Some plaintext.
Proof.
  unfold chacha20poly1305.Open.
  rewrite Seal_length.
  destruct (decide (length plaintext + chacha20poly1305.Overhead
                    < chacha20poly1305.Overhead)%nat); [lia|].
  replace (length plaintext + chacha20poly1305.Overhead
           - chacha20poly1305.Overhead)%nat
    with (length (xchacha20 key nonce plaintext))
    by (rewrite xchacha20_length; lia).
  unfold chacha20poly1305.Seal.
  rewrite take_app_length, drop_app_length.
  destruct (decide _) as [_|Hne]; [| congruence].
  rewrite xchacha20_involutive. reflexivity.
Qed.
End AEAD.

(** C2. With a key of 32 bytes and a random source that gives 24 bytes,
    [Encrypt] succeeds; the blob is the nonce (24 bytes), the ciphertext
    (as long as the plaintext) and the tag (16 bytes), sealed with the
    associated data ["dv1"] followed by the nonce; and whatever the nonce
    is, [Decrypt] of the blob under the same key returns the plaintext. *)
Theorem Encrypt_Decrypt `{CryptoLaws} (key data rand : bytes) :
  length key = 32%nat -> (24 <= length rand)%nat ->
  let nonce := take 24 rand in
  let ad := str "dv1" ++ nonce in
  let ciphertext := xchacha20 key nonce data in
  let tag := poly1305_tag key nonce ad ciphertext in
  DV1.Encrypt key data rand = Ok (nonce ++ ciphertext ++ tag)
  /\ ciphertext ++ tag = chacha20poly1305.Seal key nonce data ad
  /\ length nonce = 24%nat
  /\ length ciphertext = length data
  /\ length tag = 16%nat
  /\ DV1.Decrypt key (nonce ++ ciphertext ++ tag) = Ok data.
Proof.
  intros Hkey Hrand nonce ad ciphertext tag.
  assert (length nonce = 24%nat) as Hnonce
    by (unfold nonce; rewrite length_take; lia).
  split.
  { unfold DV1.Encrypt, ReadFull,
      chacha20poly1305.KeySize, chacha20poly1305.NonceSizeX.
    destruct (decide (length key ≠ 32%nat)); [congruence|].
    destruct (decide (24 <= length rand)%nat); [| lia].
    reflexivity. }
  split; [reflexivity|].
  split; [exact Hnonce|].
  split; [apply xchacha20_length|].
  split; [apply poly1305_tag_length|].
  unfold DV1.Decrypt,
    chacha20poly1305.KeySize, chacha20poly1305.NonceSizeX.
  destruct (decide (length key ≠ 32%nat)); [congruence|].
  destruct (decide (length (nonce ++ ciphertext ++ tag) < 24)%nat) as [Hlt|_];
    [rewrite length_app in Hlt; lia|].
  assert (take 24 (nonce ++ ciphertext ++ tag) = nonce) as ->
    by (rewrite <- Hnonce at 1; apply take_app_length).
  assert (drop 24 (nonce ++ ciphertext ++ tag) = ciphertext ++ tag) as ->
    by (rewrite <- Hnonce at 1; apply drop_app_length).
  change (Version ++ nonce) with ad.
  change (ciphertext ++ tag) with (chacha20poly1305.Seal key nonce data ad).
  rewrite Open_Seal. reflexivity.
Qed.

Lemma Encrypt_Decrypt_witness :
  let key := repeat "k"%byte 32 in
  let rand := repeat "n"%byte 24 in
  @DV1.Encrypt sample_crypto key (str "some random data") rand
  = Ok (rand ++ str "some random data"
          ++ fill 16 (str "some random data" ++ str "dv1" ++ rand ++ key))
  /\ @DV1.Decrypt sample_crypto key
       (rand ++ str "some random data"
          ++ fill 16 (str "some random data" ++ str "dv1" ++ rand ++ key))
     = Ok (str "some random data").
Proof.
  intros key rand.
  destruct (@Encrypt_Decrypt sample_crypto sample_crypto_laws key
              (str "some random data") rand eq_refl ltac:(cbn; lia))
    as (Henc & _ & _ & _ & _ & Hdec).
  split; [exact Henc | exact Hdec].
Defined.

(* ================================================================== *)
(** ** dvx/protocol.go: the TOTP secret *)
(* ================================================================== *)

Section TOTPDerivation.
Context `{CryptoLaws}.

(** [deriveTOTPKey] for version ["dv1"], when the pool gives a key of 64
    bytes. *)
Lemma deriveTOTPKey_chain (p : Protocol.t) (pool : KeyPool)
    (keyRing rawID accountID totpSK : bytes) :
  Protocol.keys p !! Version = Some pool ->
  KDF64 pool keyRing = Ok totpSK ->
  length totpSK = 64%nat ->
  Protocol.deriveTOTPKey p keyRing rawID accountID (str "dv1")
  = Ok (blake2b_256 (blake2b_512 totpSK rawID) accountID).
Proof.
  intros Hpool Hkdf Hlen.
  unfold Protocol.deriveTOTPKey, Protocol.keys_at.
  destruct (decide (str "dv1" = str "dv1")); [| congruence].
  rewrite Hpool. cbn [bind]. rewrite Hkdf. cbn [bind].
  unfold DV1.MAC512, DV1.MAC256.
  destruct (decide (length totpSK ≠ 64%nat)); [congruence|].
  cbn [bind].
  destruct (decide (length (blake2b_512 totpSK rawID) ≠ 64%nat)) as [Hne|_];
    [rewrite blake2b_512_length in Hne; congruence|].
  reflexivity.
Qed.
End TOTPDerivation.

(** Conversely, when [GenerateTOTP] returns, the steps of the derivation
    have all succeeded. *)
Lemma GenerateTOTP_inv `{CryptoLaws} (p : Protocol.t)
    (keyRing issuer accountName accountID rand id uri : bytes) :
  Protocol.GenerateTOTP p keyRing issuer accountName accountID rand
  = Ok (id, uri) ->
  exists pool totpSK,
    Protocol.keys p !! Version = Some pool
    /\ KDF64 pool (Protocol.keyRingToBytes p keyRing) = Ok totpSK
    /\ length totpSK = 64%nat
    /\ (32 <= length rand)%nat
    /\ id = Encode TOTP (take 32 rand)
    /\ uri = totp.URI
               {| totp.Secret :=
                    blake2b_256 (blake2b_512 totpSK (take 32 rand)) accountID;
                  totp.Algorithm := str "SHA256";
                  totp.Digits := 6;
                  totp.Period := 30;
                  totp.Issuer := issuer;
                  totp.AccountName := accountName |}.
Proof.
  unfold Protocol.GenerateTOTP, ReadFull.
  destruct (decide (32 <= length rand)%nat) as [Hrand|]; [| discriminate].
  unfold Protocol.deriveTOTPKey, Protocol.keys_at.
  destruct (decide (Version = str "dv1")) as [_|Hv];
    [| exfalso; apply Hv; reflexivity].
  destruct (Protocol.keys p !! Version) as [pool|]; [| discriminate].
  cbn [bind].
  destruct (KDF64 pool (Protocol.keyRingToBytes p keyRing)) as [totpSK| | |]
    eqn:Hkdf; try discriminate.
  cbn [bind]. unfold DV1.MAC512, DV1.MAC256.
  destruct (decide (length totpSK ≠ 64%nat)) as [|Hlen]; [discriminate|].
  cbn [bind].
  destruct (decide (length (blake2b_512 totpSK (take 32 rand)) ≠ 64%nat));
    [discriminate|].
  cbn [bind]. intros [= <- <-].
  exists pool, totpSK. repeat split; try assumption.
  destruct (decide (length totpSK = 64%nat)); [assumption | tauto].
Qed.

(** C3. With [totpSK = KDF64(keyRing bytes)] of 64 bytes,
    [intermediate = MAC512(totpSK, rawID)] and
    [totpSecret = MAC256(intermediate, accountID)] are computed without
    error, [totpSecret] has 32 bytes, and it is the secret of the TOTP
    object of both operations: [GenerateTOTP] draws the 32 bytes of [rawID]
    and returns its envelope of type [totp] with the URI of the object
    ([SHA256], 6 digits, period 30); [VerifyTOTP] reads [rawID] from the
    envelope and verifies the code against the same object. *)
Theorem TOTP_derivation `{CryptoLaws} (p : Protocol.t) (pool : KeyPool)
    (keyRing issuer accountName accountID rand totpSK : bytes) :
  Protocol.keys p !! Version = Some pool ->
  KDF64 pool (Protocol.keyRingToBytes p keyRing) = Ok totpSK ->
  length totpSK = 64%nat ->
  (32 <= length rand)%nat ->
  let rawID := take 32 rand in
  let secret_of := fun rawID : bytes =>
    blake2b_256 (blake2b_512 totpSK rawID) accountID in
  let object_of := fun (rawID issuer accountName : bytes) =>
    {| totp.Secret := secret_of rawID;
       totp.Algorithm := str "SHA256";
       totp.Digits := 6;
       totp.Period := 30;
       totp.Issuer := issuer;
       totp.AccountName := accountName |} in
  length rawID = 32%nat
  /\ (forall id : bytes,
        DV1.MAC512 totpSK id = Ok (blake2b_512 totpSK id)
        /\ DV1.MAC256 (blake2b_512 totpSK id) accountID = Ok (secret_of id)
        /\ length (secret_of id) = 32%nat)
  /\ Protocol.GenerateTOTP p keyRing issuer accountName accountID rand
     = Ok (Encode TOTP rawID, totp.URI (object_of rawID issuer accountName))
  /\ forall (id code : bytes) (now : Z),
       Protocol.VerifyTOTP p keyRing (Encode TOTP id) accountID code now
       = totp.Verify (object_of id [] []) now code.
Proof.
  intros Hpool Hkdf Hlen Hrand rawID secret_of object_of.
  split; [unfold rawID; rewrite length_take; lia|].
  split.
  { intros id. unfold DV1.MAC512, DV1.MAC256.
    destruct (decide (length totpSK ≠ 64%nat)); [congruence|].
    destruct (decide (length (blake2b_512 totpSK id) ≠ 64%nat)) as [Hne|_];
      [rewrite blake2b_512_length in Hne; congruence|].
    repeat split. apply blake2b_256_length. }
  split.
  - unfold Protocol.GenerateTOTP, ReadFull.
    destruct (decide (32 <= length rand)%nat); [| lia].
    change (Protocol.deriveTOTPKey p ?k ?r ?a Version)
      with (Protocol.deriveTOTPKey p k r a (str "dv1")).
    rewrite (deriveTOTPKey_chain p pool _ _ _ totpSK Hpool Hkdf Hlen).
    reflexivity.
  - intros id code now. unfold Protocol.VerifyTOTP.
    rewrite DecodeExpect_Encode by compute_done. cbn [bind].
    rewrite (deriveTOTPKey_chain p pool _ _ _ totpSK Hpool Hkdf Hlen).
    cbn [bind].
    destruct (decide (str "dv1" = str "dv1")); [reflexivity | congruence].
Qed.

(** The derivation on a software pool, with the inputs of the package's
    own test. *)
Lemma TOTP_derivation_witness :
  let root := repeat "k"%byte 64 in
  let pool := dvxWrapper.pool
                (WrapDVXAsKeyPool (@DV1.primitive sample_crypto) (Some 0%nat))
                {[ 0%nat := root ]} in
  let p := Protocol.NewProtocol {[ Version := pool ]} in
  let rawID := repeat "r"%byte 32 in
  let totpSK := fill 64 (str "totp" ++ root) in
  let secret := fill 32 (str "a1-id" ++ fill 64 (rawID ++ totpSK)) in
  @Protocol.GenerateTOTP sample_crypto p (str "totp") (str "i") (str "a1")
    (str "a1-id") rawID
  = Ok (Encode TOTP rawID,
        totp.URI {| totp.Secret := secret;
                    totp.Algorithm := str "SHA256";
                    totp.Digits := 6;
                    totp.Period := 30;
                    totp.Issuer := str "i";
                    totp.AccountName := str "a1" |}).
Proof.
  intros root pool p rawID totpSK secret.
  destruct (@TOTP_derivation sample_crypto sample_crypto_laws p pool
              (str "totp") (str "i") (str "a1") (str "a1-id") rawID totpSK)
    as (_ & _ & Hgen & _).
  - apply lookup_singleton_eq.
  - reflexivity.
  - apply fill_length.
  - cbn. lia.
  - exact Hgen.
Defined.

(* ================================================================== *)
(** ** dvx/keypool.go: [Close] *)
(* ================================================================== *)

(** C4, as stated, fails: [Close] drops the pool's reference to the root
    key and writes nothing.  A root key of 64 bytes ['k'] is still in
    memory, byte for byte, after [Close]. *)
Lemma Close_does_not_zero :
  let root := repeat "k"%byte 64 in
  let d := WrapDVXAsKeyPool (@DV1.primitive sample_crypto) (Some 0%nat) in
  let m : memory := {[ 0%nat := root ]} in
  (dvxWrapper.Close d m).1.2 !! 0%nat = Some root
  /\ ¬ zeroed_on_Close d m.
Proof.
  intros root d m. split; [apply lookup_singleton_eq|].
  intros Hz. specialize (Hz 0%nat root eq_refl (lookup_singleton_eq _ _)).
  unfold dvxWrapper.Close in Hz. cbn [fst snd] in Hz.
  unfold m in Hz. rewrite lookup_singleton_eq in Hz.
  unfold root in Hz. cbn [repeat length] in Hz. discriminate Hz.
Qed.

(** C4, amended. [Close] returns a nil error and leaves the pool without a
    reference to the root key; it writes to no buffer, so the bytes of the
    root key stay in memory as they were.  Both derivations of the closed
    pool fail on the key length. *)
Theorem Close_releases `{CryptoLib} (d : dvxWrapper.t) (m : memory) :
  let '(d', m', err) := dvxWrapper.Close d m in
  err = None
  /\ dvxWrapper.rootKey d' = None
  /\ dvxWrapper.dvx d' = dvxWrapper.dvx d
  /\ m' = m
  /\ forall rootKey keyRing,
       let closed := (dvxWrapper.Close
                        (WrapDVXAsKeyPool DV1.primitive rootKey) m).1.1 in
       dvxWrapper.KDF32 closed m keyRing = Err ErrMacKeyLen
       /\ dvxWrapper.KDF64 closed m keyRing = Err ErrMacKeyLen.
Proof.
  cbn. repeat split.
Qed.

(** Before [Close], the same pool derives keys from the buffer. *)
Lemma KDF_before_Close `{CryptoLib} (m : memory) (a : nat)
    (root keyRing : bytes) :
  m !! a = Some root -> length root = 64%nat ->
  let d := WrapDVXAsKeyPool DV1.primitive (Some a) in
  dvxWrapper.KDF32 d m keyRing = Ok (blake2b_256 root keyRing)
  /\ dvxWrapper.KDF64 d m keyRing = Ok (blake2b_512 root keyRing).
Proof.
  intros Hm Hlen d.
  unfold dvxWrapper.KDF32, dvxWrapper.KDF64, dvxWrapper.kdf, deref.
  cbn. rewrite Hm. cbn. unfold DV1.MAC256, DV1.MAC512.
  destruct (decide (length root ≠ 64%nat)); [congruence|].
  split; reflexivity.
Qed.

(* ================================================================== *)
(** ** dvx/totp/totp.go: the generated code *)
(* ================================================================== *)

Lemma to_byte_mod (z : Z) : to_byte (z mod 256) = to_byte z.
Proof. unfold to_byte. rewrite Z.mod_mod by lia. reflexivity. Qed.

(** [PutUint64] writes the big-endian bytes of the counter. *)
Lemma PutUint64_big_endian (counter : Z) :
  binary.PutUint64 (counter mod 2 ^ 64) = big_endian_8 counter.
Proof.
  unfold binary.PutUint64, big_endian_8. cbn [map].
  rewrite !Z.shiftr_div_pow2, !to_byte_mod by lia.
  reflexivity.
Qed.

(** [Uint32] reads four bytes as a big-endian number. *)
Lemma Uint32_add (b0 b1 b2 b3 : byte) :
  binary.Uint32 b0 b1 b2 b3
  = u8 b0 * 2 ^ 24 + u8 b1 * 2 ^ 16 + u8 b2 * 2 ^ 8 + u8 b3.
Proof.
  pose proof (u8_range b0). pose proof (u8_range b1).
  pose proof (u8_range b2). pose proof (u8_range b3).
  unfold binary.Uint32.
  rewrite (Z.lor_comm (u8 b3)), lor_shiftl_add by lia.
  rewrite (Z.lor_comm _ (Z.shiftl (u8 b1) 16)), lor_shiftl_add by lia.
  rewrite (Z.lor_comm _ (Z.shiftl (u8 b0) 24)), lor_shiftl_add by lia.
  lia.
Qed.

Lemma u8_clear_high_bit (b : byte) :
  u8 (to_byte (Z.land (u8 b) 127)) = u8 b mod 128.
Proof.
  pose proof (u8_range b).
  rewrite u8_to_byte, land_127. Z.div_mod_to_equations; lia.
Qed.

Lemma fixed_decimal_length (d : nat) (n : Z) :
  length (fixed_decimal d n) = d.
Proof.
  revert n. induction d as [|d IH]; intros n; cbn [fixed_decimal].
  - reflexivity.
  - rewrite length_app, IH. cbn. lia.
Qed.

Lemma fixed_decimal_0 (d : nat) : fixed_decimal d 0 = repeat "0"%byte d.
Proof.
  induction d as [|d IH]; cbn [fixed_decimal].
  - reflexivity.
  - change (0 / 10) with 0. rewrite IH.
    change [to_byte (48 + 0 mod 10)] with (repeat "0"%byte 1).
    rewrite <- repeat_app.
    replace (d + 1)%nat with (S d) by lia. reflexivity.
Qed.

(** The digits that [Itoa] writes are those of the padded representation,
    without its leading zeros. *)
Lemma digits_fixed_decimal (fuel : nat) :
  forall (d : nat) (n : Z) (acc : bytes),
    (1 <= d <= fuel)%nat -> 0 <= n < 10 ^ Z.of_nat d ->
    exists z : nat,
      (z < d)%nat
      /\ repeat "0"%byte z ++ strconv.digits fuel n acc
         = fixed_decimal d n ++ acc.
Proof.
  induction fuel as [|fuel IH]; intros d n acc Hd Hn; [lia|].
  destruct d as [|d]; [lia|].
  cbn [strconv.digits fixed_decimal]. unfold strconv.digit.
  rewrite <- app_assoc. cbn [app].
  assert (0 <= n / 10 < 10 ^ Z.of_nat d) as Hq.
  { rewrite Nat2Z.inj_succ, Z.pow_succ_r in Hn by lia.
    split; [apply Z.div_pos; lia|].
    apply Z.div_lt_upper_bound; lia. }
  destruct (n / 10 =? 0) eqn:E.
  - apply Z.eqb_eq in E. rewrite E, fixed_decimal_0.
    exists d. split; [lia | reflexivity].
  - apply Z.eqb_neq in E.
    assert (1 <= d)%nat as Hd1.
    { destruct d; [| lia]. cbn in Hq. lia. }
    destruct (IH d (n / 10) (to_byte (48 + n mod 10) :: acc)
                ltac:(lia) Hq) as (z & Hz & Heq).
    exists z. split; [lia | exact Heq].
Qed.

(** The padding loop prepends the missing zeros and returns. *)
Lemma pad_zeros (z : nat) :
  forall (fuel : nat) (code : bytes) (digits : Z),
    (z <= fuel)%nat -> Z.of_nat (length code + z) = digits ->
    totp.pad fuel code digits = Ok (repeat "0"%byte z ++ code).
Proof.
  induction z as [|z IH]; intros fuel code digits Hf Hlen.
  - destruct fuel; cbn [totp.pad];
      (destruct (decide (Z.of_nat (length code) ≠ digits)); [lia|]);
      reflexivity.
  - destruct fuel as [|fuel]; [lia|]. cbn [totp.pad].
    destruct (decide (Z.of_nat (length code) ≠ digits)); [| lia].
    rewrite (IH fuel ("0"%byte :: code) digits) by (cbn [length]; lia).
    change ("0"%byte :: code) with (repeat "0"%byte 1 ++ code).
    rewrite app_assoc, <- repeat_app.
    replace (z + 1)%nat with (S z) by lia. reflexivity.
Qed.

(** With more characters than [digits], the loop never ends. *)
Lemma pad_diverges (fuel : nat) :
  forall (code : bytes) (digits : Z),
    digits < Z.of_nat (length code) -> totp.pad fuel code digits = Diverge.
Proof.
  induction fuel as [|fuel IH]; intros code digits Hlen; cbn [totp.pad];
    (destruct (decide (Z.of_nat (length code) ≠ digits)); [| lia]).
  - reflexivity.
  - apply IH. cbn [length]. lia.
Qed.

(** [Itoa] and the padding loop together: the representation on exactly
    [digits] characters. *)
Lemma pad_Itoa (digits : nat) (n : Z) :
  (1 <= digits <= 20)%nat -> 0 <= n < 10 ^ Z.of_nat digits ->
  totp.pad digits (strconv.Itoa n) (Z.of_nat digits)
  = Ok (fixed_decimal digits n).
Proof.
  intros Hd Hn. unfold strconv.Itoa.
  destruct (n <? 0) eqn:E; [apply Z.ltb_lt in E; lia|].
  destruct (digits_fixed_decimal 20 digits n [] ltac:(lia) Hn)
    as (z & Hz & Heq).
  rewrite app_nil_r in Heq.
  rewrite (pad_zeros z).
  - rewrite Heq. reflexivity.
  - lia.
  - apply (f_equal length) in Heq.
    rewrite length_app, repeat_length, fixed_decimal_length in Heq. lia.
Qed.

Lemma hashName_selects (a : hashAlg) :
  (if decide (hashName a = str "SHA1") then Ok SHA1
   else if decide (hashName a = str "SHA256") then Ok SHA256
   else if decide (hashName a = str "SHA512") then Ok SHA512
   else Err ErrInvalidAlgorithm) = Ok a.
Proof. destruct a; reflexivity. Qed.

(** The four bytes at the offset that the last byte of a digest names. *)
Lemma truncation_window `{CryptoLaws} (a : hashAlg) (secret msg : bytes) :
  let h := hmac a secret msg in
  exists l b0 b1 b2 b3 rest,
    h !! (length h - 1)%nat = Some l
    /\ list.last h = Some l
    /\ Z.to_nat (Z.land (u8 l) 15) = Z.to_nat (u8 l mod 16)
    /\ drop (Z.to_nat (u8 l mod 16)) h = b0 :: b1 :: b2 :: b3 :: rest.
Proof.
  intros h.
  assert (20 <= length h)%nat as Hlen
    by (unfold h; rewrite hmac_length; destruct a; cbn; lia).
  destruct (list.last h) as [l|] eqn:El;
    [| apply last_None in El; rewrite El in Hlen; cbn in Hlen; lia].
  exists l.
  assert (h !! (length h - 1)%nat = Some l) as Hl.
  { rewrite <- El, last_lookup. f_equal. lia. }
  pose proof (Z.mod_pos_bound (u8 l) 16 ltac:(lia)) as Ho.
  set (offset := Z.to_nat (u8 l mod 16)).
  assert (5 <= length (drop offset h))%nat as Hd
    by (rewrite length_drop; unfold offset; lia).
  destruct (drop offset h) as [|b0 [|b1 [|b2 [|b3 rest]]]];
    cbn [length] in Hd; try lia.
  exists b0, b1, b2, b3, rest.
  rewrite land_15. auto.
Qed.

(** [generateOTP] against the reference computation. *)
Lemma generateOTP_reference `{CryptoLaws} (secret : bytes) (a : hashAlg)
    (digits counter : Z) :
  digits = 6 \/ digits = 8 ->
  exists code,
    rfc4226_reference a secret digits counter = Some code
    /\ totp.generateOTP secret (hashName a) digits counter = Ok code
    /\ Z.of_nat (length code) = digits.
Proof.
  intros Hdigits.
  assert (exists d : nat, digits = Z.of_nat d /\ (d = 6 \/ d = 8)%nat)
    as (d & -> & Hd)
    by (exists (Z.to_nat digits); destruct Hdigits as [-> | ->]; lia).
  unfold totp.generateOTP, rfc4226_reference.
  rewrite hashName_selects. cbn [bind].
  rewrite PutUint64_big_endian.
  destruct (truncation_window a secret (big_endian_8 counter))
    as (l & b0 & b1 & b2 & b3 & rest & Hl & Hlast & Hoff & Hdrop).
  rewrite Hl, Hlast, Hoff. cbn [mbind option_bind].
  rewrite Hdrop. cbn [take firstn]. rewrite take_0.
  destruct (decide (Z.of_nat d ≠ 6 ∧ Z.of_nat d ≠ 8)); [lia|].
  rewrite Uint32_add, u8_clear_high_bit, Nat2Z.id.
  set (v := u8 b0 mod 128 * 2 ^ 24 + u8 b1 * 2 ^ 16 + u8 b2 * 2 ^ 8 + u8 b3).
  exists (fixed_decimal d (v mod 10 ^ Z.of_nat d)).
  split; [reflexivity|].
  split; [| rewrite fixed_decimal_length; reflexivity].
  apply pad_Itoa; [lia|].
  apply Z.mod_pos_bound. apply Z.pow_pos_nonneg; lia.
Qed.

(** With other digits, the digits are refused, after the digest. *)
Lemma generateOTP_invalid_digits `{CryptoLaws} (secret : bytes) (a : hashAlg)
    (digits counter : Z) :
  digits ≠ 6 -> digits ≠ 8 ->
  totp.generateOTP secret (hashName a) digits counter = Err ErrInvalidDigits.
Proof.
  intros H6 H8. unfold totp.generateOTP.
  rewrite hashName_selects. cbn [bind].
  destruct (truncation_window a secret
              (binary.PutUint64 (counter mod 2 ^ 64)))
    as (l & b0 & b1 & b2 & b3 & rest & Hl & _ & Hoff & Hdrop).
  rewrite Hl, Hoff, Hdrop. cbn [take firstn]. rewrite take_0.
  destruct (decide (digits ≠ 6 ∧ digits ≠ 8)); [reflexivity | tauto].
Qed.

(** An algorithm is one of the three names, or refused. *)
Lemma generateOTP_algorithm `{CryptoLib} (secret algorithm : bytes)
    (digits counter : Z) :
  (exists a, algorithm = hashName a)
  \/ totp.generateOTP secret algorithm digits counter
     = Err ErrInvalidAlgorithm.
Proof.
  unfold totp.generateOTP.
  destruct (decide (algorithm = str "SHA1")) as [->|_];
    [left; exists SHA1; reflexivity|].
  destruct (decide (algorithm = str "SHA256")) as [->|_];
    [left; exists SHA256; reflexivity|].
  destruct (decide (algorithm = str "SHA512")) as [->|_];
    [left; exists SHA512; reflexivity|].
  right. reflexivity.
Qed.

(** [generateOTP] returns: a code or an error, never a panic and never a
    loop without end. *)
Lemma generateOTP_returns `{CryptoLaws} (secret algorithm : bytes)
    (digits counter : Z) :
  is_Ok (totp.generateOTP secret algorithm digits counter)
  \/ is_Err (totp.generateOTP secret algorithm digits counter).
Proof.
  destruct (generateOTP_algorithm secret algorithm digits counter)
    as [[a ->] | ->]; [| right; eexists; reflexivity].
  destruct (decide (digits = 6 \/ digits = 8)) as [Hd|Hd].
  - destruct (generateOTP_reference secret a digits counter Hd)
      as (code & _ & -> & _).
    left. eexists; reflexivity.
  - rewrite generateOTP_invalid_digits by lia.
    right. eexists; reflexivity.
Qed.

(** C7. For every secret, each of the three hash functions, 6 or 8 digits
    and every counter, [generateOTP] returns the code of the reference
    computation of RFC 4226: the HMAC of the 8-byte big-endian counter,
    truncated at the offset given by the low four bits of its last byte
    to 31 bits, reduced modulo [10^digits] and written on exactly [digits]
    characters with leading zeros. *)
Theorem generateOTP_rfc4226 `{CryptoLaws} (secret : bytes) (a : hashAlg)
    (digits counter : Z) :
  digits = 6 \/ digits = 8 ->
  exists code,
    rfc4226_reference a secret digits counter = Some code
    /\ totp.generateOTP secret (hashName a) digits counter = Ok code
    /\ Z.of_nat (length code) = digits.
Proof. exact (generateOTP_reference secret a digits counter). Qed.

Lemma generateOTP_rfc4226_witness :
  exists code,
    @rfc4226_reference sample_crypto SHA1 (str "secret") 6 1 = Some code
    /\ @totp.generateOTP sample_crypto (str "secret") (str "SHA1") 6 1
       = Ok code
    /\ Z.of_nat (length code) = 6.
Proof.
  apply (@generateOTP_rfc4226 sample_crypto sample_crypto_laws
           (str "secret") SHA1 6 1).
  left. reflexivity.
Defined.

(** The worked example of RFC 4226, section 5.4: the digest
    [1f 86 98 69 0e 02 ca 16 61 85 50 ef 7f 19 da 8e 94 5b 55 5a] is
    truncated at offset 10 to [0x50ef7f19] and gives the code [872921]. *)
Example generateOTP_rfc4226_section_5_4 :
  let digest := map to_byte
    [0x1f; 0x86; 0x98; 0x69; 0x0e; 0x02; 0xca; 0x16; 0x61; 0x85;
     0x50; 0xef; 0x7f; 0x19; 0xda; 0x8e; 0x94; 0x5b; 0x55; 0x5a] in
  let lib := {| blake2b_256 := @blake2b_256 sample_crypto;
                blake2b_512 := @blake2b_512 sample_crypto;
                argon2_IDKey := @argon2_IDKey sample_crypto;
                xchacha20 := @xchacha20 sample_crypto;
                poly1305_tag := @poly1305_tag sample_crypto;
                ed25519_NewKeyFromSeed :=
                  @ed25519_NewKeyFromSeed sample_crypto;
                ed25519_Public := @ed25519_Public sample_crypto;
                ed25519_Sign := @ed25519_Sign sample_crypto;
                ed25519_Verify := @ed25519_Verify sample_crypto;
                hmac := fun _ _ _ => digest |} in
  @totp.generateOTP lib (str "12345678901234567890") (str "SHA1") 6 0
  = Ok (str "872921").
Proof. vm_compute. reflexivity. Qed.

(* ================================================================== *)
(** ** dvx/totp/totp.go: [Verify] *)
(* ================================================================== *)

(** C10. [TOTP.Verify] never returns a non-nil error: it returns
    [(valid, nil)] on every object, code and clock, and [(false, nil)]
    whenever [Generate] fails, as it does on an empty secret, a period
    other than 30, or digits other than 6 and 8. *)
Theorem Verify_never_errors `{CryptoLaws} (t : totp.TOTP) (now : Z)
    (code : bytes) :
  (exists valid, totp.Verify t now code = Ok valid)
  /\ (forall e, totp.Verify t now code ≠ Err e)
  /\ (forall e, totp.Generate t now = Err e ->
                totp.Verify t now code = Ok false)
  /\ (length (totp.Secret t) = 0%nat \/ totp.Period t ≠ 30
        \/ (totp.Digits t ≠ 6 /\ totp.Digits t ≠ 8) ->
      is_Err (totp.Generate t now)
      /\ totp.Verify t now code = Ok false).
Proof.
  assert (is_Ok (totp.Generate t now) \/ is_Err (totp.Generate t now))
    as Hret.
  { unfold totp.Generate.
    destruct (decide (length (totp.Secret t) = 0%nat));
      [right; eexists; reflexivity|].
    destruct (decide (totp.Period t ≠ 30));
      [right; eexists; reflexivity|].
    apply generateOTP_returns. }
  assert (forall e, totp.Generate t now = Err e ->
                    totp.Verify t now code = Ok false) as Hfail
    by (intros e He; unfold totp.Verify; rewrite He; reflexivity).
  assert (exists valid, totp.Verify t now code = Ok valid) as Hok.
  { destruct Hret as [[expected He] | [e He]].
    - unfold totp.Verify. rewrite He. eexists; reflexivity.
    - exists false. exact (Hfail e He). }
  split; [exact Hok|].
  split; [intros e He; destruct Hok as [valid Hv]; congruence|].
  split; [exact Hfail|].
  intros Hbad.
  assert (is_Err (totp.Generate t now)) as [e He].
  { unfold totp.Generate.
    destruct (decide (length (totp.Secret t) = 0%nat));
      [eexists; reflexivity|].
    destruct (decide (totp.Period t ≠ 30)); [eexists; reflexivity|].
    destruct Hbad as [? | [? | [H6 H8]]]; [tauto..|].
    destruct (generateOTP_algorithm (totp.Secret t) (totp.Algorithm t)
                (totp.Digits t) (Z.quot now (totp.Period t)))
      as [[a ->] | ->]; [| eexists; reflexivity].
    rewrite generateOTP_invalid_digits by assumption.
    eexists; reflexivity. }
  split; [exists e; exact He | exact (Hfail e He)].
Qed.

(** A misconfigured object (7 digits) and a wrong code on a well-formed
    one: both are [(false, nil)]. *)
Lemma Verify_never_errors_witness :
  let bad := {| totp.Secret := str "secret"; totp.Algorithm := str "SHA256";
                totp.Digits := 7; totp.Period := 30;
                totp.Issuer := []; totp.AccountName := [] |} in
  let good := {| totp.Secret := str "secret"; totp.Algorithm := str "SHA256";
                 totp.Digits := 6; totp.Period := 30;
                 totp.Issuer := []; totp.AccountName := [] |} in
  @totp.Verify sample_crypto bad 0 (str "123456") = Ok false
  /\ exists valid, @totp.Verify sample_crypto good 0 (str "wrong") = Ok valid.
Proof.
  intros bad good. split.
  - destruct (@Verify_never_errors sample_crypto sample_crypto_laws
                bad 0 (str "123456")) as (_ & _ & _ & Hbad).
    apply Hbad. right. right. cbn. lia.
  - destruct (@Verify_never_errors sample_crypto sample_crypto_laws
                good 0 (str "wrong")) as (Hok & _).
    exact Hok.
Defined.

(* ================================================================== *)
(** ** utils/tearc: [NewCache] *)
(* ================================================================== *)

Lemma sample_cache_laws (V : Type) : @CacheLaws V (sample_cache V).
Proof.
  split.
  - intros a k a' Hget. cbn in Hget. congruence.
  - intros seed k. cbn. apply Z.mod_pos_bound. lia.
Qed.

(** C8, as stated, fails: [size = 0] satisfies [size % shards == 0] and the
    ticks are positive and ordered, yet [NewCache] refuses the size. *)
Lemma NewCache_refuses_size_0 :
  let config := {| tearc.MinTick := 500 * tearc.Millisecond;
                   tearc.MaxTick := 3 * tearc.Second |} in
  constraints 0 4 config
  /\ @tearc.NewCache bytes unit nat (sample_cache bytes) 0 4
       (Some sample_loader) None (Some config) 0 = Err (ErrSize 0)
  /\ ¬ NewCache_decides_constraints 0 4 config.
Proof.
  intros config.
  assert (constraints 0 4 config) as Hc by (vm_compute; intuition congruence).
  split; [exact Hc|]. split; [reflexivity|].
  intros [_ Hok]. destruct (Hok Hc) as [t Ht]. discriminate Ht.
Qed.

Section NewCache.
Context {V I W : Type} `{CacheLib V}.

(** What [NewCache] refuses. *)
Lemma NewCache_refuses (size shards : Z)
    (loader : option (@tearc.LoaderFunc V I W))
    (evicted : option (@tearc.EvictedFunc W))
    (config : option tearc.BucketConfig) (seed : Z) :
  size <= 0 \/ shards <= 0 \/ Z.rem size shards ≠ 0
  \/ loader = None \/ config = None
  \/ (exists c, config = Some c /\ tearc.MinTick c >= tearc.MaxTick c) ->
  is_Err (tearc.NewCache size shards loader evicted config seed).
Proof.
  intros Hbad. unfold tearc.NewCache.
  destruct (decide (size <= 0)); [eexists; reflexivity|].
  destruct (decide (shards <= 0)); [eexists; reflexivity|].
  destruct (decide (Z.rem size shards ≠ 0)); [eexists; reflexivity|].
  destruct loader as [l|]; [| eexists; reflexivity].
  destruct config as [c|]; [| eexists; reflexivity].
  destruct (decide (tearc.MinTick c >= tearc.MaxTick c));
    [eexists; reflexivity|].
  destruct Hbad as [?|[?|[?|[?|[?|(c' & [= <-] & ?)]]]]];
    try lia; try congruence.
Qed.

(** What [NewCache] builds. *)
Lemma NewCache_builds (size shards : Z) (loader : @tearc.LoaderFunc V I W)
    (evicted : option (@tearc.EvictedFunc W)) (config : tearc.BucketConfig)
    (seed : Z) :
  size > 0 -> shards > 0 -> Z.rem size shards = 0 ->
  tearc.MinTick config < tearc.MaxTick config ->
  exists t,
    tearc.NewCache size shards (Some loader) evicted (Some config) seed
    = Ok t
    /\ tearc.size t = size /\ tearc.shards t = shards
    /\ length (tearc.buckets t) = Z.to_nat shards
    /\ Forall (fun b =>
                 tearc.loader b = loader
                 /\ tearc.config b = config
                 /\ tearc.b_arc b = arc_Build (Z.quot size shards)
                 /\ tearc.eq b = []
                 /\ tearc.eqPtrMap b = ∅) (tearc.buckets t).
Proof.
  intros Hsize Hshards Hrem Hticks. unfold tearc.NewCache.
  destruct (decide (size <= 0)); [lia|].
  destruct (decide (shards <= 0)); [lia|].
  destruct (decide (Z.rem size shards ≠ 0)); [congruence|].
  destruct (decide (tearc.MinTick config >= tearc.MaxTick config)); [lia|].
  eexists. split; [reflexivity|]. cbn.
  split; [reflexivity|]. split; [reflexivity|].
  split; [rewrite length_map, length_seq; reflexivity|].
  apply Forall_map, Forall_forall. intros i _. cbn. auto.
Qed.

Lemma NewCache_well_formed (size shards : Z)
    (loader : option (@tearc.LoaderFunc V I W))
    (evicted : option (@tearc.EvictedFunc W))
    (config : option tearc.BucketConfig) (seed : Z) (t : tearc.tearc) :
  tearc.NewCache size shards loader evicted config seed = Ok t ->
  well_formed t.
Proof.
  unfold tearc.NewCache.
  destruct (decide (size <= 0)); [discriminate|].
  destruct (decide (shards <= 0)); [discriminate|].
  destruct (decide (Z.rem size shards ≠ 0)); [discriminate|].
  destruct loader as [l|]; [| discriminate].
  destruct config as [c|]; [| discriminate].
  destruct (decide (tearc.MinTick c >= tearc.MaxTick c)); [discriminate|].
  intros [= <-]. split; cbn; [lia|].
  rewrite length_map, length_seq. reflexivity.
Qed.
End NewCache.

(** C8, amended. [NewCache] returns an error when [size <= 0], when
    [shards <= 0], when [size % shards != 0], when the loader or the
    configuration is nil, and when [MinTick >= MaxTick]; it returns a cache
    of [shards] empty buckets, each with an ARC of [size / shards] entries,
    when [size > 0], [shards > 0], [size % shards == 0], the loader and the
    configuration are given and [0 < MinTick < MaxTick]. *)
Theorem NewCache_checks {V I W : Type} `{CacheLib V} (size shards : Z)
    (loader : option (@tearc.LoaderFunc V I W))
    (evicted : option (@tearc.EvictedFunc W))
    (config : option tearc.BucketConfig) (seed : Z) :
  (size <= 0 \/ shards <= 0 \/ Z.rem size shards ≠ 0
   \/ loader = None \/ config = None
   \/ (exists c, config = Some c /\ tearc.MinTick c >= tearc.MaxTick c) ->
   is_Err (tearc.NewCache size shards loader evicted config seed))
  /\ (forall l c,
        loader = Some l -> config = Some c ->
        size > 0 -> shards > 0 -> Z.rem size shards = 0 ->
        0 < tearc.MinTick c < tearc.MaxTick c ->
        exists t,
          tearc.NewCache size shards loader evicted config seed = Ok t
          /\ tearc.size t = size /\ tearc.shards t = shards
          /\ length (tearc.buckets t) = Z.to_nat shards
          /\ Forall (fun b =>
                       tearc.b_arc b = arc_Build (Z.quot size shards)
                       /\ tearc.eq b = []
                       /\ tearc.eqPtrMap b = ∅) (tearc.buckets t)).
Proof.
  split; [apply NewCache_refuses|].
  intros l c -> -> Hsize Hshards Hrem Hticks.
  destruct (NewCache_builds size shards l evicted c seed
              Hsize Hshards Hrem ltac:(lia))
    as (t & Ht & Hs & Hsh & Hlen & Hb).
  exists t. repeat (split; [assumption|]).
  revert Hb. apply Forall_impl. cbn. tauto.
Qed.

(** The configuration of the package's test is accepted; without a loader
    it is refused. *)
Lemma NewCache_checks_witness :
  let config := {| tearc.MinTick := 500 * tearc.Millisecond;
                   tearc.MaxTick := 3 * tearc.Second |} in
  (exists t,
     @tearc.NewCache bytes unit nat (sample_cache bytes) 1000 4
       (Some sample_loader) None (Some config) 0 = Ok t
     /\ length (tearc.buckets t) = 4%nat)
  /\ is_Err (@tearc.NewCache bytes unit nat (sample_cache bytes) 1000 3
               (Some sample_loader) None (Some config) 0).
Proof.
  intros config. split.
  - destruct (@NewCache_checks bytes unit nat (sample_cache bytes) 1000 4
                (Some sample_loader) None (Some config) 0) as [_ Hok].
    destruct (Hok sample_loader config eq_refl eq_refl
                ltac:(lia) ltac:(lia) eq_refl
                ltac:(vm_compute; split; reflexivity))
      as (t & Ht & _ & _ & Hlen & _).
    exists t. split; [exact Ht | exact Hlen].
  - destruct (@NewCache_checks bytes unit nat (sample_cache bytes) 1000 3
                (Some sample_loader) None (Some config) 0) as [Herr _].
    apply Herr. right. right. left. vm_compute. discriminate.
Defined.

(** A tick that is not positive passes the checks of [NewCache]. *)
Example NewCache_accepts_MinTick_0 :
  is_Ok (@tearc.NewCache bytes unit nat (sample_cache bytes) 1000 4
           (Some sample_loader) None
           (Some {| tearc.MinTick := 0; tearc.MaxTick := 3 * tearc.Second |})
           0).
Proof. eexists. reflexivity. Qed.

(* ================================================================== *)
(** ** container/heap: the loops end *)
(* ================================================================== *)

Lemma bind_returns {A B} (r : result A) (k : A -> result B) :
  r ≠ Diverge -> (forall a, r = Ok a -> k a ≠ Diverge) ->
  bind r k ≠ Diverge.
Proof.
  intros Hr Hk. destruct r; cbn [bind]; try discriminate; auto.
Qed.

Lemma at_index_returns (q : list nat) (i : Z) : tearc.at_index q i ≠ Diverge.
Proof. unfold tearc.at_index. repeat case_match; discriminate. Qed.

Lemma cell_returns (st : tearc.cells) (a : nat) : tearc.cell st a ≠ Diverge.
Proof. unfold tearc.cell. case_match; discriminate. Qed.

Lemma at_index_Ok (q : list nat) (i : Z) (a : nat) :
  tearc.at_index q i = Ok a -> 0 <= i < Z.of_nat (length q).
Proof.
  unfold tearc.at_index. destruct (decide (i < 0)); [discriminate|].
  destruct (q !! Z.to_nat i) eqn:E; [| discriminate].
  intros _. apply lookup_lt_Some in E. lia.
Qed.

Lemma Less_returns (st : tearc.cells) (q : list nat) (i j : Z) :
  tearc.Less st q i j ≠ Diverge.
Proof.
  unfold tearc.Less.
  repeat (apply bind_returns;
          [first [apply at_index_returns | apply cell_returns] | intros ? _]).
  discriminate.
Qed.

Lemma Less_Ok (st : tearc.cells) (q : list nat) (i j : Z) (lt : bool) :
  tearc.Less st q i j = Ok lt ->
  0 <= i < Z.of_nat (length q) /\ 0 <= j < Z.of_nat (length q).
Proof.
  unfold tearc.Less.
  destruct (tearc.at_index q i) eqn:Ei; try discriminate.
  destruct (tearc.at_index q j) eqn:Ej; try discriminate.
  intros _. split; eapply at_index_Ok; eassumption.
Qed.

Lemma Swap_returns (st : tearc.cells) (q : list nat) (i j : Z) :
  tearc.Swap st q i j ≠ Diverge.
Proof.
  unfold tearc.Swap.
  repeat (apply bind_returns;
          [first [apply at_index_returns | apply cell_returns] | intros ? _]).
  discriminate.
Qed.

(** [up] leaves its loop: with fuel above [j] it never runs out of it. *)
Lemma up_returns (fuel : nat) :
  forall (st : tearc.cells) (q : list nat) (j : Z),
    j <= Z.of_nat fuel -> tearc.up fuel st q j ≠ Diverge.
Proof.
  induction fuel as [|fuel IH]; intros st q j Hj; cbn [tearc.up];
    (destruct (decide (Z.quot (j - 1) 2 = j)) as [|Hne]; [discriminate|]);
    (apply bind_returns; [apply Less_returns | intros lt Hless]);
    apply Less_Ok in Hless as [Hj0 _];
    (assert (0 < j) as Hpos
       by (destruct (decide (j = 0)) as [->|]; [vm_compute in Hne|]; lia)).
  - lia.
  - destruct lt; cbn [negb]; [| discriminate].
    apply bind_returns; [apply Swap_returns | intros [st' q'] _].
    apply IH.
    assert (Z.quot (j - 1) 2 <= j - 1); [| lia].
    rewrite Z.quot_div_nonneg by lia.
    apply Z.div_le_upper_bound; lia.
Qed.

(** [down] leaves its loop: each round moves [i] to a child, below [n]. *)
Lemma down_returns (fuel : nat) :
  forall (st : tearc.cells) (q : list nat) (i n : Z),
    n - i <= Z.of_nat fuel \/ i < 0 ->
    tearc.down fuel st q i n ≠ Diverge.
Proof.
  induction fuel as [|fuel IH]; intros st q i n Hfuel; cbn [tearc.down];
    (destruct (decide (2 * i + 1 >= n ∨ 2 * i + 1 < 0)) as [|Hin];
       [discriminate|]);
    (apply bind_returns;
       [destruct (decide (2 * i + 1 + 1 < n));
          [apply bind_returns; [apply Less_returns | discriminate]
          | discriminate]
       | intros j Hj]);
    (assert (i < j)
       by (destruct (decide (2 * i + 1 + 1 < n));
             [destruct (tearc.Less st q (2 * i + 1 + 1) (2 * i + 1))
                as [[]| | |]; cbn [bind] in Hj; try discriminate
             |]; injection Hj as <-; lia));
    (assert (j < n)
       by (destruct (decide (2 * i + 1 + 1 < n));
             [destruct (tearc.Less st q (2 * i + 1 + 1) (2 * i + 1))
                as [[]| | |]; cbn [bind] in Hj; try discriminate
             |]; injection Hj as <-; lia));
    (apply bind_returns; [apply Less_returns | intros lt _]);
    (destruct lt; cbn [negb]; [| discriminate]);
    (apply bind_returns; [apply Swap_returns | intros [st' q'] _]).
  - lia.
  - apply IH. lia.
Qed.

(** [heap.Push] and [heap.Fix] return or panic; they do not loop. *)
Lemma heap_Push_returns (st : tearc.cells) (q : list nat) (x : nat) :
  tearc.heap_Push st q x ≠ Diverge.
Proof.
  unfold tearc.heap_Push.
  apply bind_returns.
  - unfold tearc.Push.
    apply bind_returns; [apply cell_returns | discriminate].
  - intros [st1 q1] _. apply up_returns. unfold tearc.Len. lia.
Qed.

Lemma heap_Fix_returns (st : tearc.cells) (q : list nat) (i : Z) :
  tearc.heap_Fix st q i ≠ Diverge.
Proof.
  unfold tearc.heap_Fix.
  apply bind_returns.
  - apply down_returns. unfold tearc.Len. lia.
  - intros [[st1 q1] i'] Hdown.
    destruct (decide (i' > i)); [discriminate|].
    destruct (decide (i < Z.of_nat (length q1))).
    + apply up_returns. lia.
    + destruct (length q1) eqn:E; cbn [tearc.up].
      * destruct (decide (Z.quot (i - 1) 2 = i)); [discriminate|].
        apply bind_returns; [apply Less_returns | intros lt Hl].
        apply Less_Ok in Hl. rewrite E in Hl. lia.
      * destruct (decide (Z.quot (i - 1) 2 = i)); [discriminate|].
        apply bind_returns; [apply Less_returns | intros lt Hl].
        apply Less_Ok in Hl. rewrite E in Hl. lia.
Qed.

(* ================================================================== *)
(** ** utils/tearc: a loader that fails *)
(* ================================================================== *)

Section LoaderFailure.
Context {V I W : Type} `{CacheLaws V}.

Lemma with_arc_same (b : @tearc.bucket V I W _) :
  tearc.with_arc b (tearc.b_arc b) = b.
Proof. destruct b. reflexivity. Qed.

(** [loadAndSet] returns before it touches the bucket. *)
Lemma loadAndSet_loader_error (b : @tearc.bucket V I W _) (key : bytes)
    (loadInfo : I) (w w' : W) (now : Z) (value : V) (evictIn : Z)
    (e : error) :
  tearc.loader b key loadInfo w = (w', (value, evictIn, Some e)) ->
  tearc.loadAndSet b key loadInfo w now = (b, w', Err (ErrLoadWrap e)).
Proof.
  intros Hload. unfold tearc.loadAndSet. rewrite Hload. reflexivity.
Qed.

Lemma bucket_Get_loader_error (b : @tearc.bucket V I W _) (key : bytes)
    (loadInfo : I) (w w' : W) (now : Z) (value : V) (evictIn : Z)
    (e : error) :
  (arc_Get (tearc.b_arc b) key).2 = KeyNotFound ->
  tearc.loader b key loadInfo w = (w', (value, evictIn, Some e)) ->
  tearc.bucket_Get b key loadInfo w now
  = (b, w', Err (ErrLoadWrap e), None).
Proof.
  intros Hmiss Hload. unfold tearc.bucket_Get.
  destruct (arc_Get (tearc.b_arc b) key) as [a' r] eqn:Hget.
  cbn in Hmiss. subst r.
  apply arc_Get_miss in Hget. subst a'.
  rewrite with_arc_same.
  rewrite (loadAndSet_loader_error b key loadInfo w w' now value evictIn e
             Hload).
  reflexivity.
Qed.

(** The bucket of a key exists. *)
Lemma jump_bucket (t : @tearc.tearc V I W _) (key : bytes) :
  well_formed t ->
  exists b, tearc.buckets t !! Z.to_nat (tearc.jump t key) = Some b.
Proof.
  intros [Hpos Hlen]. apply lookup_lt_is_Some_2. rewrite Hlen.
  unfold tearc.jump.
  pose proof (Z.mod_pos_bound (maphash_Sum64 (tearc.jumpSeed t) key)
                (tearc.shards t) Hpos).
  lia.
Qed.

Lemma Get_loader_error (t : @tearc.tearc V I W _) (b : tearc.bucket)
    (key : bytes) (loadInfo : I) (w w' : W) (now : Z) (value : V)
    (evictIn : Z) (e : error) :
  tearc.buckets t !! Z.to_nat (tearc.jump t key) = Some b ->
  (arc_Get (tearc.b_arc b) key).2 = KeyNotFound ->
  tearc.loader b key loadInfo w = (w', (value, evictIn, Some e)) ->
  tearc.Get t key loadInfo w now = (t, w', Err (ErrLoadWrap e), None).
Proof.
  intros Hb Hmiss Hload. unfold tearc.Get. rewrite Hb.
  rewrite (bucket_Get_loader_error b key loadInfo w w' now value evictIn e
             Hmiss Hload).
  rewrite list_insert_id by exact Hb.
  destruct t. reflexivity.
Qed.
End LoaderFailure.

(** C9. When the lookup of a key misses and the loader returns an error,
    [Get] returns that error (wrapped with [%w]) and nothing is inserted:
    the ARC cache, the eviction heap with its items, and the map from keys
    to heap items are the same after the call, in the bucket and so in the
    whole cache; no goroutine is started. *)
Theorem Get_loader_failure {V I W : Type} `{CacheLaws V}
    (t : @tearc.tearc V I W _) (key : bytes) (loadInfo : I) (w : W)
    (now : Z) :
  well_formed t ->
  exists b,
    tearc.buckets t !! Z.to_nat (tearc.jump t key) = Some b
    /\ forall w' value evictIn e,
         (arc_Get (tearc.b_arc b) key).2 = KeyNotFound ->
         tearc.loader b key loadInfo w = (w', (value, evictIn, Some e)) ->
         tearc.Get t key loadInfo w now
         = (t, w', Err (ErrLoadWrap e), None)
         /\ Unwrap (ErrLoadWrap e) = Some e
         /\ tearc.bucket_Get b key loadInfo w now
            = (b, w', Err (ErrLoadWrap e), None)
         /\ tearc.loadAndSet b key loadInfo w now
            = (b, w', Err (ErrLoadWrap e)).
Proof.
  intros Hwf. destruct (jump_bucket t key Hwf) as [b Hb].
  exists b. split; [exact Hb|].
  intros w' value evictIn e Hmiss Hload.
  split; [exact (Get_loader_error t b key loadInfo w w' now value evictIn e
                   Hb Hmiss Hload)|].
  split; [reflexivity|].
  split; [exact (bucket_Get_loader_error b key loadInfo w w' now value
                   evictIn e Hmiss Hload)|].
  exact (loadAndSet_loader_error b key loadInfo w w' now value evictIn e
           Hload).
Qed.

(** After [Get("key1")], a [Get] of an unknown key fails in the loader and
    leaves the cache, with its entry for ["key1"], as it was. *)
Lemma Get_loader_failure_witness :
  @tearc.Get bytes unit nat (sample_cache bytes)
    sample_tearc_key1 (str "key3") tt 1%nat (2 * tearc.Second)
  = (sample_tearc_key1, 2%nat,
     Err (ErrLoadWrap (ErrExternal "unknown key")), None).
Proof.
  assert (well_formed sample_tearc_key1) as Hwf
    by (split; vm_compute; reflexivity).
  destruct (@Get_loader_failure bytes unit nat (sample_cache bytes)
              (sample_cache_laws bytes) sample_tearc_key1 (str "key3") tt
              1%nat (2 * tearc.Second) Hwf) as (b & Hb & Hfail).
  destruct (Hfail 2%nat [] 0 (ErrExternal "unknown key")) as (Hget & _).
  - replace (arc_Get (tearc.b_arc b) (str "key3")).2
      with (from_option
              (fun b : @tearc.bucket bytes unit nat (sample_cache bytes) =>
                 (arc_Get (tearc.b_arc b) (str "key3")).2)
              KeyNotFound
              (tearc.buckets sample_tearc_key1
                 !! Z.to_nat (tearc.jump sample_tearc_key1 (str "key3"))))
      by (rewrite Hb; reflexivity).
    vm_compute. reflexivity.
  - replace (tearc.loader b (str "key3") tt 1%nat)
      with (from_option
              (fun b : @tearc.bucket bytes unit nat (sample_cache bytes) =>
                 tearc.loader b (str "key3") tt 1%nat)
              (0%nat, ([], 0, None))
              (tearc.buckets sample_tearc_key1
                 !! Z.to_nat (tearc.jump sample_tearc_key1 (str "key3"))))
      by (rewrite Hb; reflexivity).
    vm_compute. reflexivity.
  - exact Hget.
Defined.

(** The first steps of the package's test: two loads, then a hit that
    calls no loader and starts the goroutine that slides the deadline.
    Both keys are in the heap and in the map of their bucket. *)
Example TestSimple_loads_and_hit :
  let '(t1, w1, r1, g1) :=
    @tearc.Get bytes unit nat (sample_cache bytes)
      sample_tearc (str "key1") tt 0%nat 0 in
  let '(t2, w2, r2, g2) := tearc.Get t1 (str "key2") tt w1 0 in
  let '(t3, w3, r3, g3) := tearc.Get t2 (str "key2") tt w2 7 in
  r1 = Ok (str "private key 1") /\ w1 = 1%nat /\ g1 = None
  /\ r2 = Ok (str "private key 2") /\ w2 = 2%nat /\ g2 = None
  /\ r3 = Ok (str "private key 2") /\ w3 = 2%nat
  /\ g3 = Some {| tearc.slide_key := str "key2";
                  tearc.slide_evictionTime := 7 + 60 * tearc.Second |}
  /\ map (fun b => (tearc.eq b, size (tearc.eqPtrMap b),
                    tearc.eqPtrMap b !! str "key1",
                    tearc.eqPtrMap b !! str "key2")) (tearc.buckets t3)
     = [([0%nat; 1%nat], 2%nat, Some 0%nat, Some 1%nat);
        ([], 0%nat, None, None); ([], 0%nat, None, None);
        ([], 0%nat, None, None)].
Proof. vm_compute. repeat split. Qed.

(* ================================================================== *)
(** ** dvx/encoding.go: what [Decode] accepts *)
(* ================================================================== *)

Lemma SplitN_3_inv (s a b c : bytes) (sep : byte) :
  strs.SplitN s sep 3 = [a; b; c] ->
  s = a ++ sep :: b ++ sep :: c /\ (sep ∉ a) /\ (sep ∉ b).
Proof.
  cbn [strs.SplitN strs.genSplit].
  destruct (strs.IndexByte s sep) as [m|] eqn:E1; [| discriminate].
  destruct (strs.IndexByte (drop (S m) s) sep) as [k|] eqn:E2;
    [| discriminate].
  intros [= <- <- <-].
  apply IndexByte_Some in E1 as (Hs & Hnot1 & _).
  apply IndexByte_Some in E2 as (Hr & Hnot2 & _).
  split; [| split; assumption].
  rewrite <- Hr. exact Hs.
Qed.

Lemma Decode_returns (s : bytes) : is_Ok (Decode s) \/ is_Err (Decode s).
Proof.
  unfold Decode.
  destruct (strs.SplitN s "."%byte 3) as [|a [|b [|c [|? ?]]]];
    try (right; eexists; reflexivity).
  repeat case_match; try (right; eexists; reflexivity).
  left. eexists; reflexivity.
Qed.

(** [Decode] succeeds exactly on the strings [dv1.<prefix>.<data>] with one
    of the four prefixes and data that the base64url decoder accepts, and
    returns the decoded data. *)
Theorem Decode_Ok_iff (s version typePrefix data : bytes) :
  Decode s = Ok (version, typePrefix, data)
  <-> version = str "dv1"
      /\ typePrefix ∈ [Encrypted; Signed; Tagged; TOTP]
      /\ exists data64,
           s = str "dv1" ++ str "." ++ typePrefix ++ str "." ++ data64
           /\ base64.DecodeString base64.RawURLEncoding data64 = Some data.
Proof.
  split.
  - intros Hdec. unfold Decode in Hdec.
    destruct (strs.SplitN s "."%byte 3) as [|a [|b [|c [|? ?]]]] eqn:Hs;
      try discriminate.
    apply SplitN_3_inv in Hs as (Hs & _ & _).
    destruct (decide (a ≠ str "dv1")) as [|Ha]; [discriminate|].
    destruct (decide (b ≠ Encrypted ∧ b ≠ Signed ∧ b ≠ Tagged ∧ b ≠ TOTP))
      as [|Hb]; [discriminate|].
    destruct (base64.DecodeString base64.RawURLEncoding c) as [d|] eqn:Hc;
      [| discriminate].
    injection Hdec as <- <- <-.
    assert (a = str "dv1") as ->
      by (destruct (decide (a = str "dv1")); [assumption | contradiction]).
    split; [reflexivity|]. split; [apply typePrefix_known, Hb|].
    exists c. split; [exact Hs | exact Hc].
  - intros (-> & Ht & data64 & -> & Hdata).
    destruct (Decode_accepts typePrefix data64 Ht) as (d & Hd & Hdec).
    + apply (DecodeString_Some_iff _ RawURLEncoding_newlines). eauto.
    + rewrite Hdec. congruence.
Qed.

(** Every character that [EncodeToString] writes is of the alphabet. *)
Lemma EncodeToString_alphabet (enc : base64.Encoding) (x : bytes) :
  alphabet_ok enc -> Forall (in_alphabet enc) (base64.EncodeToString enc x).
Proof.
  intros Henc.
  assert (forall val sh, 0 <= sh ->
            in_alphabet enc (base64.encode_at enc (base64.sextet val sh)))
    as Hc.
  { intros val sh Hsh. unfold in_alphabet.
    rewrite (decodeMap_sextet enc Henc) by exact Hsh.
    pose proof (sextet_range val sh Hsh). lia. }
  induction x as [|b0|b0 b1|b0 b1 b2 rest IH] using list_ind3;
    cbn [base64.EncodeToString].
  - constructor.
  - repeat constructor; apply Hc; lia.
  - repeat constructor; apply Hc; lia.
  - apply Forall_app. split; [| exact IH].
    repeat constructor; apply Hc; lia.
Qed.

Lemma EncodeToString_no_dot (x : bytes) :
  "."%byte ∉ base64.EncodeToString base64.RawURLEncoding x.
Proof.
  intros Hin.
  pose proof (EncodeToString_alphabet _ x RawURLEncoding_ok) as HF.
  rewrite list.Forall_forall in HF.
  apply (proj1 dot_invalid_base64url), HF, Hin.
Qed.

(** A text that the decoder accepts holds no ['.']. *)
Lemma DecodeString_no_dot (data64 data : bytes) :
  base64.DecodeString base64.RawURLEncoding data64 = Some data ->
  "."%byte ∉ data64.
Proof.
  intros Hdec Hin. unfold base64.DecodeString in Hdec.
  rewrite (decode_bad_byte base64.RawURLEncoding "."%byte data64 Hin
             (proj1 dot_invalid_base64url) (proj2 dot_invalid_base64url))
    in Hdec.
  discriminate Hdec.
Qed.

(** A string is cut in one way at its last separator. *)
Lemma app_sep_inj (sep : byte) (a a' c c' : bytes) :
  sep ∉ c -> sep ∉ c' -> a ++ sep :: c = a' ++ sep :: c' ->
  a = a' /\ c = c'.
Proof.
  intros Hc Hc' Heq.
  apply (f_equal (@rev byte)) in Heq.
  rewrite !rev_app_distr in Heq. cbn [rev] in Heq.
  rewrite <- !app_assoc in Heq. cbn [app] in Heq.
  assert (sep ∉ rev c) as Hr by (rewrite list_elem_of_In, <- in_rev,
                                   <- list_elem_of_In; exact Hc).
  assert (sep ∉ rev c') as Hr' by (rewrite list_elem_of_In, <- in_rev,
                                     <- list_elem_of_In; exact Hc').
  pose proof (IndexByte_app (rev c) (rev a) sep Hr) as E1.
  pose proof (IndexByte_app (rev c') (rev a') sep Hr') as E2.
  rewrite Heq in E1. rewrite E1 in E2. injection E2 as Hlen.
  apply app_inj_1 in Heq as [Hrc Hra]; [| exact Hlen].
  injection Hra as Hra.
  split; apply rev_inj; assumption.
Qed.

(** [Encode] is injective: the envelope determines the type prefix and the
    data (the encoded data holds no ['.'], so the last ['.'] of the
    envelope is the one before the data). *)
Theorem Encode_injective (t t' : TypePrefix) (x x' : bytes) :
  Encode t x = Encode t' x' -> t = t' /\ x = x'.
Proof.
  unfold Encode. change (str ".") with ["."%byte]. cbn [app].
  intros Heq. apply app_inv_head in Heq. injection Heq as Heq.
  apply app_sep_inj in Heq as [Ht Hx]; try apply EncodeToString_no_dot.
  split; [exact Ht|].
  apply (f_equal (base64.DecodeString base64.RawURLEncoding)) in Hx.
  rewrite !DecodeString_EncodeToString in Hx by apply RawURLEncoding_ok.
  congruence.
Qed.

Lemma Encode_injective_witness :
  Signed = Signed /\ str "message" = str "message".
Proof.
  exact (Encode_injective Signed Signed (str "message") (str "message")
           eq_refl).
Defined.

(** A type prefix outside the four is written by [Encode] and refused by
    [Decode]. *)
Theorem Decode_Encode_unknown (t : TypePrefix) (x : bytes) :
  t ∉ [Encrypted; Signed; Tagged; TOTP] -> is_Err (Decode (Encode t x)).
Proof.
  intros Ht.
  destruct (Decode_returns (Encode t x)) as [[[[v t0] d] Hok] | Herr];
    [| exact Herr].
  exfalso. unfold Decode in Hok.
  destruct (strs.SplitN (Encode t x) "."%byte 3)
    as [|a [|b [|c [|? ?]]]] eqn:Hs; try discriminate.
  apply SplitN_3_inv in Hs as (Hs & _ & _).
  destruct (decide (a ≠ str "dv1")) as [|Ha]; [discriminate|].
  destruct (decide (b ≠ Encrypted ∧ b ≠ Signed ∧ b ≠ Tagged ∧ b ≠ TOTP))
    as [|Hb]; [discriminate|].
  destruct (base64.DecodeString base64.RawURLEncoding c) as [d'|] eqn:Hc;
    [| discriminate].
  assert (a = str "dv1") as ->
    by (destruct (decide (a = str "dv1")); [assumption | contradiction]).
  unfold Encode in Hs. change (str ".") with ["."%byte] in Hs.
  cbn [app] in Hs. apply app_inv_head in Hs. injection Hs as Hs.
  apply app_sep_inj in Hs as [<- _];
    [| apply EncodeToString_no_dot | eapply DecodeString_no_dot, Hc].
  apply Ht, typePrefix_known, Hb.
Qed.

Lemma Decode_Encode_unknown_witness :
  is_Err (Decode (Encode (str "key") (str "data"))).
Proof.
  apply (Decode_Encode_unknown (str "key") (str "data")). compute_done.
Defined.

(** [DecodeExpect] on an envelope of one of the four types: the data when
    the expected type is the envelope's, the error of the wrong type
    otherwise. *)
Theorem DecodeExpect_Encode_cases (t expected : TypePrefix) (x : bytes) :
  t ∈ [Encrypted; Signed; Tagged; TOTP] ->
  DecodeExpect (Encode t x) expected
  = if decide (t = expected) then Ok (str "dv1", x)
    else Err ErrIncorrectTypePrefix.
Proof.
  intros Ht. unfold DecodeExpect.
  rewrite Decode_Encode_known by exact Ht. cbn [bind].
  destruct (decide (t ≠ expected)), (decide (t = expected));
    try reflexivity; contradiction.
Qed.

Lemma DecodeExpect_Encode_cases_witness :
  DecodeExpect (Encode Tagged (str "mac")) Encrypted
  = Err ErrIncorrectTypePrefix.
Proof.
  rewrite (DecodeExpect_Encode_cases Tagged Encrypted (str "mac"))
    by compute_done.
  reflexivity.
Defined.

(* ================================================================== *)
(** ** dvx/dv1.go: what [Decrypt] accepts *)
(* ================================================================== *)

Lemma sample_ed25519_laws : @Ed25519Laws sample_crypto.
Proof.
  split; cbn.
  - intros seed Hs. rewrite length_app. lia.
  - intros priv Hp. rewrite length_drop. lia.
  - intros priv msg _. apply fill_length.
  - intros seed msg Hs. apply bool_decide_eq_true.
    rewrite drop_app_length' by (symmetry; exact Hs). reflexivity.
Qed.

(** Whatever [Encrypt] returns, [Decrypt] under the same key opens. *)
Lemma Decrypt_of_Encrypt `{CryptoLaws} (key data rand blob : bytes) :
  DV1.Encrypt key data rand = Ok blob -> DV1.Decrypt key blob = Ok data.
Proof.
  unfold DV1.Encrypt, DV1.Decrypt, ReadFull.
  destruct (decide (length key ≠ chacha20poly1305.KeySize));
    [discriminate|].
  unfold chacha20poly1305.NonceSizeX.
  destruct (decide (24 <= length rand)%nat) as [Hr|]; [| discriminate].
  intros [= <-].
  assert (length (take 24 rand) = 24%nat) as Hn
    by (rewrite length_take; lia).
  destruct (decide (length (take 24 rand ++ _) < 24)%nat) as [Hlt|_];
    [rewrite length_app in Hlt; lia|].
  rewrite take_app_length' by (symmetry; exact Hn).
  rewrite drop_app_length' by (symmetry; exact Hn).
  rewrite Open_Seal. reflexivity.
Qed.

(** [Decrypt] returns data only for a key of 32 bytes and a blob that is
    the nonce, the ciphertext and the tag that [Encrypt] writes for this
    data under this nonce: the blob is 40 bytes longer than the data, and
    a blob below 40 bytes is never opened. *)
Theorem Decrypt_Ok_inv `{CryptoLaws} (key blob data : bytes) :
  DV1.Decrypt key blob = Ok data ->
  length key = 32%nat
  /\ length blob = (24 + length data + 16)%nat
  /\ DV1.Encrypt key data (take 24 blob) = Ok blob.
Proof.
  unfold DV1.Decrypt, chacha20poly1305.KeySize, chacha20poly1305.NonceSizeX.
  destruct (decide (length key ≠ 32%nat)) as [|Hk]; [discriminate|].
  destruct (decide (length blob < 24)%nat) as [|Hb]; [discriminate|].
  set (nonce := take 24 blob). set (enc := drop 24 blob).
  unfold chacha20poly1305.Open, chacha20poly1305.Overhead.
  destruct (decide (length enc < 16)%nat) as [|He]; [discriminate|].
  destruct (decide _) as [Htag|]; [| discriminate].
  intros [= <-].
  assert (length key = 32%nat) as Hkey by lia.
  assert (length enc = (length blob - 24)%nat) as Henc
    by (unfold enc; apply length_drop).
  split; [exact Hkey|].
  split; [rewrite xchacha20_length, length_take; lia|].
  unfold DV1.Encrypt, ReadFull,
    chacha20poly1305.KeySize, chacha20poly1305.NonceSizeX.
  destruct (decide (length key ≠ 32%nat)); [contradiction|].
  assert (take 24 nonce = nonce) as Hnn
    by (unfold nonce; rewrite take_take; f_equal; lia).
  destruct (decide (24 <= length nonce)%nat) as [_|Hn];
    [| unfold nonce in Hn; rewrite length_take in Hn; lia].
  rewrite Hnn. unfold chacha20poly1305.Seal.
  rewrite xchacha20_involutive, Htag, take_drop.
  unfold nonce, enc. rewrite take_drop. reflexivity.
Qed.

Lemma Decrypt_Ok_inv_witness :
  let key := repeat "k"%byte 32 in
  let blob := repeat "n"%byte 24 ++ str "data"
              ++ fill 16 (str "data" ++ str "dv1" ++ repeat "n"%byte 24 ++ key)
  in
  length blob = (24 + length (str "data") + 16)%nat.
Proof.
  intros key blob.
  destruct (@Decrypt_Ok_inv sample_crypto sample_crypto_laws key blob
              (str "data") ltac:(vm_compute; reflexivity)) as (_ & Hlen & _).
  exact Hlen.
Defined.

(* ================================================================== *)
(** ** dvx/keypool.go: the pool and the caller's buffer *)
(* ================================================================== *)

(** The software pool reads the root key through the slice it was given:
    what it derives follows the current content of the caller's buffer.
    With 64 bytes there, the keys have 32 and 64 bytes; with any other
    content, or without a buffer, both derivations fail on the key
    length. *)
Theorem dvxWrapper_follows_buffer `{CryptoLaws} (rootKey : option nat)
    (m : memory) (keyRing : bytes) :
  let d := WrapDVXAsKeyPool DV1.primitive rootKey in
  let root := deref m rootKey in
  (length root = 64%nat ->
   dvxWrapper.KDF32 d m keyRing = Ok (blake2b_256 root keyRing)
   /\ dvxWrapper.KDF64 d m keyRing = Ok (blake2b_512 root keyRing)
   /\ length (blake2b_256 root keyRing) = 32%nat
   /\ length (blake2b_512 root keyRing) = 64%nat)
  /\ (length root ≠ 64%nat ->
      dvxWrapper.KDF32 d m keyRing = Err ErrMacKeyLen
      /\ dvxWrapper.KDF64 d m keyRing = Err ErrMacKeyLen)
  /\ (forall a root', rootKey = Some a ->
        deref (<[a := root']> m) rootKey = root').
Proof.
  intros d root.
  unfold dvxWrapper.KDF32, dvxWrapper.KDF64, dvxWrapper.kdf. cbn.
  fold root. unfold DV1.MAC256, DV1.MAC512.
  repeat split.
  - destruct (decide (length root ≠ 64%nat)); [contradiction | reflexivity].
  - destruct (decide (length root ≠ 64%nat)); [contradiction | reflexivity].
  - apply blake2b_256_length.
  - apply blake2b_512_length.
  - destruct (decide (length root ≠ 64%nat)); [reflexivity | contradiction].
  - destruct (decide (length root ≠ 64%nat)); [reflexivity | contradiction].
  - intros a root' ->. cbn. rewrite lookup_insert_eq. reflexivity.
Qed.

(** A caller that overwrites its buffer with zeros after it built the pool:
    the pool then derives from the zero key. *)
Lemma dvxWrapper_follows_buffer_witness :
  let d := WrapDVXAsKeyPool (@DV1.primitive sample_crypto) (Some 0%nat) in
  let m : memory := {[ 0%nat := repeat "k"%byte 64 ]} in
  dvxWrapper.KDF32 d (<[0%nat := repeat x00 64]> m) (str "ring")
  = Ok (fill 32 (str "ring" ++ repeat x00 64)).
Proof.
  intros d m.
  destruct (@dvxWrapper_follows_buffer sample_crypto sample_crypto_laws
              (Some 0%nat) (<[0%nat := repeat x00 64]> m) (str "ring"))
    as (Hok & _ & _).
  destruct (Hok ltac:(vm_compute; reflexivity)) as (H32 & _).
  exact H32.
Defined.

(* ================================================================== *)
(** ** dvx/protocol.go: how the operations compose *)
(* ================================================================== *)

Section ProtocolFacts.
Context `{CryptoLaws}.

Lemma keys_at_Some (p : Protocol.t) (pool : KeyPool) (version : bytes) :
  Protocol.keys p !! version = Some pool ->
  Protocol.keys_at p version = Ok pool.
Proof. intros Hp. unfold Protocol.keys_at. rewrite Hp. reflexivity. Qed.

Lemma keys_at_None (p : Protocol.t) (version : bytes) :
  Protocol.keys p !! version = None -> Protocol.keys_at p version = Panic.
Proof. intros Hp. unfold Protocol.keys_at. rewrite Hp. reflexivity. Qed.

Lemma dv1_is_dv1 {A} (x y : A) :
  (if decide (str "dv1" = str "dv1") then x else y) = x.
Proof. destruct (decide (str "dv1" = str "dv1")); congruence. Qed.
End ProtocolFacts.

(** What [Protocol.Encrypt] returns, [Protocol.Decrypt] under the same
    keyRing turns back into the data, whenever the pool derives a key of
    32 bytes and the random source gives the nonce. *)
Theorem Protocol_Decrypt_Encrypt `{CryptoLaws} (p : Protocol.t)
    (pool : KeyPool) (keyRing data rand key : bytes) :
  Protocol.keys p !! Version = Some pool ->
  KDF32 pool (Protocol.keyRingToBytes p keyRing) = Ok key ->
  length key = 32%nat -> (24 <= length rand)%nat ->
  exists ciphertext,
    Protocol.Encrypt p keyRing data rand = Ok ciphertext
    /\ Protocol.Decrypt p keyRing ciphertext = Ok data.
Proof.
  intros Hpool Hkdf Hlen Hrand.
  destruct (DV1.Encrypt key data rand) as [blob| | |] eqn:Henc.
  2-4: exfalso; revert Henc;
       unfold DV1.Encrypt, ReadFull, chacha20poly1305.KeySize,
         chacha20poly1305.NonceSizeX;
       (destruct (decide (length key ≠ 32%nat)); [contradiction|]);
       (destruct (decide (24 <= length rand)%nat); [| lia]);
       discriminate.
  exists (Encode Encrypted blob). split.
  - unfold Protocol.Encrypt.
    rewrite (keys_at_Some p pool Version Hpool). cbn [bind].
    rewrite Hkdf. cbn [bind]. rewrite Henc. reflexivity.
  - unfold Protocol.Decrypt.
    rewrite DecodeExpect_Encode by compute_done. cbn [bind].
    unfold Protocol.decrypt. rewrite dv1_is_dv1.
    rewrite (keys_at_Some p pool (str "dv1") Hpool). cbn [bind].
    rewrite Hkdf. cbn [bind].
    rewrite (Decrypt_of_Encrypt key data rand blob Henc). reflexivity.
Qed.

Lemma Protocol_Decrypt_Encrypt_witness :
  exists ciphertext,
    @Protocol.Encrypt sample_crypto sample_protocol (str "keyring")
      (str "data_a") (repeat "n"%byte 24) = Ok ciphertext
    /\ @Protocol.Decrypt sample_crypto sample_protocol (str "keyring")
         ciphertext = Ok (str "data_a").
Proof.
  apply (@Protocol_Decrypt_Encrypt sample_crypto sample_crypto_laws
           sample_protocol sample_pool (str "keyring") (str "data_a")
           (repeat "n"%byte 24)
           (fill 32 (str "keyring" ++ repeat "k"%byte 64))).
  - apply lookup_singleton_eq.
  - reflexivity.
  - apply fill_length.
  - cbn. lia.
Defined.

(** A signature made by [Protocol.Sign] is accepted by [Protocol.Verify]
    under the same keyRing, and by [VerifyPK] (on any protocol object,
    with or without pools) under the public key of [CreateSignKey]. *)
Theorem Protocol_Verify_Sign `{CryptoLaws} `{!Ed25519Laws}
    (p p' : Protocol.t) (pool : KeyPool) (keyRing message seed : bytes) :
  Protocol.keys p !! Version = Some pool ->
  KDF32 pool (Protocol.keyRingToBytes p keyRing) = Ok seed ->
  length seed = 32%nat ->
  exists signature rawSignature publicKey,
    Protocol.Sign p keyRing message = Ok (signature, rawSignature)
    /\ signature = Encode Signed rawSignature
    /\ length rawSignature = 64%nat
    /\ Protocol.Verify p keyRing message signature = Ok true
    /\ Protocol.CreateSignKey p keyRing = Ok publicKey
    /\ length publicKey = 32%nat
    /\ Protocol.VerifyPK p' publicKey message signature = Ok true.
Proof.
  intros Hpool Hkdf Hlen.
  set (priv := ed25519_NewKeyFromSeed seed).
  assert (length priv = 64%nat) as Hpriv
    by (apply NewKeyFromSeed_length, Hlen).
  assert (Protocol.deriveSignKey p (Protocol.keyRingToBytes p keyRing)
            (str "dv1") = Ok priv) as Hderive.
  { unfold Protocol.deriveSignKey. rewrite dv1_is_dv1.
    rewrite (keys_at_Some p pool Version Hpool). cbn [bind].
    rewrite Hkdf. cbn [bind]. unfold ed25519.NewKeyFromSeed.
    destruct (decide (length seed ≠ 32%nat)); [contradiction | reflexivity]. }
  assert (ed25519.Public priv = Ok (ed25519_Public priv)) as Hpub.
  { unfold ed25519.Public.
    destruct (decide (length priv < 32)%nat); [lia | reflexivity]. }
  assert (DV1.Verify (ed25519_Public priv) message
            (ed25519_Sign priv message) = Ok true) as Hver.
  { unfold DV1.Verify.
    destruct (decide (length (ed25519_Public priv) ≠ 32%nat)) as [Hne|_];
      [rewrite Public_length in Hne by exact Hpriv; contradiction|].
    destruct (decide (length (ed25519_Sign priv message) ≠ 64%nat))
      as [Hne|_];
      [rewrite Sign_length in Hne by exact Hpriv; contradiction|].
    unfold priv. rewrite Verify_Sign by exact Hlen. reflexivity. }
  exists (Encode Signed (ed25519_Sign priv message)),
    (ed25519_Sign priv message), (ed25519_Public priv).
  split.
  { unfold Protocol.Sign.
    change (Protocol.deriveSignKey p ?k Version)
      with (Protocol.deriveSignKey p k (str "dv1")).
    rewrite Hderive. cbn [bind]. unfold DV1.Sign.
    destruct (decide (length priv ≠ 64%nat)); [contradiction | reflexivity]. }
  split; [reflexivity|].
  split; [apply Sign_length, Hpriv|].
  split.
  { unfold Protocol.Verify.
    rewrite DecodeExpect_Encode by compute_done. cbn [bind].
    unfold Protocol.verify. rewrite dv1_is_dv1, Hderive. cbn [bind].
    rewrite Hpub. cbn [bind].
    unfold Protocol.verifyPK. rewrite dv1_is_dv1. exact Hver. }
  split.
  { unfold Protocol.CreateSignKey.
    change (Protocol.deriveSignKey p ?k Version)
      with (Protocol.deriveSignKey p k (str "dv1")).
    rewrite Hderive. cbn [bind]. exact Hpub. }
  split; [apply Public_length, Hpriv|].
  unfold Protocol.VerifyPK.
  rewrite DecodeExpect_Encode by compute_done. cbn [bind].
  unfold Protocol.verifyPK. rewrite dv1_is_dv1. exact Hver.
Qed.

Lemma Protocol_Verify_Sign_witness :
  exists signature rawSignature,
    @Protocol.Sign sample_crypto sample_protocol (str "keyring")
      (str "message") = Ok (signature, rawSignature)
    /\ @Protocol.Verify sample_crypto sample_protocol (str "keyring")
         (str "message") signature = Ok true.
Proof.
  destruct (@Protocol_Verify_Sign sample_crypto sample_crypto_laws
              sample_ed25519_laws sample_protocol sample_protocol
              sample_pool (str "keyring") (str "message")
              (fill 32 (str "keyring" ++ repeat "k"%byte 64)))
    as (sig & raw & pub & Hsign & _ & _ & Hverify & _).
  - apply lookup_singleton_eq.
  - reflexivity.
  - apply fill_length.
  - exists sig, raw. split; [exact Hsign | exact Hverify].
Defined.

(** An envelope of another type is refused before any key is derived:
    [Decrypt] takes only [enc], [Verify] and [VerifyPK] only [sig],
    [VerifyTOTP] only [totp], on every protocol object, also one without
    pools. *)
Theorem Protocol_refuses_other_types `{CryptoLib} (p : Protocol.t)
    (t : TypePrefix) (x : bytes) :
  t ∈ [Encrypted; Signed; Tagged; TOTP] ->
  let envelope := Encode t x in
  (t ≠ Encrypted ->
   forall keyRing,
     Protocol.Decrypt p keyRing envelope = Err ErrIncorrectTypePrefix)
  /\ (t ≠ Signed ->
      forall keyRing publicKey message,
        Protocol.Verify p keyRing message envelope
        = Err ErrIncorrectTypePrefix
        /\ Protocol.VerifyPK p publicKey message envelope
           = Err ErrIncorrectTypePrefix)
  /\ (t ≠ TOTP ->
      forall keyRing accountID code now,
        Protocol.VerifyTOTP p keyRing envelope accountID code now
        = Err ErrIncorrectTypePrefix).
Proof.
  intros Ht envelope.
  unfold Protocol.Decrypt, Protocol.Verify, Protocol.VerifyPK,
    Protocol.VerifyTOTP, envelope.
  repeat split; intros;
    rewrite (DecodeExpect_Encode_cases t _ x Ht);
    (destruct (decide _); [contradiction | reflexivity]).
Qed.

Lemma Protocol_refuses_other_types_witness :
  @Protocol.Decrypt sample_crypto (Protocol.NewProtocol ∅) (str "keyring")
    (Encode Tagged (str "mac")) = Err ErrIncorrectTypePrefix.
Proof.
  destruct (@Protocol_refuses_other_types sample_crypto
              (Protocol.NewProtocol ∅) Tagged (str "mac")
              ltac:(compute_done)) as (Hdec & _).
  apply Hdec. discriminate.
Defined.

(** A protocol object without a pool for ["dv1"] panics in every operation
    that derives a key, once the input is well-formed; [VerifyPK] derives
    none and is the verification of the primitive. *)
Theorem Protocol_without_pool `{CryptoLib} (p : Protocol.t)
    (keyRing data rand x : bytes) :
  Protocol.keys p !! Version = None ->
  Protocol.Encrypt p keyRing data rand = Panic
  /\ Protocol.Decrypt p keyRing (Encode Encrypted x) = Panic
  /\ Protocol.CreateSignKey p keyRing = Panic
  /\ Protocol.Sign p keyRing data = Panic
  /\ Protocol.Verify p keyRing data (Encode Signed x) = Panic
  /\ Protocol.MAC p keyRing data = Panic
  /\ ((32 <= length rand)%nat ->
      Protocol.GenerateTOTP p keyRing data data data rand = Panic)
  /\ (forall now, Protocol.VerifyTOTP p keyRing (Encode TOTP x) data data now
                  = Panic)
  /\ (forall publicKey,
        Protocol.VerifyPK p publicKey data (Encode Signed x)
        = DV1.Verify publicKey data x).
Proof.
  intros Hnone.
  assert (Protocol.keys_at p Version = Panic) as Hv
    by (unfold Protocol.keys_at; rewrite Hnone; reflexivity).
  assert (Protocol.keys_at p (str "dv1") = Panic) as Hv' by exact Hv.
  unfold Protocol.Encrypt, Protocol.Decrypt, Protocol.CreateSignKey,
    Protocol.Sign, Protocol.Verify, Protocol.MAC, Protocol.GenerateTOTP,
    Protocol.VerifyTOTP, Protocol.VerifyPK, Protocol.decrypt,
    Protocol.verify, Protocol.verifyPK, Protocol.deriveSignKey,
    Protocol.deriveTOTPKey, ReadFull.
  rewrite !DecodeExpect_Encode by compute_done. cbn [bind].
  change (decide (Version = str "dv1"))
    with (decide (str "dv1" = str "dv1")).
  rewrite !dv1_is_dv1, Hv, ?Hv'. cbn [bind].
  repeat split; try reflexivity.
  intros Hr. destruct (decide (32 <= length rand)%nat); [reflexivity | lia].
Qed.

Lemma Protocol_without_pool_witness :
  @Protocol.MAC sample_crypto (Protocol.NewProtocol ∅) (str "keyring")
    (str "message") = Panic.
Proof.
  destruct (@Protocol_without_pool sample_crypto (Protocol.NewProtocol ∅)
              (str "keyring") (str "message") [] []
              (lookup_empty _)) as (_ & _ & _ & _ & _ & Hmac & _).
  exact Hmac.
Defined.

(** A keyRing that ends at its first [':'] has nothing after it to decode:
    the empty text decodes to no bytes, and the key is derived from the
    empty keyRing, whatever the label before the [':']. *)
Theorem keyRing_empty_suffix (p : Protocol.t) (label : bytes) :
  ":"%byte ∉ label ->
  Protocol.keyRingToBytes p (label ++ str ":") = [].
Proof.
  intros Hl.
  rewrite <- (app_nil_r (str ":")), keyRingToBytes_colon by exact Hl.
  reflexivity.
Qed.

Lemma keyRing_empty_suffix_witness :
  Protocol.keyRingToBytes sample_protocol (str "totp:") = []
  /\ Protocol.keyRingToBytes sample_protocol (str "enc:") = [].
Proof.
  split.
  - apply (keyRing_empty_suffix sample_protocol (str "totp")). compute_done.
  - apply (keyRing_empty_suffix sample_protocol (str "enc")). compute_done.
Defined.

(* ================================================================== *)
(** ** dvx/totp/totp.go: codes *)
(* ================================================================== *)

(** An ASCII digit. *)
Lemma fixed_decimal_digits (d : nat) (n : Z) :
  Forall (fun c => 48 <= u8 c <= 57) (fixed_decimal d n).
Proof.
  revert n. induction d as [|d IH]; intros n; cbn [fixed_decimal].
  - constructor.
  - apply Forall_app. split; [apply IH|].
    apply Forall_cons_iff. split; [| constructor].
    pose proof (Z.mod_pos_bound n 10 ltac:(lia)).
    rewrite u8_to_byte, Z.mod_small by lia. lia.
Qed.

(** A code that [generateOTP] returns has exactly [digits] characters, all
    of them decimal digits, and [digits] is 6 or 8. *)
Theorem generateOTP_code_shape `{CryptoLaws} (secret algorithm : bytes)
    (digits counter : Z) (code : bytes) :
  totp.generateOTP secret algorithm digits counter = Ok code ->
  (digits = 6 \/ digits = 8)
  /\ Z.of_nat (length code) = digits
  /\ Forall (fun c => 48 <= u8 c <= 57) code.
Proof.
  intros Hgen.
  destruct (generateOTP_algorithm secret algorithm digits counter)
    as [[a ->] | Herr]; [| congruence].
  destruct (decide (digits = 6 \/ digits = 8)) as [Hd|Hd].
  - destruct (generateOTP_reference secret a digits counter Hd)
      as (code' & Href & Hcode & Hlen).
    assert (code' = code) as -> by congruence.
    split; [exact Hd|]. split; [exact Hlen|].
    unfold rfc4226_reference in Href.
    destruct (list.last _) as [l|]; [| discriminate]. cbn in Href.
    destruct (drop _ _) as [|? [|? [|? [|? ?]]]]; try discriminate.
    injection Href as <-. apply fixed_decimal_digits.
  - rewrite generateOTP_invalid_digits in Hgen by lia. discriminate.
Qed.

Lemma generateOTP_code_shape_witness :
  Forall (fun c => 48 <= u8 c <= 57) (str "000000").
Proof.
  destruct (@generateOTP_code_shape sample_crypto sample_crypto_laws
              [] (str "SHA1") 6 0 (str "000000")
              ltac:(vm_compute; reflexivity)) as (_ & _ & Hd).
  exact Hd.
Defined.

(** The outcome of [Generate], check by check: an empty secret, then a
    period other than 30, then an algorithm that is none of the three
    names, then digits other than 6 and 8; past these a code is
    returned. *)
Theorem Generate_outcome `{CryptoLaws} (t : totp.TOTP) (now : Z) :
  if decide (length (totp.Secret t) = 0%nat)
  then totp.Generate t now = Err ErrSecretEmpty
  else if decide (totp.Period t ≠ 30)
  then totp.Generate t now = Err ErrInvalidPeriod
  else if decide (totp.Algorithm t ∉ [str "SHA1"; str "SHA256"; str "SHA512"])
  then totp.Generate t now = Err ErrInvalidAlgorithm
  else if decide (totp.Digits t ≠ 6 ∧ totp.Digits t ≠ 8)
  then totp.Generate t now = Err ErrInvalidDigits
  else exists code,
         totp.Generate t now = Ok code
         /\ Z.of_nat (length code) = totp.Digits t.
Proof.
  unfold totp.Generate.
  destruct (decide (length (totp.Secret t) = 0%nat)); [reflexivity|].
  destruct (decide (totp.Period t ≠ 30)); [reflexivity|].
  destruct (decide (totp.Algorithm t
                    ∉ [str "SHA1"; str "SHA256"; str "SHA512"])) as [Ha|Ha].
  - destruct (generateOTP_algorithm (totp.Secret t) (totp.Algorithm t)
                (totp.Digits t) (Z.quot now (totp.Period t)))
      as [[a Ea] | Herr]; [| exact Herr].
    exfalso. apply Ha. rewrite Ea.
    destruct a; compute_done.
  - assert (exists a, totp.Algorithm t = hashName a) as [a Ea].
    { apply dec_stable in Ha.
      rewrite !elem_of_cons, elem_of_nil in Ha.
      destruct Ha as [E|[E|[E|[]]]];
        [exists SHA1 | exists SHA256 | exists SHA512]; exact E. }
    rewrite Ea.
    destruct (decide (totp.Digits t ≠ 6 ∧ totp.Digits t ≠ 8)) as [[]|Hd].
    + apply generateOTP_invalid_digits; assumption.
    + destruct (generateOTP_reference (totp.Secret t) a (totp.Digits t)
                  (Z.quot now (totp.Period t)) ltac:(lia))
        as (code & _ & Hcode & Hlen).
      exists code. split; assumption.
Qed.

Lemma Generate_outcome_witness :
  exists code,
    @totp.Generate sample_crypto
      {| totp.Secret := str "12345678901234567890";
         totp.Algorithm := str "SHA1";
         totp.Digits := 8;
         totp.Period := 30;
         totp.Issuer := [];
         totp.AccountName := [] |} 59
    = Ok code
    /\ Z.of_nat (length code) = 8.
Proof.
  exact (@Generate_outcome sample_crypto sample_crypto_laws
           {| totp.Secret := str "12345678901234567890";
              totp.Algorithm := str "SHA1";
              totp.Digits := 8;
              totp.Period := 30;
              totp.Issuer := [];
              totp.AccountName := [] |} 59).
Defined.

(** The TOTP of the protocol, end to end: for the selector id of [rawID]
    there is, at every time, exactly one code that [VerifyTOTP] accepts;
    it has 6 digits and is the code that the object of the URI (the secret
    of the derivation, SHA256, 6 digits, period 30) generates at that
    time. *)
Theorem VerifyTOTP_accepts_the_code `{CryptoLaws} (p : Protocol.t)
    (pool : KeyPool) (keyRing issuer accountName accountID rawID totpSK
     : bytes) (now : Z) :
  Protocol.keys p !! Version = Some pool ->
  KDF64 pool (Protocol.keyRingToBytes p keyRing) = Ok totpSK ->
  length totpSK = 64%nat ->
  let client :=
    {| totp.Secret := blake2b_256 (blake2b_512 totpSK rawID) accountID;
       totp.Algorithm := str "SHA256";
       totp.Digits := 6;
       totp.Period := 30;
       totp.Issuer := issuer;
       totp.AccountName := accountName |} in
  exists expected,
    totp.Generate client now = Ok expected
    /\ length expected = 6%nat
    /\ forall code,
         Protocol.VerifyTOTP p keyRing (Encode TOTP rawID) accountID code now
         = Ok (bool_decide (code = expected)).
Proof.
  intros Hpool Hkdf Hlen client.
  set (secret := blake2b_256 (blake2b_512 totpSK rawID) accountID).
  destruct (generateOTP_reference secret SHA256 6 (Z.quot now 30)
              ltac:(lia)) as (expected & _ & Hgen & Hl).
  assert (length secret ≠ 0%nat) as Hs
    by (unfold secret; rewrite blake2b_256_length; lia).
  assert (forall iss acc,
            totp.Generate
              {| totp.Secret := secret; totp.Algorithm := str "SHA256";
                 totp.Digits := 6; totp.Period := 30;
                 totp.Issuer := iss; totp.AccountName := acc |} now
            = Ok expected) as Hg.
  { intros iss acc. unfold totp.Generate. cbn.
    destruct (decide (length secret = 0%nat)); [contradiction|].
    destruct (decide (30 ≠ 30)); [contradiction | exact Hgen]. }
  exists expected. split; [apply Hg|]. split; [lia|].
  intros code. unfold Protocol.VerifyTOTP.
  rewrite DecodeExpect_Encode by compute_done. cbn [bind].
  rewrite (deriveTOTPKey_chain p pool _ _ _ totpSK Hpool Hkdf Hlen).
  cbn [bind]. rewrite dv1_is_dv1.
  unfold totp.Verify. fold secret. rewrite Hg.
  unfold subtle.ConstantTimeCompare. f_equal.
  destruct (decide (expected = code)) as [->|Hne].
  - rewrite !bool_decide_eq_true_2; reflexivity.
  - rewrite bool_decide_eq_false_2 by discriminate.
    rewrite bool_decide_eq_false_2 by congruence. reflexivity.
Qed.

Lemma VerifyTOTP_accepts_the_code_witness :
  exists expected,
    length expected = 6%nat
    /\ forall code,
         @Protocol.VerifyTOTP sample_crypto sample_protocol (str "totp")
           (Encode TOTP (repeat "r"%byte 32)) (str "a1-id") code 0
         = Ok (bool_decide (code = expected)).
Proof.
  destruct (@VerifyTOTP_accepts_the_code sample_crypto sample_crypto_laws
              sample_protocol sample_pool (str "totp") (str "i") (str "a1")
              (str "a1-id") (repeat "r"%byte 32)
              (fill 64 (str "totp" ++ repeat "k"%byte 64)) 0)
    as (expected & _ & Hlen & Hver).
  - apply lookup_singleton_eq.
  - reflexivity.
  - apply fill_length.
  - exists expected. split; [exact Hlen | exact Hver].
Defined.

(* ================================================================== *)
(** ** utils/tearc: the eviction queue is a heap *)
(* ================================================================== *)

(** *** The order, on functions from positions to times *)

Lemma up_inv_swap (f f' : Z -> Z) (n i j : Z) :
  child i j -> j < n -> up_inv f n j -> f j < f i ->
  f' i = f j -> f' j = f i ->
  (forall k, 0 <= k -> k ≠ i -> k ≠ j -> f' k = f k) ->
  up_inv f' n i.
Proof.
  intros Hij Hjn [H1 H2] Hlt Hi Hj Hk. split.
  - intros p c Hpc Hc Hci.
    destruct (decide (c = j)) as [->|Hcj].
    + assert (p = i) as -> by (unfold child in *; lia).
      rewrite Hi, Hj. lia.
    + rewrite (Hk c) by (unfold child in *; lia).
      destruct (decide (p = i)) as [->|Hpi].
      * rewrite Hi. pose proof (H1 i c Hpc Hc Hcj). lia.
      * destruct (decide (p = j)) as [->|Hpj].
        -- rewrite Hj. apply H2; assumption.
        -- rewrite (Hk p) by (unfold child in *; lia).
           apply H1; assumption.
  - intros g c Hgi Hic Hc.
    rewrite (Hk g) by (unfold child in *; lia).
    assert (f g <= f i) as Hgi'
      by (apply H1; [assumption | | ]; unfold child in *; lia).
    destruct (decide (c = j)) as [->|Hcj].
    + rewrite Hj. exact Hgi'.
    + rewrite (Hk c) by (unfold child in *; lia).
      pose proof (H1 i c Hic Hc Hcj). lia.
Qed.

Lemma up_inv_done (f : Z -> Z) (n j : Z) :
  up_inv f n j ->
  (forall i, child i j -> f i <= f j) ->
  heap_le f n.
Proof.
  intros [H1 _] Hj p c Hpc Hc.
  destruct (decide (c = j)) as [->|Hcj]; [apply Hj | apply H1]; assumption.
Qed.

Lemma heap_le_up_inv (f : Z -> Z) (n j : Z) :
  heap_le f (n - 1) -> j = n - 1 -> up_inv f n j.
Proof.
  intros Hh ->. split.
  - intros p c Hpc Hc Hne. apply Hh; [assumption | lia].
  - intros g c Hg Hjc Hc. unfold child in *. lia.
Qed.

Lemma down_inv_swap (f f' : Z -> Z) (n i j : Z) :
  child i j -> j < n -> down_inv f n i -> f j < f i ->
  (forall c, child i c -> c < n -> f j <= f c) ->
  f' i = f j -> f' j = f i ->
  (forall k, 0 <= k -> k ≠ i -> k ≠ j -> f' k = f k) ->
  down_inv f' n j.
Proof.
  intros Hij Hjn [H1 H2] Hlt Hmin Hi Hj Hk. split.
  - intros p c Hpc Hc Hcj Hpj.
    destruct (decide (c = i)) as [->|Hci].
    + rewrite Hi, (Hk p) by (unfold child in *; lia).
      apply H2; assumption.
    + rewrite (Hk c) by (unfold child in *; lia).
      destruct (decide (p = i)) as [->|Hpi].
      * rewrite Hi. apply Hmin; assumption.
      * rewrite (Hk p) by (unfold child in *; lia).
        apply H1; assumption.
  - intros g c Hgj Hjc Hc.
    assert (g = i) as -> by (unfold child in *; lia).
    rewrite Hi, (Hk c) by (unfold child in *; lia).
    apply H1; [assumption .. | |]; unfold child in *; lia.
Qed.

Lemma down_inv_stop (f : Z -> Z) (n i : Z) :
  down_inv f n i ->
  (forall c, child i c -> c < n -> f i <= f c) ->
  forall p c, child p c -> c < n -> c ≠ i -> f p <= f c.
Proof.
  intros [H1 _] Hi p c Hpc Hc Hci.
  destruct (decide (p = i)) as [->|Hpi]; [apply Hi | apply H1]; assumption.
Qed.

(** The root of a heap is due first. *)
Lemma heap_le_root (f : Z -> Z) (n : Z) :
  heap_le f n -> forall k, 0 <= k < n -> f 0 <= f k.
Proof.
  intros Hh k Hk.
  assert (forall m : nat, forall k, 0 <= k < n -> k <= Z.of_nat m ->
            f 0 <= f k) as Hind.
  { clear k Hk. induction m as [|m IH]; intros k Hk Hm.
    - assert (k = 0) as -> by lia. lia.
    - destruct (decide (k = 0)) as [->|Hk0]; [lia|].
      assert (child ((k - 1) / 2) k) as Hc
        by (unfold child; Z.div_mod_to_equations; lia).
      pose proof (Hh _ _ Hc ltac:(lia)) as Hle.
      assert (f 0 <= f ((k - 1) / 2)); [| lia].
      apply IH; Z.div_mod_to_equations; lia. }
  apply (Hind (Z.to_nat k)); lia.
Qed.

(** *** The queue and its items *)

Lemma same_items_refl (st : tearc.cells) : same_items st st.
Proof. intros a. reflexivity. Qed.

Lemma same_items_trans (st1 st2 st3 : tearc.cells) :
  same_items st1 st2 -> same_items st2 st3 -> same_items st1 st3.
Proof. intros H12 H23 a. rewrite H23. apply H12. Qed.

Lemma same_items_set_index (st : tearc.cells) (a : nat) (i : Z) :
  same_items st (tearc.set_index st a i).
Proof.
  intros x. unfold tearc.set_index.
  destruct (decide (a = x)) as [->|Hne].
  - rewrite lookup_alter_eq. destruct (st !! x); reflexivity.
  - rewrite lookup_alter_ne by exact Hne. reflexivity.
Qed.

Lemma same_items_time (st st' : tearc.cells) (a : nat) :
  same_items st st' ->
  tearc.evictionTime <$> st' !! a = tearc.evictionTime <$> st !! a.
Proof.
  intros Hs. specialize (Hs a).
  destruct (st' !! a), (st !! a); cbn in *; congruence.
Qed.

Lemma same_items_key (st st' : tearc.cells) (a : nat) :
  same_items st st' ->
  tearc.key <$> st' !! a = tearc.key <$> st !! a.
Proof.
  intros Hs. specialize (Hs a).
  destruct (st' !! a), (st !! a); cbn in *; congruence.
Qed.

Lemma time_at_same (st st' : tearc.cells) (q q' : list nat) (k k' : Z) :
  same_items st st' -> q' !! Z.to_nat k = q !! Z.to_nat k' ->
  time_at st' q' k = time_at st q k'.
Proof.
  intros Hs Hq. unfold time_at. rewrite Hq.
  destruct (q !! Z.to_nat k') as [a|]; cbn; [| reflexivity].
  rewrite (same_items_time st st' a Hs). reflexivity.
Qed.

Lemma time_at_cell (st : tearc.cells) (q : list nat) (i : nat) (a : nat)
    (it : tearc.heapItem) :
  q !! i = Some a -> st !! a = Some it ->
  time_at st q (Z.of_nat i) = tearc.evictionTime it.
Proof.
  intros Hq Hst. unfold time_at. rewrite Nat2Z.id, Hq. cbn.
  rewrite Hst. reflexivity.
Qed.

Lemma reorders_refl (st : tearc.cells) (q : list nat) :
  linked st q -> reorders st q st q.
Proof. intros Hl. split; [exact Hl|]. split; [reflexivity|]. apply same_items_refl. Qed.

Lemma reorders_trans (st1 st2 st3 : tearc.cells) (q1 q2 q3 : list nat) :
  reorders st1 q1 st2 q2 -> reorders st2 q2 st3 q3 ->
  reorders st1 q1 st3 q3.
Proof.
  intros (_ & Hp12 & Hs12) (Hl & Hp23 & Hs23).
  split; [exact Hl|]. split; [etransitivity; eassumption|].
  eapply same_items_trans; eassumption.
Qed.

Lemma reorders_length (st st' : tearc.cells) (q q' : list nat) :
  reorders st q st' q' -> tearc.Len q' = tearc.Len q.
Proof.
  intros (_ & Hp & _). unfold tearc.Len. rewrite Hp. reflexivity.
Qed.

Lemma at_index_lookup (q : list nat) (i : Z) (a : nat) :
  0 <= i -> q !! Z.to_nat i = Some a -> tearc.at_index q i = Ok a.
Proof.
  intros Hi Hq. unfold tearc.at_index.
  destruct (decide (i < 0)); [lia|]. rewrite Hq. reflexivity.
Qed.

Lemma linked_lookup (st : tearc.cells) (q : list nat) (i : Z) :
  linked st q -> 0 <= i < tearc.Len q ->
  exists a it, q !! Z.to_nat i = Some a /\ st !! a = Some it
               /\ tearc.index it = i.
Proof.
  intros [_ Hl] Hi. unfold tearc.Len in Hi.
  destruct (lookup_lt_is_Some_2 q (Z.to_nat i) ltac:(lia)) as [a Ha].
  destruct (Hl _ _ Ha) as (it & Hit & Hidx).
  exists a, it. split; [exact Ha|]. split; [exact Hit|]. lia.
Qed.

(** [Less] compares the eviction times of the two positions. *)
Lemma Less_spec (st : tearc.cells) (q : list nat) (i j : Z) :
  linked st q -> 0 <= i < tearc.Len q -> 0 <= j < tearc.Len q ->
  tearc.Less st q i j
  = Ok (bool_decide (time_at st q i < time_at st q j)).
Proof.
  intros Hl Hi Hj.
  destruct (linked_lookup st q i Hl Hi) as (a & x & Ha & Hx & _).
  destruct (linked_lookup st q j Hl Hj) as (b & y & Hb & Hy & _).
  unfold tearc.Less.
  rewrite (at_index_lookup q i a), (at_index_lookup q j b) by (lia || assumption).
  cbn [bind]. unfold tearc.cell. rewrite Hx, Hy. cbn [bind].
  unfold time_at. rewrite Ha, Hb. cbn. rewrite Hx, Hy. reflexivity.
Qed.

(** [Swap] exchanges two positions and keeps the queue linked. *)
Lemma Swap_spec (st : tearc.cells) (q : list nat) (i j : Z) :
  linked st q -> 0 <= i < tearc.Len q -> 0 <= j < tearc.Len q ->
  exists st' q',
    tearc.Swap st q i j = Ok (st', q')
    /\ reorders st q st' q'
    /\ q' !! Z.to_nat i = q !! Z.to_nat j
    /\ q' !! Z.to_nat j = q !! Z.to_nat i
    /\ (forall k : nat, k ≠ Z.to_nat i -> k ≠ Z.to_nat j ->
          q' !! k = q !! k).
Proof.
  intros Hl Hi Hj.
  destruct (linked_lookup st q i Hl Hi) as (a & x & Ha & Hx & _).
  destruct (linked_lookup st q j Hl Hj) as (b & y & Hb & Hy & _).
  unfold tearc.Swap.
  rewrite (at_index_lookup q i a), (at_index_lookup q j b) by (lia || assumption).
  cbn [bind]. unfold tearc.cell at 1. rewrite Hy. cbn [bind].
  assert (is_Some (tearc.set_index st b i !! a)) as [x' Hx'].
  { unfold tearc.set_index. rewrite lookup_alter. case_decide; subst.
    - rewrite Hx. eexists. reflexivity.
    - rewrite Hx. eexists. reflexivity. }
  unfold tearc.cell. rewrite Hx'. cbn [bind].
  set (q' := <[Z.to_nat j := a]> (<[Z.to_nat i := b]> q)).
  set (st' := tearc.set_index (tearc.set_index st b i) a j).
  unfold tearc.Len in Hi, Hj.
  assert (q' !! Z.to_nat j = Some a) as Hqj.
  { unfold q'. apply list_lookup_insert_eq. rewrite length_insert. lia. }
  assert (q' !! Z.to_nat i = Some b) as Hqi.
  { destruct (decide (Z.to_nat j = Z.to_nat i)) as [E|E].
    - assert (b = a) as -> by (rewrite E in Hb; congruence).
      rewrite <- E. exact Hqj.
    - unfold q'. rewrite list_lookup_insert_ne by exact E.
      apply list_lookup_insert_eq. lia. }
  assert (forall k : nat, k ≠ Z.to_nat i -> k ≠ Z.to_nat j ->
            q' !! k = q !! k) as Hqk.
  { intros k Hki Hkj. unfold q'.
    rewrite !list_lookup_insert_ne by congruence. reflexivity. }
  assert (forall k u, q' !! k = Some u ->
            exists k', q !! k' = Some u
                       /\ (k = Z.to_nat i -> k' = Z.to_nat j)
                       /\ (k = Z.to_nat j -> k' = Z.to_nat i)
                       /\ (k ≠ Z.to_nat i -> k ≠ Z.to_nat j -> k' = k))
    as Hback.
  { intros k u Hk.
    destruct (decide (k = Z.to_nat i)) as [->|Hki].
    - exists (Z.to_nat j). rewrite Hqi in Hk.
      split; [congruence|]. split; [reflexivity|].
      split; [| contradiction].
      intros E. rewrite E in *. reflexivity.
    - destruct (decide (k = Z.to_nat j)) as [->|Hkj].
      + exists (Z.to_nat i). rewrite Hqj in Hk.
        split; [congruence|]. split; [contradiction|].
        split; [reflexivity | contradiction].
      + exists k. rewrite Hqk in Hk by assumption.
        split; [exact Hk|]. split; [contradiction|].
        split; [contradiction | reflexivity]. }
  destruct Hl as [Hnd Hidx].
  assert (NoDup q') as Hnd'.
  { apply NoDup_alt. intros k1 k2 u H1 H2.
    destruct (Hback _ _ H1) as (k1' & Hk1 & A1 & B1 & C1).
    destruct (Hback _ _ H2) as (k2' & Hk2 & A2 & B2 & C2).
    pose proof (NoDup_lookup _ _ _ _ Hnd Hk1 Hk2) as E.
    destruct (decide (k1 = Z.to_nat i)), (decide (k1 = Z.to_nat j)),
             (decide (k2 = Z.to_nat i)), (decide (k2 = Z.to_nat j)); lia. }
  exists st', q'. split; [reflexivity|].
  split; [| split; [rewrite Hqi, Hb; reflexivity
                   | split; [rewrite Hqj, Ha; reflexivity | exact Hqk]]].
  split; [| split].
  - split; [exact Hnd'|].
    intros k u Hk. unfold st', tearc.set_index.
    destruct (decide (k = Z.to_nat j)) as [->|Hkj].
    + rewrite Hqj in Hk. injection Hk as <-.
      rewrite lookup_alter_eq. fold (tearc.set_index st b i).
      rewrite Hx'. eexists. split; [reflexivity|]. cbn. lia.
    + destruct (decide (k = Z.to_nat i)) as [->|Hki].
      * rewrite Hqi in Hk. injection Hk as <-.
        assert (a ≠ b) as Hab.
        { intros ->. apply Hkj. symmetry.
          exact (NoDup_lookup _ _ _ _ Hnd Hb Ha). }
        rewrite lookup_alter_ne by exact Hab.
        rewrite lookup_alter_eq, Hy. eexists. split; [reflexivity|].
        cbn. lia.
      * rewrite Hqk in Hk by assumption.
        assert (u ≠ a) as Hua.
        { intros ->. apply Hki. exact (NoDup_lookup _ _ _ _ Hnd Hk Ha). }
        assert (u ≠ b) as Hub.
        { intros ->. apply Hkj. exact (NoDup_lookup _ _ _ _ Hnd Hk Hb). }
        rewrite !lookup_alter_ne by congruence.
        apply Hidx, Hk.
  - apply NoDup_Permutation; [exact Hnd' | exact Hnd |].
    intros u. rewrite !list_elem_of_lookup. split.
    + intros [k Hk]. destruct (Hback _ _ Hk) as (k' & Hk' & _).
      exists k'. exact Hk'.
    + intros [k Hk].
      destruct (decide (k = Z.to_nat i)) as [->|Hki].
      * exists (Z.to_nat j). rewrite Hqj. congruence.
      * destruct (decide (k = Z.to_nat j)) as [->|Hkj].
        -- exists (Z.to_nat i). rewrite Hqi. congruence.
        -- exists k. rewrite Hqk by assumption. exact Hk.
  - eapply same_items_trans; apply same_items_set_index.
Qed.

(** The times after [Swap]. *)
Lemma Swap_times (st st' : tearc.cells) (q q' : list nat) (i j : Z) :
  0 <= i -> 0 <= j -> same_items st st' ->
  q' !! Z.to_nat i = q !! Z.to_nat j ->
  q' !! Z.to_nat j = q !! Z.to_nat i ->
  (forall k : nat, k ≠ Z.to_nat i -> k ≠ Z.to_nat j -> q' !! k = q !! k) ->
  time_at st' q' i = time_at st q j
  /\ time_at st' q' j = time_at st q i
  /\ (forall k, 0 <= k -> k ≠ i -> k ≠ j ->
        time_at st' q' k = time_at st q k).
Proof.
  intros Hi Hj Hs Hqi Hqj Hqk.
  split; [apply time_at_same; assumption|].
  split; [apply time_at_same; assumption|].
  intros k Hk Hki Hkj. apply time_at_same; [assumption|].
  apply Hqk; lia.
Qed.

(** *** [up] and [down] *)

Lemma up_eq (fuel : nat) (st : tearc.cells) (q : list nat) (j : Z) :
  tearc.up fuel st q j
  = let i := Z.quot (j - 1) 2 in
    if decide (i = j) then Ok (st, q)
    else
      let* lt := tearc.Less st q j i in
      if negb lt then Ok (st, q)
      else
        let* '(st', q') := tearc.Swap st q i j in
        match fuel with
        | O => Diverge
        | S fuel' => tearc.up fuel' st' q' i
        end.
Proof. destruct fuel; reflexivity. Qed.

Lemma down_eq (fuel : nat) (st : tearc.cells) (q : list nat) (i n : Z) :
  tearc.down fuel st q i n
  = let j1 := 2 * i + 1 in
    if decide (j1 >= n ∨ j1 < 0) then Ok (st, q, i)
    else
      let j2 := j1 + 1 in
      let* j :=
        (if decide (j2 < n) then
           let* lt21 := tearc.Less st q j2 j1 in
           Ok (if lt21 then j2 else j1)
         else Ok j1) in
      let* lt := tearc.Less st q j i in
      if negb lt then Ok (st, q, i)
      else
        let* '(st', q') := tearc.Swap st q i j in
        match fuel with
        | O => Diverge
        | S fuel' => tearc.down fuel' st' q' j n
        end.
Proof. destruct fuel; reflexivity. Qed.

Lemma parent_child (j : Z) : 0 < j -> child (Z.quot (j - 1) 2) j.
Proof.
  intros Hj. rewrite Z.quot_div_nonneg by lia.
  unfold child. Z.div_mod_to_equations. lia.
Qed.

(** [up] from a position that alone may be out of place restores the
    order. *)
Lemma up_spec (fuel : nat) :
  forall (st : tearc.cells) (q : list nat) (j : Z),
    linked st q -> 0 <= j < tearc.Len q -> j <= Z.of_nat fuel ->
    up_inv (time_at st q) (tearc.Len q) j ->
    exists st' q',
      tearc.up fuel st q j = Ok (st', q')
      /\ reorders st q st' q'
      /\ heap_ordered st' q'.
Proof.
  induction fuel as [|fuel IH]; intros st q j Hl Hj Hfuel Hinv;
    rewrite up_eq; cbv zeta;
    (destruct (decide (j = 0)) as [->|Hj0];
     [change (Z.quot (0 - 1) 2) with 0;
      destruct (decide (0 = 0)) as [_|]; [| contradiction];
      exists st, q; split; [reflexivity|];
      split; [apply reorders_refl, Hl|];
      apply (up_inv_done _ _ 0 Hinv);
      intros i Hc; unfold child in Hc; lia
     |]); [lia|].
  pose proof (parent_child j ltac:(lia)) as Hij.
  set (i := Z.quot (j - 1) 2) in *.
  assert (0 <= i < j) as Hi by (unfold child in Hij; lia).
  destruct (decide (i = j)); [lia|].
  rewrite Less_spec by (assumption || lia). cbn [bind].
  destruct (decide (time_at st q j < time_at st q i)) as [Hlt|Hge].
  - rewrite bool_decide_eq_true_2 by exact Hlt. cbn [negb].
    destruct (Swap_spec st q i j Hl ltac:(lia) Hj)
      as (st1 & q1 & HS & Hre & Hqi & Hqj & Hqk).
    rewrite HS. cbn [bind].
    destruct (Swap_times st st1 q q1 i j ltac:(lia) ltac:(lia)
                (proj2 (proj2 Hre)) Hqi Hqj Hqk) as (Hfi & Hfj & Hfk).
    pose proof (reorders_length _ _ _ _ Hre) as Hlen.
    destruct (IH st1 q1 i (proj1 Hre) ltac:(lia) ltac:(lia))
      as (st' & q' & Hup & Hre' & Hh).
    { rewrite Hlen.
      eapply (up_inv_swap (time_at st q));
        [exact Hij | | exact Hinv | exact Hlt | exact Hfi | exact Hfj
        | exact Hfk]; lia. }
    exists st', q'. split; [exact Hup|].
    split; [eapply reorders_trans; eassumption | exact Hh].
  - rewrite bool_decide_eq_false_2 by exact Hge. cbn [negb].
    exists st, q. split; [reflexivity|].
    split; [apply reorders_refl, Hl|].
    apply (up_inv_done _ _ j Hinv).
    intros i' Hc. assert (i' = i) as -> by (unfold child in *; lia). lia.
Qed.

(** [down] from a position that alone may be out of place: the order
    holds afterwards below every position but the start, and everywhere
    once the item has moved; positions from [n] on are not touched. *)
Lemma down_spec (fuel : nat) :
  forall (st : tearc.cells) (q : list nat) (i n : Z),
    linked st q -> 0 <= i -> n <= tearc.Len q ->
    n - i <= Z.of_nat fuel ->
    down_inv (time_at st q) n i ->
    exists st' q' i',
      tearc.down fuel st q i n = Ok (st', q', i')
      /\ reorders st q st' q'
      /\ (forall k : nat, n <= Z.of_nat k -> q' !! k = q !! k)
      /\ i <= i'
      /\ (i' = i -> st' = st /\ q' = q)
      /\ (forall p c, child p c -> c < n -> c ≠ i ->
            time_at st' q' p <= time_at st' q' c)
      /\ (i < i' -> heap_le (time_at st' q') n).
Proof.
  induction fuel as [|fuel IH]; intros st q i n Hl Hi Hn Hfuel Hinv;
    rewrite down_eq; cbv zeta;
    (destruct (decide (2 * i + 1 >= n ∨ 2 * i + 1 < 0)) as [Hout|Hin];
     [exists st, q, i; split; [reflexivity|];
      split; [apply reorders_refl, Hl|];
      split; [reflexivity|]; split; [lia|];
      split; [intros _; split; reflexivity|];
      split; [| lia];
      apply (down_inv_stop _ _ _ Hinv);
      intros c Hc Hcn; unfold child in Hc; lia
     |]);
    (assert (exists j,
               (if decide (2 * i + 1 + 1 < n) then
                  let* lt21 := tearc.Less st q (2 * i + 1 + 1) (2 * i + 1) in
                  Ok (if lt21 then 2 * i + 1 + 1 else 2 * i + 1)
                else Ok (2 * i + 1)) = Ok j
               /\ child i j /\ j < n
               /\ forall c, child i c -> c < n ->
                    time_at st q j <= time_at st q c)
       as (j & -> & Hij & Hjn & Hmin);
     [destruct (decide (2 * i + 1 + 1 < n)) as [H2|H2];
      [rewrite Less_spec by (assumption || lia); cbn [bind];
       destruct (decide (time_at st q (2 * i + 1 + 1)
                         < time_at st q (2 * i + 1))) as [Hlt|Hge];
       [rewrite bool_decide_eq_true_2 by exact Hlt;
        exists (2 * i + 1 + 1)
       |rewrite bool_decide_eq_false_2 by exact Hge;
        exists (2 * i + 1)]
      |exists (2 * i + 1)];
      (split; [reflexivity|]);
      (split; [unfold child; lia|]);
      (split; [lia|]);
      intros c [_ [-> | ->]] Hcn;
      try replace (2 * i + 2) with (2 * i + 1 + 1) in * by lia; lia
     |]);
    cbn [bind];
    (assert (0 <= i < j) as Hij' by (unfold child in Hij; lia));
    rewrite Less_spec by (assumption || lia); cbn [bind];
    (destruct (decide (time_at st q j < time_at st q i)) as [Hlt|Hge];
     [rewrite bool_decide_eq_true_2 by exact Hlt; cbn [negb]
     |rewrite bool_decide_eq_false_2 by exact Hge; cbn [negb];
      exists st, q, i; split; [reflexivity|];
      split; [apply reorders_refl, Hl|];
      split; [reflexivity|]; split; [lia|];
      split; [intros _; split; reflexivity|];
      split; [| lia];
      apply (down_inv_stop _ _ _ Hinv);
      intros c Hc Hcn; pose proof (Hmin c Hc Hcn); lia]).
  - lia.
  - destruct (Swap_spec st q i j Hl ltac:(lia) ltac:(lia))
      as (st1 & q1 & HS & Hre & Hqi & Hqj & Hqk).
    rewrite HS. cbn [bind].
    destruct (Swap_times st st1 q q1 i j ltac:(lia) ltac:(lia)
                (proj2 (proj2 Hre)) Hqi Hqj Hqk) as (Hfi & Hfj & Hfk).
    pose proof (reorders_length _ _ _ _ Hre) as Hlen.
    destruct (IH st1 q1 j n (proj1 Hre) ltac:(lia) ltac:(lia) ltac:(lia))
      as (st' & q' & j' & Hdown & Hre' & Hkeep & Hjj' & Hsame & HA & HB).
    { exact (down_inv_swap _ _ _ i j Hij Hjn Hinv Hlt Hmin Hfi Hfj Hfk). }
    exists st', q', j'. split; [exact Hdown|].
    split; [eapply reorders_trans; eassumption|].
    split.
    { intros k Hk. rewrite Hkeep by exact Hk. apply Hqk; lia. }
    split; [lia|]. split; [lia|].
    assert (heap_le (time_at st' q') n) as Hh.
    { destruct (decide (j' = j)) as [E|E].
      - destruct (Hsame E) as [-> ->].
        intros p c Hpc Hc.
        destruct (decide (c = j)) as [->|Hcj]; [| apply HA; assumption].
        assert (p = i) as -> by (unfold child in *; lia).
        rewrite Hfi, Hfj. lia.
      - apply HB. lia. }
    split; [| intros _; exact Hh].
    intros p c Hpc Hc _. apply Hh; assumption.
Qed.

(** *** [heap.Push], [heap.Pop] and [heap.Fix] *)

Lemma heap_Push_spec (st : tearc.cells) (q : list nat) (x : nat)
    (it : tearc.heapItem) :
  linked st q -> heap_ordered st q -> st !! x = Some it -> x ∉ q ->
  exists st' q',
    tearc.heap_Push st q x = Ok (st', q')
    /\ linked st' q' /\ heap_ordered st' q'
    /\ q' ≡ₚ (x :: q)
    /\ same_items st st'.
Proof.
  intros Hl Hh Hx Hxq.
  unfold tearc.heap_Push, tearc.Push, tearc.cell.
  rewrite Hx. cbn [bind].
  set (st1 := tearc.set_index st x (tearc.Len q)).
  set (q1 := q ++ [x]).
  assert (same_items st st1) as Hs1 by apply same_items_set_index.
  assert (tearc.Len q1 = tearc.Len q + 1) as Hlen
    by (unfold tearc.Len, q1; rewrite length_app; cbn; lia).
  assert (linked st1 q1) as Hl1.
  { destruct Hl as [Hnd Hidx]. split.
    - unfold q1. apply list.NoDup_app. split; [exact Hnd|].
      split; [| apply NoDup_singleton].
      intros u Hu Hux. apply list_elem_of_singleton in Hux. congruence.
    - intros k u Hk. unfold q1 in Hk.
      apply lookup_app_Some in Hk as [Hk | [Hlen' Hk]].
      + assert (u ≠ x) as Hux
          by (intros ->; apply Hxq, list_elem_of_lookup; eauto).
        unfold st1, tearc.set_index.
        rewrite lookup_alter_ne by congruence. apply Hidx, Hk.
      + apply list_lookup_singleton_Some in Hk as [Hk0 <-].
        unfold st1, tearc.set_index. rewrite lookup_alter_eq, Hx.
        eexists. split; [reflexivity|]. cbn. unfold tearc.Len. lia. }
  assert (up_inv (time_at st1 q1) (tearc.Len q1) (tearc.Len q1 - 1))
    as Hinv.
  { apply heap_le_up_inv; [| reflexivity].
    intros p c Hpc Hc.
    rewrite (time_at_same st st1 q q1 p p), (time_at_same st st1 q q1 c c);
      try exact Hs1.
    - apply Hh; [exact Hpc | lia].
    - unfold q1. apply lookup_app_l. unfold tearc.Len, child in *. lia.
    - unfold q1. apply lookup_app_l. unfold tearc.Len, child in *. lia. }
  destruct (up_spec (length q1) st1 q1 (tearc.Len q1 - 1) Hl1)
    as (st' & q' & Hup & (Hl' & Hp & Hs) & Hh'); [.. | exact Hinv |].
  { unfold tearc.Len in *. lia. }
  { unfold tearc.Len. lia. }
  exists st', q'. split; [exact Hup|].
  split; [exact Hl'|]. split; [exact Hh'|].
  split.
  - rewrite Hp. unfold q1. symmetry. apply Permutation_cons_append.
  - eapply same_items_trans; eassumption.
Qed.

Lemma heap_Pop_spec (st : tearc.cells) (q : list nat) :
  linked st q -> heap_ordered st q -> q ≠ [] ->
  exists st' q' a it,
    tearc.heap_Pop st q = Ok (st', q', a)
    /\ q ≡ₚ (a :: q')
    /\ linked st' q' /\ heap_ordered st' q'
    /\ same_items st st'
    /\ st' !! a = Some it /\ tearc.index it = -1
    /\ forall b y, b ∈ q -> st !! b = Some y ->
         tearc.evictionTime it <= tearc.evictionTime y.
Proof.
  intros Hl Hh Hne.
  assert (0 < tearc.Len q) as Hpos
    by (unfold tearc.Len; destruct q; [contradiction | cbn; lia]).
  unfold tearc.heap_Pop.
  set (n := tearc.Len q - 1).
  destruct (Swap_spec st q 0 n Hl ltac:(lia) ltac:(lia))
    as (st1 & q1 & HS & Hre1 & Hq0 & Hqn & Hqk).
  rewrite HS. cbn [bind].
  destruct (Swap_times st st1 q q1 0 n ltac:(lia) ltac:(lia)
              (proj2 (proj2 Hre1)) Hq0 Hqn Hqk) as (Hf0 & Hfn & Hfk).
  pose proof (reorders_length _ _ _ _ Hre1) as Hlen1.
  destruct (down_spec (length q) st1 q1 0 n (proj1 Hre1) ltac:(lia)
              ltac:(lia) ltac:(unfold tearc.Len in *; lia))
    as (st2 & q2 & i' & Hdown & Hre2 & Hkeep & _ & _ & HA & _).
  { split.
    - intros p c Hpc Hc Hc0 Hp0.
      rewrite (Hfk p), (Hfk c) by (unfold child in *; lia).
      apply Hh; [exact Hpc | lia].
    - intros g c Hg. unfold child in Hg. lia. }
  rewrite Hdown. cbn [bind].
  pose proof (reorders_length _ _ _ _ Hre2) as Hlen2.
  destruct Hre2 as (Hl2 & Hp2 & Hs2).
  destruct (linked_lookup st q 0 Hl ltac:(lia)) as (a & x & Ha & Hx & _).
  assert (q2 !! Z.to_nat n = Some a) as Ha2.
  { rewrite Hkeep by lia. rewrite Hqn. exact Ha. }
  destruct (proj2 Hl2 _ _ Ha2) as (x2 & Hx2 & _).
  unfold tearc.Pop.
  replace (tearc.Len q2 - 1) with n by lia.
  rewrite (at_index_lookup q2 n a) by (lia || assumption). cbn [bind].
  unfold tearc.cell. rewrite Hx2. cbn [bind].
  set (st3 := tearc.set_index st2 a (-1)).
  set (q3 := take (Z.to_nat n) q2).
  assert (q2 = q3 ++ [a]) as Hq2.
  { unfold q3. rewrite <- (take_S_r _ _ _ Ha2).
    symmetry. apply take_ge. unfold tearc.Len in *. lia. }
  assert (same_items st st3) as Hs3.
  { eapply same_items_trans; [exact (proj2 (proj2 Hre1))|].
    eapply same_items_trans; [exact Hs2|]. apply same_items_set_index. }
  assert (NoDup q3 /\ a ∉ q3) as [Hnd3 Ha3].
  { pose proof (proj1 Hl2) as Hnd2. rewrite Hq2 in Hnd2.
    apply list.NoDup_app in Hnd2 as (Hnd3 & Hdis & _). split; [exact Hnd3|].
    intros Hin. apply (Hdis a Hin). apply list_elem_of_singleton.
    reflexivity. }
  assert (forall k : nat, Z.of_nat k < n -> q3 !! k = q2 !! k) as Hq3.
  { intros k Hk. unfold q3. apply lookup_take_lt. lia. }
  assert (tearc.Len q3 = n) as Hlen3.
  { unfold tearc.Len, q3. rewrite length_take. unfold tearc.Len in *. lia. }
  assert (exists it, st3 !! a = Some it /\ tearc.index it = -1)
    as (it & Hit & Hidx).
  { unfold st3, tearc.set_index. rewrite lookup_alter_eq, Hx2.
    eexists. split; reflexivity. }
  exists st3, q3, a, it. split; [reflexivity|].
  split.
  { rewrite <- (proj1 (proj2 Hre1)), <- Hp2, Hq2.
    symmetry. apply Permutation_cons_append. }
  split.
  { split; [exact Hnd3|].
    intros k u Hk.
    assert (Z.of_nat k < n) as Hkn
      by (apply lookup_lt_Some in Hk; unfold tearc.Len in Hlen3; lia).
    assert (u ≠ a) as Hua
      by (intros ->; apply Ha3, list_elem_of_lookup; eauto).
    rewrite Hq3 in Hk by exact Hkn.
    unfold st3, tearc.set_index. rewrite lookup_alter_ne by congruence.
    apply (proj2 Hl2), Hk. }
  split.
  { unfold heap_ordered. rewrite Hlen3. intros p c Hpc Hc.
    rewrite (time_at_same st2 st3 q2 q3 p p),
            (time_at_same st2 st3 q2 q3 c c);
      try apply same_items_set_index;
      try (apply Hq3; unfold child in *; lia).
    apply HA; [exact Hpc | exact Hc | unfold child in Hpc; lia]. }
  split; [exact Hs3|]. split; [exact Hit|]. split; [exact Hidx|].
  intros b y Hb Hy.
  apply list_elem_of_lookup in Hb as [k Hk].
  pose proof (heap_le_root _ _ Hh (Z.of_nat k)
                ltac:(apply lookup_lt_Some in Hk; unfold tearc.Len; lia))
    as Hroot.
  rewrite (time_at_cell st q k b y Hk Hy) in Hroot.
  change 0 with (Z.of_nat 0) in Hroot.
  rewrite (time_at_cell st q 0 a x Ha Hx) in Hroot.
  pose proof (same_items_time st st3 a Hs3) as Ht.
  rewrite Hit, Hx in Ht. cbn in Ht. injection Ht as Ht. lia.
Qed.

Lemma linked_set_evictionTime (st : tearc.cells) (q : list nat) (a : nat)
    (t : Z) :
  linked st q -> linked (tearc.set_evictionTime st a t) q.
Proof.
  intros [Hnd Hidx]. split; [exact Hnd|].
  intros k u Hk. destruct (Hidx _ _ Hk) as (it & Hit & Hi).
  unfold tearc.set_evictionTime.
  destruct (decide (a = u)) as [->|Hne].
  - rewrite lookup_alter_eq, Hit. eexists. split; [reflexivity|]. exact Hi.
  - rewrite lookup_alter_ne by exact Hne. eauto.
Qed.

Lemma time_at_set_evictionTime (st : tearc.cells) (q : list nat) (i : Z)
    (a : nat) (t : Z) :
  linked st q -> 0 <= i -> q !! Z.to_nat i = Some a ->
  time_at (tearc.set_evictionTime st a t) q i = t
  /\ forall k, 0 <= k -> k ≠ i ->
       time_at (tearc.set_evictionTime st a t) q k = time_at st q k.
Proof.
  intros [Hnd Hidx] Hi Ha. unfold time_at, tearc.set_evictionTime. split.
  - rewrite Ha. cbn. rewrite lookup_alter_eq.
    destruct (Hidx _ _ Ha) as (it & -> & _). reflexivity.
  - intros k Hk Hki. destruct (q !! Z.to_nat k) as [b|] eqn:Hb; cbn;
      [| reflexivity].
    assert (a ≠ b) as Hab.
    { intros ->. pose proof (NoDup_lookup _ _ _ _ Hnd Ha Hb). lia. }
    rewrite lookup_alter_ne by exact Hab. reflexivity.
Qed.

(** [heap.Fix] after the eviction time of one queued item was changed. *)
Lemma heap_Fix_spec (st : tearc.cells) (q : list nat) (i : Z) (a : nat)
    (t : Z) :
  linked st q -> heap_ordered st q ->
  0 <= i -> q !! Z.to_nat i = Some a ->
  exists st' q',
    tearc.heap_Fix (tearc.set_evictionTime st a t) q i = Ok (st', q')
    /\ reorders (tearc.set_evictionTime st a t) q st' q'
    /\ heap_ordered st' q'.
Proof.
  intros Hl Hh Hi Ha.
  set (st1 := tearc.set_evictionTime st a t).
  pose proof (linked_set_evictionTime st q a t Hl) as Hl1. fold st1 in Hl1.
  destruct (time_at_set_evictionTime st q i a t Hl Hi Ha) as [Hfi Hfk].
  fold st1 in Hfi, Hfk.
  assert (i < tearc.Len q) as Hin
    by (apply lookup_lt_Some in Ha; unfold tearc.Len; lia).
  assert (forall g c, child g i -> child i c -> c < tearc.Len q ->
            time_at st1 q g <= time_at st1 q c) as Hgc.
  { intros g c Hg Hc Hcn.
    rewrite (Hfk g), (Hfk c) by (unfold child in *; lia).
    pose proof (Hh g i Hg ltac:(lia)). pose proof (Hh i c Hc Hcn). lia. }
  unfold tearc.heap_Fix.
  destruct (down_spec (length q) st1 q i (tearc.Len q) Hl1 Hi ltac:(lia)
              ltac:(unfold tearc.Len; lia))
    as (st2 & q2 & i' & Hdown & Hre2 & _ & Hii' & Hsame & HA & HB).
  { split; [| exact Hgc].
    intros p c Hpc Hc Hci Hpi.
    rewrite (Hfk p), (Hfk c) by (unfold child in *; lia).
    apply Hh; assumption. }
  rewrite Hdown. cbn [bind].
  destruct (decide (i' > i)) as [Hmoved|Hstay].
  - exists st2, q2. split; [reflexivity|]. split; [exact Hre2|].
    unfold heap_ordered. rewrite (reorders_length _ _ _ _ Hre2).
    apply HB. lia.
  - destruct (Hsame ltac:(lia)) as [-> ->].
    apply (up_spec (length q) st1 q i Hl1); [lia | unfold tearc.Len in *; lia |].
    split; [| exact Hgc].
    intros p c Hpc Hc Hci. apply HA; assumption.
Qed.

(* ================================================================== *)
(** ** utils/tearc: the bucket keeps its heap *)
(* ================================================================== *)

Lemma same_items_deadline (st st' : tearc.cells) (a : nat) :
  same_items st st' -> deadline st' a = deadline st a.
Proof. apply same_items_time. Qed.

Lemma same_items_key_of (st st' : tearc.cells) (a : nat) :
  same_items st st' -> key_of st' a = key_of st a.
Proof. apply same_items_key. Qed.

Lemma same_items_is_Some (st st' : tearc.cells) (a : nat) :
  same_items st st' -> is_Some (st' !! a) <-> is_Some (st !! a).
Proof.
  intros Hs. specialize (Hs a).
  destruct (st' !! a), (st !! a); cbn in Hs; try discriminate;
    split; intros [? ?]; eauto; discriminate.
Qed.

Lemma linked_cell (st : tearc.cells) (q : list nat) (a : nat) :
  linked st q -> a ∈ q -> is_Some (st !! a).
Proof.
  intros [_ Hidx] Ha. apply list_elem_of_lookup in Ha as [k Hk].
  destruct (Hidx _ _ Hk) as (it & Hit & _). eauto.
Qed.

Lemma linked_insert_fresh (st : tearc.cells) (q : list nat) (x : nat)
    (it : tearc.heapItem) :
  linked st q -> st !! x = None -> linked (<[x := it]> st) q /\ x ∉ q.
Proof.
  intros Hl Hx.
  assert (x ∉ q) as Hxq.
  { intros Hin. destruct (linked_cell st q x Hl Hin) as [? ?]. congruence. }
  split; [| exact Hxq].
  destruct Hl as [Hnd Hidx]. split; [exact Hnd|].
  intros k u Hk.
  assert (x ≠ u) as Hne
    by (intros ->; apply Hxq, list_elem_of_lookup; eauto).
  rewrite lookup_insert_ne by exact Hne. apply Hidx, Hk.
Qed.

Lemma time_at_insert_fresh (st : tearc.cells) (q : list nat) (x : nat)
    (it : tearc.heapItem) (k : Z) :
  x ∉ q -> time_at (<[x := it]> st) q k = time_at st q k.
Proof.
  intros Hxq. unfold time_at.
  destruct (q !! Z.to_nat k) as [u|] eqn:Hu; cbn; [| reflexivity].
  assert (x ≠ u) as Hne
    by (intros ->; apply Hxq, list_elem_of_lookup; eauto).
  rewrite lookup_insert_ne by exact Hne. reflexivity.
Qed.

Section Bucket.
Context {V I W : Type} `{CacheLib V}.
Implicit Types (b : @tearc.bucket V I W _).

Lemma bucket_inv_with_arc b (a : arc) :
  bucket_inv b -> bucket_inv (tearc.with_arc b a).
Proof. intros Hb. exact Hb. Qed.

(** A load that succeeds queues a new item. *)
Lemma loadAndSet_success b (key : bytes) (loadInfo : I) (w w' : W)
    (now : Z) (value : V) (evictIn : Z) (a' : arc) :
  bucket_inv b ->
  tearc.loader b key loadInfo w = (w', (value, evictIn, None)) ->
  arc_Set (tearc.b_arc b) key value = (a', None) ->
  exists b',
    tearc.loadAndSet b key loadInfo w now = (b', w', Ok value)
    /\ bucket_inv b'
    /\ tearc.b_arc b' = a'
    /\ tearc.eq b' ≡ₚ (tearc.allocs b :: tearc.eq b)
    /\ (tearc.allocs b ∉ tearc.eq b)
    /\ tearc.eqPtrMap b' = <[key := tearc.allocs b]> (tearc.eqPtrMap b)
    /\ key_of (tearc.store b') (tearc.allocs b) = Some key
    /\ deadline (tearc.store b') (tearc.allocs b) = Some (now + evictIn)
    /\ (forall a, a ∈ tearc.eq b ->
          key_of (tearc.store b') a = key_of (tearc.store b) a
          /\ deadline (tearc.store b') a = deadline (tearc.store b) a).
Proof.
  intros (Hl & Hh & Hfresh & Hmap) Hload Hset.
  set (item := tearc.allocs b).
  set (it := {| tearc.key := key; tearc.evictionTime := now + evictIn;
                tearc.index := 0 |}).
  assert (tearc.store b !! item = None) as Hnone.
  { destruct (tearc.store b !! item) eqn:E; [| reflexivity].
    pose proof (Hfresh item ltac:(eauto)). unfold item in *. lia. }
  destruct (linked_insert_fresh _ _ item it Hl Hnone) as [Hl1 Hitem].
  destruct (heap_Push_spec (<[item := it]> (tearc.store b)) (tearc.eq b)
              item it Hl1)
    as (st2 & q2 & Hpush & Hl2 & Hh2 & Hp2 & Hs2).
  { intros p c Hpc Hc. rewrite !time_at_insert_fresh by exact Hitem.
    apply Hh; assumption. }
  { apply lookup_insert_eq. }
  { exact Hitem. }
  unfold tearc.loadAndSet. rewrite Hload, Hset.
  cbn [tearc.with_arc tearc.allocs tearc.store tearc.eq tearc.eqPtrMap].
  fold item. fold it. rewrite Hpush.
  eexists. split; [reflexivity|].
  cbn [tearc.with_heap tearc.with_arc tearc.allocs tearc.store tearc.eq
       tearc.eqPtrMap tearc.b_arc].
  assert (forall a, a ≠ item ->
            key_of st2 a = key_of (tearc.store b) a
            /\ deadline st2 a = deadline (tearc.store b) a) as Hold.
  { intros a Ha.
    rewrite (same_items_key_of _ _ a Hs2), (same_items_deadline _ _ a Hs2).
    unfold key_of, deadline. rewrite lookup_insert_ne by congruence.
    split; reflexivity. }
  split.
  { unfold bucket_inv.
    cbn [tearc.with_heap tearc.with_arc tearc.allocs tearc.store tearc.eq
         tearc.eqPtrMap tearc.b_arc].
    split; [exact Hl2|]. split; [exact Hh2|]. split.
    - intros a Ha. apply (same_items_is_Some _ _ a Hs2) in Ha.
      destruct (decide (a = item)) as [->|Hne]; [unfold item; lia|].
      rewrite lookup_insert_ne in Ha by congruence.
      pose proof (Hfresh a Ha). lia.
    - intros k a Hk. rewrite lookup_insert in Hk.
      destruct (decide (key = k)) as [->|Hne].
      + injection Hk as <-. split.
        * rewrite Hp2. apply list_elem_of_here.
        * rewrite (same_items_key_of _ _ item Hs2). unfold key_of.
          rewrite lookup_insert_eq. reflexivity.
      + destruct (Hmap k a Hk) as [Hin Hkey]. split.
        * rewrite Hp2. apply list_elem_of_further, Hin.
        * rewrite (proj1 (Hold a ltac:(intros ->; contradiction))).
          exact Hkey. }
  split; [reflexivity|]. split; [exact Hp2|]. split; [exact Hitem|].
  split; [reflexivity|].
  split.
  { rewrite (same_items_key_of _ _ item Hs2). unfold key_of.
    rewrite lookup_insert_eq. reflexivity. }
  split.
  { rewrite (same_items_deadline _ _ item Hs2). unfold deadline.
    rewrite lookup_insert_eq. reflexivity. }
  intros a Ha. apply Hold. intros ->. contradiction.
Qed.

(** [loadAndSet] keeps the heap and returns a value or an error. *)
Lemma loadAndSet_inv b (key : bytes) (loadInfo : I) (w : W) (now : Z) :
  bucket_inv b ->
  bucket_inv (tearc.loadAndSet b key loadInfo w now).1.1
  /\ (tearc.loadAndSet b key loadInfo w now).2 ≠ Panic
  /\ (tearc.loadAndSet b key loadInfo w now).2 ≠ Diverge.
Proof.
  intros Hb.
  destruct (tearc.loader b key loadInfo w) as [w' [[value evictIn] err]]
    eqn:Hload.
  destruct err as [e|].
  - rewrite (loadAndSet_loader_error b key loadInfo w w' now value evictIn e
               Hload).
    cbn. split; [exact Hb|]. split; discriminate.
  - destruct (arc_Set (tearc.b_arc b) key value) as [a' err'] eqn:Hset.
    destruct err' as [e|].
    + unfold tearc.loadAndSet. rewrite Hload, Hset. cbn.
      split; [exact Hb|]. split; discriminate.
    + destruct (loadAndSet_success b key loadInfo w w' now value evictIn a'
                  Hb Hload Hset) as (b' & -> & Hb' & _).
      cbn. split; [exact Hb'|]. split; discriminate.
Qed.

Lemma bucket_Get_inv b (key : bytes) (loadInfo : I) (w : W) (now : Z) :
  bucket_inv b ->
  bucket_inv (tearc.bucket_Get b key loadInfo w now).1.1.1
  /\ (tearc.bucket_Get b key loadInfo w now).1.2 ≠ Panic
  /\ (tearc.bucket_Get b key loadInfo w now).1.2 ≠ Diverge.
Proof.
  intros Hb. unfold tearc.bucket_Get.
  destruct (arc_Get (tearc.b_arc b) key) as [a' [v| |e]].
  - cbn. split; [exact Hb|]. split; discriminate.
  - cbn [fst snd].
    apply (loadAndSet_inv (tearc.with_arc b a') key loadInfo w now Hb).
  - cbn. split; [exact Hb|]. split; discriminate.
Qed.
End Bucket.

Lemma set_evictionTime_lookup (st : tearc.cells) (a x : nat) (t : Z) :
  key_of (tearc.set_evictionTime st a t) x = key_of st x
  /\ (is_Some (tearc.set_evictionTime st a t !! x) <-> is_Some (st !! x))
  /\ (x ≠ a -> deadline (tearc.set_evictionTime st a t) x = deadline st x)
  /\ (is_Some (st !! a) ->
      deadline (tearc.set_evictionTime st a t) a = Some t).
Proof.
  unfold key_of, deadline, tearc.set_evictionTime.
  destruct (decide (a = x)) as [->|Hne].
  - rewrite lookup_alter_eq. destruct (st !! x); cbn.
    + split; [reflexivity|].
      split; [split; intros _; eauto|].
      split; [congruence | reflexivity].
    + split; [reflexivity|]. split; [reflexivity|].
      split; [congruence|]. intros [? ?]. discriminate.
  - rewrite lookup_alter_ne by exact Hne.
    split; [reflexivity|]. split; [reflexivity|].
    split; [reflexivity|].
    intros [it Hit]. rewrite lookup_alter_eq, Hit. reflexivity.
Qed.

Section Slide.
Context {V I W : Type} `{CacheLib V}.
Implicit Types (b : @tearc.bucket V I W _).

(** The goroutine of a hit: the item that the pointer map holds for the
    key gets the new eviction time, and the heap is put in order again;
    without an entry nothing happens. *)
Lemma slide_spec b (g : tearc.slideGo) :
  bucket_inv b ->
  exists b',
    tearc.slide b g = Ok b'
    /\ bucket_inv b'
    /\ tearc.b_arc b' = tearc.b_arc b
    /\ tearc.eqPtrMap b' = tearc.eqPtrMap b
    /\ tearc.eq b' ≡ₚ tearc.eq b
    /\ (forall x, key_of (tearc.store b') x = key_of (tearc.store b) x)
    /\ match tearc.eqPtrMap b !! tearc.slide_key g with
       | None => b' = b
       | Some a =>
           deadline (tearc.store b') a = Some (tearc.slide_evictionTime g)
           /\ forall x, x ≠ a ->
                deadline (tearc.store b') x = deadline (tearc.store b) x
       end.
Proof.
  intros Hb. pose proof Hb as (Hl & Hh & Hfresh & Hmap).
  unfold tearc.slide.
  destruct (tearc.eqPtrMap b !! tearc.slide_key g) as [a|] eqn:Hk.
  - destruct (Hmap _ _ Hk) as [Hin _].
    apply list_elem_of_lookup in Hin as [k Hqk].
    destruct (proj2 Hl _ _ Hqk) as (it & Hit & Hidx).
    unfold tearc.cell at 1. rewrite Hit. cbn [bind].
    set (t := tearc.slide_evictionTime g).
    set (st1 := tearc.set_evictionTime (tearc.store b) a t).
    assert (st1 !! a
            = Some {| tearc.key := tearc.key it; tearc.evictionTime := t;
                      tearc.index := tearc.index it |}) as Hit1.
    { unfold st1, tearc.set_evictionTime.
      rewrite lookup_alter_eq, Hit. reflexivity. }
    unfold tearc.cell. rewrite Hit1. cbn [bind tearc.index].
    destruct (heap_Fix_spec (tearc.store b) (tearc.eq b) (tearc.index it)
                a t Hl Hh ltac:(lia))
      as (st2 & q2 & Hfix & (Hl2 & Hp2 & Hs2) & Hh2).
    { rewrite Hidx, Nat2Z.id. exact Hqk. }
    fold st1 in Hfix, Hs2. rewrite Hfix. cbn [bind].
    destruct (set_evictionTime_lookup (tearc.store b) a a t)
      as (_ & _ & _ & Hda).
    eexists. split; [reflexivity|].
    unfold bucket_inv.
    cbn [tearc.with_heap tearc.allocs tearc.store tearc.eq tearc.eqPtrMap
         tearc.b_arc].
    assert (forall x, key_of st2 x = key_of (tearc.store b) x) as Hkeys.
    { intros x. rewrite (same_items_key_of _ _ x Hs2).
      apply set_evictionTime_lookup. }
    split.
    { split; [exact Hl2|]. split; [exact Hh2|]. split.
      - intros x Hx. apply (same_items_is_Some _ _ x Hs2) in Hx.
        apply set_evictionTime_lookup in Hx. apply Hfresh, Hx.
      - intros k' x Hk'. destruct (Hmap _ _ Hk') as [Hin Hkey].
        split; [rewrite Hp2; exact Hin|].
        rewrite Hkeys. exact Hkey. }
    split; [reflexivity|]. split; [reflexivity|].
    split; [exact Hp2|]. split; [exact Hkeys|].
    split.
    + rewrite (same_items_deadline _ _ a Hs2). apply Hda. eauto.
    + intros x Hx. rewrite (same_items_deadline _ _ x Hs2).
      apply set_evictionTime_lookup. exact Hx.
  - exists b. split; [reflexivity|]. split; [exact Hb|].
    split; [reflexivity|]. split; [reflexivity|].
    split; [reflexivity|]. split; reflexivity.
Qed.
End Slide.

Section Reap.
Context {V I W : Type} `{CacheLib V}.
Implicit Types (b : @tearc.bucket V I W _).

Lemma reap_loop_eq (fuel : nat) b (now : nat -> Z) (started : list bytes) :
  tearc.reap_loop fuel b now started
  = if decide (tearc.Len (tearc.eq b) > 0) then
      match fuel with
      | O => Diverge
      | S fuel' =>
          let* '(st1, q1, item) :=
            tearc.heap_Pop (tearc.store b) (tearc.eq b) in
          let* it := tearc.cell st1 item in
          if decide (now 0%nat < tearc.evictionTime it) then
            let* '(st2, q2) := tearc.heap_Push st1 q1 item in
            let timeout :=
              tearc.int64 (tearc.Sub (tearc.evictionTime it) (now 0%nat)
                           + 50 * tearc.Millisecond) in
            Ok (tearc.with_heap b st2 (tearc.allocs b) q2 (tearc.eqPtrMap b),
                started, timeout)
          else
            let '(a', removed) :=
              arc_Remove (tearc.b_arc b) (tearc.key it) in
            let started' :=
              if removed then started ++ [tearc.key it] else started in
            let b' := tearc.with_heap (tearc.with_arc b a') st1
                        (tearc.allocs b) q1
                        (delete (tearc.key it) (tearc.eqPtrMap b)) in
            tearc.reap_loop fuel' b' (fun k => now (S k)) started'
      end
    else Ok (b, started, tearc.MinTick (tearc.config b)).
Proof. destruct fuel; reflexivity. Qed.

(** One run of [reap], after [k] rounds that each evicted an item. *)
Lemma reap_loop_spec (fuel : nat) :
  forall b (now : nat -> Z) (started : list bytes),
    bucket_inv b -> (length (tearc.eq b) <= fuel)%nat ->
    exists b' started' timeout (k : nat),
      tearc.reap_loop fuel b now started = Ok (b', started', timeout)
      /\ bucket_inv b'
      /\ tearc.config b' = tearc.config b
      /\ length (tearc.eq b) = (k + length (tearc.eq b'))%nat
      /\ (forall a, a ∈ tearc.eq b' -> a ∈ tearc.eq b)
      /\ (forall a, deadline (tearc.store b') a = deadline (tearc.store b) a
                    /\ key_of (tearc.store b') a = key_of (tearc.store b) a)
      /\ (forall a t, a ∈ tearc.eq b -> a ∉ tearc.eq b' ->
            deadline (tearc.store b) a = Some t ->
            exists j, (j < k)%nat /\ t <= now j)
      /\ (forall a t, a ∈ tearc.eq b' ->
            deadline (tearc.store b) a = Some t -> now k < t)
      /\ match tearc.eq b' with
         | [] => timeout = tearc.MinTick (tearc.config b)
         | _ :: _ =>
             exists a t,
               a ∈ tearc.eq b'
               /\ deadline (tearc.store b) a = Some t
               /\ timeout
                  = tearc.int64 (tearc.Sub t (now k)
                                 + 50 * tearc.Millisecond)
               /\ forall a' t', a' ∈ tearc.eq b' ->
                    deadline (tearc.store b) a' = Some t' -> t <= t'
         end
      /\ (forall key a, tearc.eqPtrMap b' !! key = Some a ->
            tearc.eqPtrMap b !! key = Some a)
      /\ (forall a key, a ∈ tearc.eq b -> a ∉ tearc.eq b' ->
            key_of (tearc.store b) a = Some key ->
            tearc.eqPtrMap b' !! key = None)
      /\ (forall key, key ∈ started' ->
            key ∈ started
            \/ exists a, a ∈ tearc.eq b /\ (a ∉ tearc.eq b')
                         /\ key_of (tearc.store b) a = Some key).
Proof.
  induction fuel as [|fuel IH]; intros b now started Hb Hfuel;
    rewrite reap_loop_eq;
    (destruct (decide (tearc.Len (tearc.eq b) > 0)) as [Hpos|Hempty];
     [| assert (tearc.eq b = []) as Hnil
          by (destruct (tearc.eq b); [reflexivity
                                     | unfold tearc.Len in Hempty;
                                       cbn in Hempty; lia]);
        exists b, started, (tearc.MinTick (tearc.config b)), 0%nat;
        split; [reflexivity|]; split; [exact Hb|];
        split; [reflexivity|]; split; [reflexivity|];
        split; [intros a Ha; exact Ha|];
        split; [intros a; split; reflexivity|];
        split; [intros a t Hin; rewrite Hnil in Hin;
                apply elem_of_nil in Hin; contradiction|];
        split; [intros a t Hin; rewrite Hnil in Hin;
                apply elem_of_nil in Hin; contradiction|];
        split; [rewrite Hnil; reflexivity|];
        split; [intros key a Hk; exact Hk|];
        split; [intros a key Hin; rewrite Hnil in Hin;
                apply elem_of_nil in Hin; contradiction|];
        intros key Hin; left; exact Hin]).
  { unfold tearc.Len in Hpos. lia. }
  pose proof Hb as (Hl & Hh & Hfresh & Hmap).
  destruct (heap_Pop_spec (tearc.store b) (tearc.eq b) Hl Hh)
    as (st1 & q1 & a & it & HPop & Hperm & Hl1 & Hh1 & Hs1 & Hit & _
        & Hmin).
  { intros E. rewrite E in Hpos. unfold tearc.Len in Hpos. cbn in Hpos. lia. }
  rewrite HPop. cbn [bind]. unfold tearc.cell. rewrite Hit. cbn [bind].
  assert (a ∉ q1) as Haq1.
  { pose proof (proj1 Hl) as Hnd. rewrite Hperm in Hnd.
    apply list.NoDup_cons in Hnd. tauto. }
  assert (forall x, x ∈ tearc.eq b <-> x = a \/ x ∈ q1) as Hmem.
  { intros x. rewrite Hperm. apply elem_of_cons. }
  assert (deadline (tearc.store b) a = Some (tearc.evictionTime it)) as Hda.
  { rewrite <- (same_items_deadline _ _ a Hs1). unfold deadline.
    rewrite Hit. reflexivity. }
  assert (key_of (tearc.store b) a = Some (tearc.key it)) as Hka.
  { rewrite <- (same_items_key_of _ _ a Hs1). unfold key_of.
    rewrite Hit. reflexivity. }
  assert (forall x t, x ∈ tearc.eq b -> deadline (tearc.store b) x = Some t ->
            tearc.evictionTime it <= t) as Hmin'.
  { intros x t Hx Ht. unfold deadline in Ht.
    apply fmap_Some in Ht as (y & Hy & ->). exact (Hmin x y Hx Hy). }
  destruct (decide (now 0%nat < tearc.evictionTime it)) as [Hnot|Hdue].
  - (* the next item is not due: it goes back into the queue *)
    destruct (heap_Push_spec st1 q1 a it Hl1 Hh1 Hit Haq1)
      as (st2 & q2 & HPush & Hl2 & Hh2 & Hp2 & Hs2).
    rewrite HPush. cbn [bind].
    assert (forall x, x ∈ q2 <-> x ∈ tearc.eq b) as Hmem2.
    { intros x. rewrite Hp2, Hperm. reflexivity. }
    assert (forall x, deadline st2 x = deadline (tearc.store b) x
                      /\ key_of st2 x = key_of (tearc.store b) x) as Hsame.
    { intros x.
      rewrite (same_items_deadline _ _ x Hs2), (same_items_key_of _ _ x Hs2),
              (same_items_deadline _ _ x Hs1), (same_items_key_of _ _ x Hs1).
      split; reflexivity. }
    eexists _, started, _, 0%nat. split; [reflexivity|].
    unfold bucket_inv.
    cbn [tearc.with_heap tearc.allocs tearc.store tearc.eq tearc.eqPtrMap
         tearc.b_arc tearc.config].
    split.
    { split; [exact Hl2|]. split; [exact Hh2|]. split.
      - intros x Hx. apply Hfresh.
        apply (same_items_is_Some _ _ x Hs1),
              (same_items_is_Some _ _ x Hs2), Hx.
      - intros k x Hk. destruct (Hmap _ _ Hk) as [Hin Hkey].
        split; [apply Hmem2, Hin|].
        rewrite (proj2 (Hsame x)). exact Hkey. }
    split; [reflexivity|].
    split; [rewrite Hp2, Hperm; reflexivity|].
    split; [intros x; apply Hmem2|].
    split; [exact Hsame|].
    split; [intros x t Hin Hout; exfalso; apply Hout, Hmem2, Hin|].
    split.
    { intros x t Hin Ht. apply Hmem2 in Hin.
      pose proof (Hmin' x t Hin Ht). lia. }
    split.
    { destruct q2 as [|u q2'] eqn:Eq2.
      - apply Permutation_nil_cons in Hp2. contradiction.
      - exists a, (tearc.evictionTime it).
        split; [apply Hmem2, Hmem; left; reflexivity|].
        split; [exact Hda|]. split; [reflexivity|].
        intros x t Hin Ht. apply Hmem2 in Hin. exact (Hmin' x t Hin Ht). }
    split; [intros key x Hk; exact Hk|].
    split; [intros x key Hin Hout; exfalso; apply Hout, Hmem2, Hin|].
    intros key Hin. left. exact Hin.
  - (* the next item is due: it is evicted, and the loop goes on *)
    destruct (arc_Remove (tearc.b_arc b) (tearc.key it)) as [a' removed].
    cbv zeta.
    set (started1 := if removed then started ++ [tearc.key it] else started).
    set (b1 := tearc.with_heap (tearc.with_arc b a') st1 (tearc.allocs b) q1
                 (delete (tearc.key it) (tearc.eqPtrMap b))).
    assert (bucket_inv b1) as Hb1.
    { unfold bucket_inv, b1.
      cbn [tearc.with_heap tearc.with_arc tearc.allocs tearc.store tearc.eq
           tearc.eqPtrMap].
      split; [exact Hl1|]. split; [exact Hh1|]. split.
      - intros x Hx. apply Hfresh, (same_items_is_Some _ _ x Hs1), Hx.
      - intros k x Hk. apply lookup_delete_Some in Hk as [Hne Hk].
        destruct (Hmap _ _ Hk) as [Hin Hkey].
        rewrite (same_items_key_of _ _ x Hs1).
        split; [| exact Hkey].
        apply Hmem in Hin as [-> | Hin]; [| exact Hin].
        congruence. }
    assert (length (tearc.eq b) = S (length q1)) as Hlen
      by (rewrite Hperm; reflexivity).
    destruct (IH b1 (fun k => now (S k)) started1 Hb1
                ltac:(unfold b1; cbn; lia))
      as (b' & started' & timeout & k & Hrun & Hb' & Hcfg & Hlen' & Hsub
          & Hsame & Hgone & Hstay & Htime & Hmap' & Hnomap & Hst).
    unfold b1 in Hcfg, Hlen', Hsub, Hsame, Hgone, Hstay, Htime, Hmap',
                 Hnomap, Hst.
    cbn [tearc.with_heap tearc.with_arc tearc.allocs tearc.store tearc.eq
         tearc.eqPtrMap tearc.config] in *.
    assert (forall x, deadline st1 x = deadline (tearc.store b) x)
      as Hd1 by (intros x; apply same_items_deadline, Hs1).
    assert (forall x, key_of st1 x = key_of (tearc.store b) x)
      as Hk1 by (intros x; apply same_items_key_of, Hs1).
    assert (a ∉ tearc.eq b') as Hab' by (intros Hin; apply Haq1, Hsub, Hin).
    exists b', started', timeout, (S k). split; [exact Hrun|].
    split; [exact Hb'|]. split; [exact Hcfg|].
    split; [lia|].
    split; [intros x Hx; apply Hmem; right; apply Hsub, Hx|].
    split.
    { intros x. rewrite (proj1 (Hsame x)), (proj2 (Hsame x)), Hd1, Hk1.
      split; reflexivity. }
    split.
    { intros x t Hin Hout Ht. apply Hmem in Hin as [-> | Hin].
      - exists 0%nat. split; [lia|].
        rewrite Hda in Ht. injection Ht as <-. lia.
      - rewrite <- Hd1 in Ht.
        destruct (Hgone x t Hin Hout Ht) as (j & Hj & Hle).
        exists (S j). split; [lia | exact Hle]. }
    split.
    { intros x t Hin Ht. rewrite <- Hd1 in Ht. exact (Hstay x t Hin Ht). }
    split.
    { destruct (tearc.eq b') as [|u q']; [exact Htime|].
      destruct Htime as (x & t & Hin & Ht & Hto & Hleast).
      exists x, t. split; [exact Hin|].
      split; [rewrite <- Hd1; exact Ht|]. split; [exact Hto|].
      intros x' t' Hin' Ht'. rewrite <- Hd1 in Ht'.
      exact (Hleast x' t' Hin' Ht'). }
    split.
    { intros key x Hk. apply Hmap' in Hk.
      apply lookup_delete_Some in Hk. tauto. }
    split.
    { intros x key Hin Hout Hkey. apply Hmem in Hin as [-> | Hin].
      - rewrite Hka in Hkey. injection Hkey as <-.
        destruct (tearc.eqPtrMap b' !! tearc.key it) as [y|] eqn:E;
          [| reflexivity].
        apply Hmap' in E. rewrite lookup_delete_eq in E. discriminate.
      - rewrite <- Hk1 in Hkey. exact (Hnomap x key Hin Hout Hkey). }
    intros key Hin. destruct (Hst key Hin) as [Hin1 | (x & Hx & Hout & Hkey)].
    + assert (key ∈ started \/ key = tearc.key it) as [Hs | ->].
      { unfold started1 in Hin1. destruct removed; [| left; exact Hin1].
        apply elem_of_app in Hin1 as [Hs | Hs]; [left; exact Hs|].
        right. apply list_elem_of_singleton in Hs. exact Hs. }
      * left. exact Hs.
      * right. exists a. split; [apply Hmem; left; reflexivity|].
        split; [exact Hab' | exact Hka].
    + right. exists x. split; [apply Hmem; right; exact Hx|].
      split; [exact Hout|]. rewrite <- Hk1. exact Hkey.
Qed.
End Reap.

Section CacheInv.
Context {V I W : Type} `{CacheLib V}.
Implicit Types (b : @tearc.bucket V I W _) (t : @tearc.tearc V I W _).

Lemma bucket_inv_empty b :
  tearc.store b = ∅ -> tearc.eq b = [] -> tearc.eqPtrMap b = ∅ ->
  bucket_inv b.
Proof.
  intros Hst Hq Hm. unfold bucket_inv. rewrite Hst, Hq, Hm.
  split.
  { split; [constructor|]. intros i a Hi. rewrite lookup_nil in Hi.
    discriminate. }
  split.
  { intros p c Hpc Hc. unfold tearc.Len, child in *. cbn in Hc. lia. }
  split.
  { intros a [it Hit]. rewrite lookup_empty in Hit. discriminate. }
  intros k a Hk. rewrite lookup_empty in Hk. discriminate.
Qed.

(** The cache that [NewCache] returns has its buckets in order. *)
Lemma NewCache_cache_inv (size shards : Z)
    (loader : option (@tearc.LoaderFunc V I W))
    (evicted : option (@tearc.EvictedFunc W))
    (config : option tearc.BucketConfig) (seed : Z) t :
  tearc.NewCache size shards loader evicted config seed = Ok t ->
  cache_inv t.
Proof.
  intros Hnew. split; [exact (NewCache_well_formed _ _ _ _ _ _ _ Hnew)|].
  revert Hnew. unfold tearc.NewCache.
  destruct (decide (size <= 0)); [discriminate|].
  destruct (decide (shards <= 0)); [discriminate|].
  destruct (decide (Z.rem size shards ≠ 0)); [discriminate|].
  destruct loader as [l|]; [| discriminate].
  destruct config as [c|]; [| discriminate].
  destruct (decide (tearc.MinTick c >= tearc.MaxTick c)); [discriminate|].
  intros [= <-]. cbn [tearc.buckets].
  apply Forall_map, list.Forall_forall. intros i _.
  apply bucket_inv_empty; reflexivity.
Qed.

(** [Get] works on the bucket of the key and on no other. *)
Lemma Get_cache_inv t (key : bytes) (loadInfo : I) (w : W) (now : Z) :
  cache_inv t ->
  let r := tearc.Get t key loadInfo w now in
  cache_inv r.1.1.1
  /\ r.1.2 ≠ Panic /\ r.1.2 ≠ Diverge
  /\ tearc.size r.1.1.1 = tearc.size t
  /\ tearc.shards r.1.1.1 = tearc.shards t
  /\ tearc.jumpSeed r.1.1.1 = tearc.jumpSeed t
  /\ forall i : nat, i ≠ Z.to_nat (tearc.jump t key) ->
       tearc.buckets r.1.1.1 !! i = tearc.buckets t !! i.
Proof.
  intros [Hwf Hall] r. unfold r, tearc.Get.
  destruct (jump_bucket t key Hwf) as [b Hb]. rewrite Hb.
  pose proof (bucket_Get_inv b key loadInfo w now
                (proj1 (list.Forall_lookup _ _) Hall _ _ Hb))
    as (Hinv & Hp & Hd).
  destruct (tearc.bucket_Get b key loadInfo w now) as [[[b' w'] res] g].
  cbn in *.
  split.
  { split.
    - destruct Hwf as [Hpos Hlen]. split; cbn; [exact Hpos|].
      rewrite length_insert. exact Hlen.
    - cbn. apply Forall_insert; assumption. }
  split; [exact Hp|]. split; [exact Hd|].
  split; [reflexivity|]. split; [reflexivity|]. split; [reflexivity|].
  intros i Hi. apply list_lookup_insert_ne. congruence.
Qed.
End CacheInv.

(* ================================================================== *)
(** ** utils/tearc: what the cache guarantees *)
(* ================================================================== *)

Lemma sample_bucket_inv : bucket_inv sample_bucket.
Proof.
  apply bucket_Get_inv, bucket_Get_inv, bucket_inv_empty; reflexivity.
Qed.

Lemma sample_tearc_inv : cache_inv sample_tearc.
Proof.
  apply (NewCache_cache_inv 1000 4 (Some sample_loader) None
           (Some {| tearc.MinTick := 500 * tearc.Millisecond;
                    tearc.MaxTick := 3 * tearc.Second |}) 0).
  reflexivity.
Qed.

(** With [evictionQueue] as its [heap.Interface], [heap.Pop] on a queue
    that is linked and in heap order returns the item that is due first,
    marks it with the index [-1], and leaves the other items queued,
    linked and in heap order, with their keys and eviction times. *)
Theorem heap_Pop_earliest (st : tearc.cells) (q : list nat) :
  linked st q -> heap_ordered st q -> q ≠ [] ->
  exists st' q' a,
    tearc.heap_Pop st q = Ok (st', q', a)
    /\ q ≡ₚ (a :: q')
    /\ linked st' q' /\ heap_ordered st' q'
    /\ same_items st st'
    /\ tearc.index <$> st' !! a = Some (-1)
    /\ forall b ta tb, b ∈ q ->
         deadline st a = Some ta -> deadline st b = Some tb -> ta <= tb.
Proof.
  intros Hl Hh Hne.
  destruct (heap_Pop_spec st q Hl Hh Hne)
    as (st' & q' & a & it & HPop & Hperm & Hl' & Hh' & Hs & Hit & Hidx
        & Hmin).
  exists st', q', a. split; [exact HPop|]. split; [exact Hperm|].
  split; [exact Hl'|]. split; [exact Hh'|]. split; [exact Hs|].
  split; [rewrite Hit; cbn; rewrite Hidx; reflexivity|].
  intros b ta tb Hb Hta Htb.
  rewrite <- (same_items_deadline _ _ a Hs) in Hta.
  unfold deadline in Hta, Htb. rewrite Hit in Hta. injection Hta as <-.
  apply fmap_Some in Htb as (y & Hy & ->). exact (Hmin b y Hb Hy).
Qed.

Lemma heap_Pop_earliest_witness :
  exists st' q' a,
    tearc.heap_Pop (tearc.store sample_bucket) (tearc.eq sample_bucket)
    = Ok (st', q', a)
    /\ tearc.eq sample_bucket ≡ₚ (a :: q').
Proof.
  destruct (heap_Pop_earliest (tearc.store sample_bucket)
              (tearc.eq sample_bucket)
              (proj1 sample_bucket_inv) (proj1 (proj2 sample_bucket_inv))
              ltac:(vm_compute; discriminate))
    as (st' & q' & a & HPop & Hperm & _).
  exists st', q', a. split; [exact HPop | exact Hperm].
Defined.

(** A load that succeeds allocates a new item for the key, with the
    eviction time [now + evictIn], and pushes it on the heap; the pointer
    map then holds the new item for the key.  An item that the key
    already had stays queued with its old eviction time: the queue grows
    by one on every load. *)
Theorem loadAndSet_queues_item {V I W : Type} `{CacheLib V}
    (b : @tearc.bucket V I W _) (key : bytes) (loadInfo : I) (w w' : W)
    (now : Z) (value : V) (evictIn : Z) (a' : arc) :
  bucket_inv b ->
  tearc.loader b key loadInfo w = (w', (value, evictIn, None)) ->
  arc_Set (tearc.b_arc b) key value = (a', None) ->
  exists b',
    tearc.loadAndSet b key loadInfo w now = (b', w', Ok value)
    /\ bucket_inv b'
    /\ tearc.b_arc b' = a'
    /\ tearc.eq b' ≡ₚ (tearc.allocs b :: tearc.eq b)
    /\ (tearc.allocs b ∉ tearc.eq b)
    /\ tearc.eqPtrMap b' = <[key := tearc.allocs b]> (tearc.eqPtrMap b)
    /\ key_of (tearc.store b') (tearc.allocs b) = Some key
    /\ deadline (tearc.store b') (tearc.allocs b) = Some (now + evictIn)
    /\ (forall a, a ∈ tearc.eq b ->
          key_of (tearc.store b') a = key_of (tearc.store b) a
          /\ deadline (tearc.store b') a = deadline (tearc.store b) a).
Proof. apply loadAndSet_success. Qed.

(** ["key1"] is loaded a second time, five seconds after the first: the
    queue then holds three items, two of them for ["key1"]. *)
Lemma loadAndSet_queues_item_witness :
  exists b',
    tearc.loadAndSet sample_bucket (str "key1") tt 2%nat (5 * tearc.Second)
    = (b', 3%nat, Ok (str "private key 1"))
    /\ tearc.eq b' ≡ₚ [2%nat; 0%nat; 1%nat]
    /\ key_of (tearc.store b') 2%nat = Some (str "key1")
    /\ key_of (tearc.store b') 0%nat = Some (str "key1")
    /\ tearc.eqPtrMap b' !! str "key1" = Some 2%nat.
Proof.
  destruct (loadAndSet_queues_item sample_bucket (str "key1") tt 2%nat 3%nat
              (5 * tearc.Second) (str "private key 1") (1 * tearc.Second)
              (arc_Set (tearc.b_arc sample_bucket) (str "key1")
                 (str "private key 1")).1
              sample_bucket_inv
              ltac:(vm_compute; reflexivity) ltac:(reflexivity))
    as (b' & Hrun & _ & _ & Hq & _ & Hm & Hk2 & _ & Hold).
  exists b'. split; [exact Hrun|].
  assert (tearc.allocs sample_bucket = 2%nat) as Ha
    by (vm_compute; reflexivity).
  assert (tearc.eq sample_bucket = [0%nat; 1%nat]) as He
    by (vm_compute; reflexivity).
  rewrite Ha, He in *.
  split; [exact Hq|]. split; [exact Hk2|].
  split.
  - rewrite (proj1 (Hold 0%nat ltac:(apply list_elem_of_here))).
    vm_compute. reflexivity.
  - rewrite Hm. apply lookup_insert_eq.
Defined.

(** [Get] keeps the cache in order: it returns a value or an error (it
    neither panics nor hangs), every bucket still has its queue linked
    and in heap order afterwards, and no bucket but the one that the
    hash selects for the key is touched. *)
Theorem Get_keeps_cache {V I W : Type} `{CacheLib V}
    (t : @tearc.tearc V I W _) (key : bytes) (loadInfo : I) (w : W)
    (now : Z) :
  cache_inv t ->
  let r := tearc.Get t key loadInfo w now in
  cache_inv r.1.1.1
  /\ r.1.2 ≠ Panic /\ r.1.2 ≠ Diverge
  /\ tearc.size r.1.1.1 = tearc.size t
  /\ tearc.shards r.1.1.1 = tearc.shards t
  /\ tearc.jumpSeed r.1.1.1 = tearc.jumpSeed t
  /\ forall i : nat, i ≠ Z.to_nat (tearc.jump t key) ->
       tearc.buckets r.1.1.1 !! i = tearc.buckets t !! i.
Proof. apply Get_cache_inv. Qed.

Lemma Get_keeps_cache_witness :
  cache_inv (@tearc.Get bytes unit nat (sample_cache bytes)
               sample_tearc (str "key1") tt 0%nat 0).1.1.1.
Proof.
  exact (proj1 (Get_keeps_cache sample_tearc (str "key1") tt 0%nat 0
                  sample_tearc_inv)).
Defined.

(** A hit returns the cached value without a call of the loader and
    starts the goroutine that slides the deadline.  When the pointer map
    holds an item for the key, the goroutine sets the eviction time of
    that item to one minute after the hit, whatever the loader had asked
    for, and puts the heap in order again; no other item changes.
    Without an entry for the key the goroutine changes nothing. *)
Theorem hit_slides_deadline {V I W : Type} `{CacheLib V}
    (b : @tearc.bucket V I W _) (key : bytes) (loadInfo : I) (w : W)
    (now : Z) (a' : arc) (v : V) :
  bucket_inv b ->
  arc_Get (tearc.b_arc b) key = (a', Hit v) ->
  let g := {| tearc.slide_key := key;
              tearc.slide_evictionTime := now + tearc.Minute |} in
  exists b',
    tearc.bucket_Get b key loadInfo w now
    = (tearc.with_arc b a', w, Ok v, Some g)
    /\ tearc.slide (tearc.with_arc b a') g = Ok b'
    /\ bucket_inv b'
    /\ tearc.b_arc b' = a'
    /\ tearc.eqPtrMap b' = tearc.eqPtrMap b
    /\ tearc.eq b' ≡ₚ tearc.eq b
    /\ (forall x, key_of (tearc.store b') x = key_of (tearc.store b) x)
    /\ match tearc.eqPtrMap b !! key with
       | None => b' = tearc.with_arc b a'
       | Some a =>
           deadline (tearc.store b') a = Some (now + tearc.Minute)
           /\ forall x, x ≠ a ->
                deadline (tearc.store b') x = deadline (tearc.store b) x
       end.
Proof.
  intros Hb Hhit g.
  destruct (slide_spec (tearc.with_arc b a') g
              (bucket_inv_with_arc b a' Hb))
    as (b' & Hrun & Hb' & Harc & Hm & Hq & Hkeys & Hd).
  exists b'. split.
  { unfold tearc.bucket_Get. rewrite Hhit.
    replace (1 * tearc.Minute) with tearc.Minute by lia. reflexivity. }
  split; [exact Hrun|]. split; [exact Hb'|].
  split; [exact Harc|]. split; [exact Hm|]. split; [exact Hq|].
  split; [exact Hkeys|]. exact Hd.
Qed.

(** ["key1"] was loaded at time 0 for one second; a hit half a second
    later moves its deadline to one minute after the hit. *)
Lemma hit_slides_deadline_witness :
  exists b',
    tearc.slide sample_bucket
      {| tearc.slide_key := str "key1";
         tearc.slide_evictionTime := 500 * tearc.Millisecond + tearc.Minute |}
    = Ok b'
    /\ deadline (tearc.store sample_bucket) 0%nat = Some (1 * tearc.Second)
    /\ deadline (tearc.store b') 0%nat
       = Some (500 * tearc.Millisecond + tearc.Minute).
Proof.
  destruct (hit_slides_deadline sample_bucket (str "key1") tt 2%nat
              (500 * tearc.Millisecond) (tearc.b_arc sample_bucket)
              (str "private key 1") sample_bucket_inv
              ltac:(vm_compute; reflexivity))
    as (b' & _ & Hrun & _ & _ & _ & _ & _ & Hd).
  rewrite with_arc_same in Hrun.
  replace (tearc.eqPtrMap sample_bucket !! str "key1") with (Some 0%nat)
    in Hd by (vm_compute; reflexivity).
  exists b'. split; [exact Hrun|].
  split; [vm_compute; reflexivity | exact (proj1 Hd)].
Defined.




(** One tick of the reaper: the interval that the ticker is reset to lies
    between [MinTick] and [MaxTick] for every configuration that
    [NewCache] accepts; it is [MinTick] when the queue is left empty. *)
Theorem tick_interval {V I W : Type} `{CacheLib V}
    (b : @tearc.bucket V I W _) (now : nat -> Z) :
  bucket_inv b ->
  tearc.MinTick (tearc.config b) < tearc.MaxTick (tearc.config b) ->
  exists b' started next,
    tearc.tick b now = Ok (b', started, next)
    /\ bucket_inv b'
    /\ tearc.MinTick (tearc.config b) <= next <= tearc.MaxTick (tearc.config b)
    /\ (tearc.eq b' = [] -> next = tearc.MinTick (tearc.config b)).
Proof.
  intros Hb Hcfg.
  destruct (reap_loop_spec (length (tearc.eq b)) b now [] Hb ltac:(lia))
    as (b' & started & timeout & k & Hrun & Hb' & _ & _ & _ & _ & _ & _
        & Htime & _).
  unfold tearc.tick, tearc.reap. rewrite Hrun. cbn [bind].
  eexists b', started, _. split; [reflexivity|]. split; [exact Hb'|].
  split.
  - repeat case_decide; lia.
  - intros Hnil. rewrite Hnil in Htime. rewrite Htime.
    repeat case_decide; lia.
Qed.

Lemma tick_interval_witness :
  exists b' started next,
    tearc.tick sample_bucket (fun _ => 1500 * tearc.Millisecond)
    = Ok (b', started, next)
    /\ 500 * tearc.Millisecond <= next <= 3 * tearc.Second.
Proof.
  destruct (tick_interval sample_bucket (fun _ => 1500 * tearc.Millisecond)
              sample_bucket_inv ltac:(vm_compute; reflexivity))
    as (b' & started & next & Hrun & _ & Hin & _).
  exists b', started, next. split; [exact Hrun | exact Hin].
Defined.

(* ================================================================== *)
(** ** dvx/tearc: the caching key pool *)
(* ================================================================== *)

Section Wrapper.
Context {S : Type} `{CacheLaws (option bytes)}.
Implicit Types (w : @dvx_tearc.wrapper S _)
               (b : @tearc.bucket (option bytes) Z S _).

Lemma bucket_Get_loader b (key : bytes) (loadInfo : Z) (s : S) (now : Z) :
  tearc.loader (tearc.bucket_Get b key loadInfo s now).1.1.1
  = tearc.loader b.
Proof.
  unfold tearc.bucket_Get, tearc.loadAndSet.
  destruct (arc_Get (tearc.b_arc b) key) as [a' [v| |e]]; cbn;
    try reflexivity.
  destruct (tearc.loader b key loadInfo s) as [s' [[v evictIn] [e|]]];
    [reflexivity|].
  destruct (arc_Set a' key v) as [a'' [e|]]; [reflexivity|].
  destruct (tearc.heap_Push _ _ _) as [[st q]| | |]; reflexivity.
Qed.

Lemma Get_inv_loader (t : @tearc.tearc (option bytes) Z S _)
    (L : @tearc.LoaderFunc (option bytes) Z S) (key : bytes) (n : Z)
    (s : S) (now : Z) :
  cache_inv t ->
  Forall (fun b => tearc.loader b = L) (tearc.buckets t) ->
  cache_inv (tearc.Get t key n s now).1.1.1
  /\ Forall (fun b => tearc.loader b = L)
            (tearc.buckets (tearc.Get t key n s now).1.1.1).
Proof.
  intros Ht HL.
  split; [exact (proj1 (Get_cache_inv t key n s now Ht))|].
  unfold tearc.Get.
  destruct (jump_bucket t key (proj1 Ht)) as [b Hb]. rewrite Hb.
  pose proof (bucket_Get_loader b key n s now) as Hl.
  destruct (tearc.bucket_Get b key n s now) as [[[b' s'] r] g].
  cbn in *. apply Forall_insert; [exact HL|].
  rewrite Hl. exact (proj1 (list.Forall_lookup _ _) HL _ _ Hb).
Qed.

(** [New] refuses what [tearc.NewCache] refuses, and builds a pool in
    order. *)
Lemma New_inv (config : dvx_tearc.Config) (pool : dvx_tearc.KeyPool S)
    (seed : Z) w :
  dvx_tearc.New config pool seed = Ok w ->
  wrapper_inv w
  /\ dvx_tearc.config w = config /\ dvx_tearc.src w = pool.
Proof.
  unfold dvx_tearc.New.
  destruct (tearc.NewCache _ _ _ _ _ _) as [c| | |] eqn:Hnew;
    try discriminate.
  intros [= <-]. cbn. split; [| split; reflexivity].
  split; [exact (NewCache_cache_inv _ _ _ _ _ _ _ Hnew)|]. cbn.
  revert Hnew. unfold tearc.NewCache.
  repeat (case_decide; [discriminate|]).
  intros [= <-]. cbn.
  apply Forall_map, list.Forall_forall. intros i _. reflexivity.
Qed.

(** A miss, for the load hint [n] and the method [source] of the pool
    behind that [get] calls for it. *)
Lemma Get_miss_loads w (n : Z)
    (source : bytes -> S -> S * (bytes * option error)) (keyRing : bytes)
    (s : S) (now : Z) b :
  (forall key s0,
     dvx_tearc.get (dvx_tearc.config w) (dvx_tearc.src w) key n s0
     = let '(s', (k, err)) := source key s0 in
       match err with
       | Some e => (s', (None, 0, Some e))
       | None => (s', (Some k, dvx_tearc.AliveTime (dvx_tearc.config w),
                       None))
       end) ->
  wrapper_inv w ->
  tearc.buckets (dvx_tearc.cache w)
    !! Z.to_nat (tearc.jump (dvx_tearc.cache w) keyRing) = Some b ->
  (arc_Get (tearc.b_arc b) keyRing).2 = KeyNotFound ->
  (forall s' key e,
     source keyRing s = (s', (key, Some e)) ->
     tearc.Get (dvx_tearc.cache w) keyRing n s now
     = (dvx_tearc.cache w, s', Err (ErrLoadWrap e), None))
  /\ (forall s' key a',
        source keyRing s = (s', (key, None)) ->
        arc_Set (tearc.b_arc b) keyRing (Some key) = (a', None) ->
        exists c' b',
          tearc.Get (dvx_tearc.cache w) keyRing n s now
          = (c', s', Ok (Some key), None)
          /\ wrapper_inv (dvx_tearc.with_cache w c')
          /\ tearc.buckets c'
               !! Z.to_nat (tearc.jump (dvx_tearc.cache w) keyRing)
             = Some b'
          /\ tearc.b_arc b' = a'
          /\ tearc.eqPtrMap b' !! keyRing = Some (tearc.allocs b)
          /\ deadline (tearc.store b') (tearc.allocs b)
             = Some (now + dvx_tearc.AliveTime (dvx_tearc.config w))).
Proof.
  intros Hget [Hc HL] Hb Hmiss.
  pose proof (proj1 (list.Forall_lookup _ _) HL _ _ Hb) as Hloader.
  pose proof (proj1 (list.Forall_lookup _ _) (proj2 Hc) _ _ Hb) as Hinv.
  split.
  - intros s' key e Hsrc.
    apply (Get_loader_error _ b keyRing n s s' now None 0 e Hb Hmiss).
    rewrite Hloader, Hget, Hsrc. reflexivity.
  - intros s' key a' Hsrc Hset.
    assert (tearc.loader b keyRing n s
            = (s', (Some key, dvx_tearc.AliveTime (dvx_tearc.config w),
                    None))) as Hload
      by (rewrite Hloader, Hget, Hsrc; reflexivity).
    destruct (loadAndSet_success b keyRing n s s' now (Some key)
                (dvx_tearc.AliveTime (dvx_tearc.config w)) a' Hinv Hload
                Hset)
      as (b' & Hrun & Hb' & Harc & _ & _ & Hm & _ & Hd & _).
    pose proof (Get_inv_loader (dvx_tearc.cache w) _ keyRing n s now Hc HL)
      as [Hc' HL'].
    revert Hc' HL'. unfold tearc.Get. rewrite Hb.
    unfold tearc.bucket_Get.
    destruct (arc_Get (tearc.b_arc b) keyRing) as [a0 r] eqn:Hg.
    cbn in Hmiss. subst r. apply arc_Get_miss in Hg. subst a0.
    rewrite with_arc_same, Hrun. cbn [fst snd]. intros Hc' HL'.
    eexists _, b'. split; [reflexivity|].
    split; [split; [exact Hc' | exact HL']|].
    split.
    { cbn. apply list_lookup_insert_eq.
      apply lookup_lt_Some in Hb. exact Hb. }
    split; [exact Harc|].
    split; [rewrite Hm; apply lookup_insert_eq | exact Hd].
Qed.
End Wrapper.

(** On a hit the caching pool returns the cached key whatever size is
    asked for: [KDF32] and [KDF64] of a cached keyRing return the same
    bytes (those of the first derivation, of either size), and the pool
    behind is not called.  This holds also after [Close], which closes
    the pool behind and leaves the cache as it is. *)
Theorem wrapper_hit_ignores_size {S : Type} `{CacheLib (option bytes)}
    (w : @dvx_tearc.wrapper S _) (keyRing : bytes) (s : S) (now : Z)
    (b : @tearc.bucket (option bytes) Z S _) (a' : arc)
    (cached : option bytes) :
  tearc.buckets (dvx_tearc.cache w)
    !! Z.to_nat (tearc.jump (dvx_tearc.cache w) keyRing) = Some b ->
  arc_Get (tearc.b_arc b) keyRing = (a', Hit cached) ->
  exists w' g,
    dvx_tearc.wrapper_KDF32 w keyRing s now
    = (w', s, dvx_tearc.as_bytes (Ok cached), Some g)
    /\ dvx_tearc.wrapper_KDF64 w keyRing s now
       = (w', s, dvx_tearc.as_bytes (Ok cached), Some g)
    /\ forall s0,
         (dvx_tearc.wrapper_Close w s0).1.1 = w
         /\ dvx_tearc.wrapper_KDF64 w keyRing
              (dvx_tearc.wrapper_Close w s0).1.2 now
            = (w', (dvx_tearc.wrapper_Close w s0).1.2,
               dvx_tearc.as_bytes (Ok cached), Some g).
Proof.
  intros Hb Hhit.
  assert (forall n s1,
            tearc.Get (dvx_tearc.cache w) keyRing n s1 now
            = ({| tearc.size := tearc.size (dvx_tearc.cache w);
                  tearc.shards := tearc.shards (dvx_tearc.cache w);
                  tearc.jumpSeed := tearc.jumpSeed (dvx_tearc.cache w);
                  tearc.buckets :=
                    <[Z.to_nat (tearc.jump (dvx_tearc.cache w) keyRing)
                      := tearc.with_arc b a']>
                      (tearc.buckets (dvx_tearc.cache w)) |},
               s1, Ok cached,
               Some {| tearc.slide_key := keyRing;
                       tearc.slide_evictionTime := now + 1 * tearc.Minute |}))
    as Hget.
  { intros n s1. unfold tearc.Get, tearc.bucket_Get.
    rewrite Hb, Hhit. reflexivity. }
  eexists _, _.
  unfold dvx_tearc.wrapper_KDF32, dvx_tearc.wrapper_KDF64.
  rewrite !Hget. split; [reflexivity|]. split; [reflexivity|].
  intros s0. unfold dvx_tearc.wrapper_Close.
  destruct (dvx_tearc.Close (dvx_tearc.src w) s0) as [s1 err]. cbn [fst snd].
  rewrite Hget. split; reflexivity.
Qed.

(** A miss of the caching pool, for both sizes: the method of the same
    size of the pool behind is called once with the keyRing; its error
    comes back wrapped and leaves the caching pool as it was; its key is
    returned and cached under the keyRing, with a heap item that is due
    [AliveTime] after the load. *)
Theorem wrapper_miss_loads {S : Type} `{CacheLaws (option bytes)}
    (w : @dvx_tearc.wrapper S _) (keyRing : bytes) (s : S) (now : Z)
    (b : @tearc.bucket (option bytes) Z S _) :
  wrapper_inv w ->
  tearc.buckets (dvx_tearc.cache w)
    !! Z.to_nat (tearc.jump (dvx_tearc.cache w) keyRing) = Some b ->
  (arc_Get (tearc.b_arc b) keyRing).2 = KeyNotFound ->
  loads_through w dvx_tearc.wrapper_KDF32
    (dvx_tearc.KDF32 (dvx_tearc.src w)) keyRing s now b
  /\ loads_through w dvx_tearc.wrapper_KDF64
       (dvx_tearc.KDF64 (dvx_tearc.src w)) keyRing s now b.
Proof.
  intros Hw Hb Hmiss.
  assert (dvx_tearc.with_cache w (dvx_tearc.cache w) = w) as Hsame
    by (destruct w; reflexivity).
  split.
  - destruct (Get_miss_loads w 32 (dvx_tearc.KDF32 (dvx_tearc.src w))
                keyRing s now b) as [Hfail Hok]; try assumption.
    { intros key s0. unfold dvx_tearc.get.
      destruct (decide (32 = 32)) as [_|]; [| contradiction].
      destruct (dvx_tearc.KDF32 (dvx_tearc.src w) key s0)
        as [s' [k [e|]]]; reflexivity. }
    split.
    + intros s' key e Hsrc. unfold dvx_tearc.wrapper_KDF32.
      rewrite (Hfail s' key e Hsrc), Hsame. reflexivity.
    + intros s' key a' Hsrc Hset.
      destruct (Hok s' key a' Hsrc Hset)
        as (c' & b' & Hget & Hw' & Hb' & Harc & Hm & Hd).
      exists (dvx_tearc.with_cache w c'), b'.
      unfold dvx_tearc.wrapper_KDF32. rewrite Hget.
      split; [reflexivity|]. split; [exact Hw'|].
      split; [exact Hb'|]. split; [exact Harc|].
      split; [exact Hm | exact Hd].
  - destruct (Get_miss_loads w 64 (dvx_tearc.KDF64 (dvx_tearc.src w))
                keyRing s now b) as [Hfail Hok]; try assumption.
    { intros key s0. unfold dvx_tearc.get.
      destruct (decide (64 = 32)) as [|_]; [lia|].
      destruct (decide (64 = 64)) as [_|]; [| contradiction].
      destruct (dvx_tearc.KDF64 (dvx_tearc.src w) key s0)
        as [s' [k [e|]]]; reflexivity. }
    split.
    + intros s' key e Hsrc. unfold dvx_tearc.wrapper_KDF64.
      rewrite (Hfail s' key e Hsrc), Hsame. reflexivity.
    + intros s' key a' Hsrc Hset.
      destruct (Hok s' key a' Hsrc Hset)
        as (c' & b' & Hget & Hw' & Hb' & Harc & Hm & Hd).
      exists (dvx_tearc.with_cache w c'), b'.
      unfold dvx_tearc.wrapper_KDF64. rewrite Hget.
      split; [reflexivity|]. split; [exact Hw'|].
      split; [exact Hb'|]. split; [exact Harc|].
      split; [exact Hm | exact Hd].
Qed.

Lemma sample_wrapper0_inv : wrapper_inv sample_wrapper0.
Proof.
  refine (proj1 (New_inv (dvx_tearc.config sample_wrapper0) sample_source 0
                   sample_wrapper0 _)).
  reflexivity.
Qed.

Lemma sample_wrapper_inv : wrapper_inv sample_wrapper.
Proof.
  destruct sample_wrapper0_inv as [Hc HL].
  destruct (Get_inv_loader (dvx_tearc.cache sample_wrapper0) _ (str "ring")
              32 0%nat 0 Hc HL) as [Hc' HL'].
  unfold sample_wrapper, dvx_tearc.wrapper_KDF32.
  destruct (tearc.Get (dvx_tearc.cache sample_wrapper0) (str "ring") 32
              0%nat 0) as [[[c' s'] r] g].
  split; [exact Hc' | exact HL'].
Qed.

(** The first derivation of ["ring"] calls the pool behind and caches
    its key of 32 bytes. *)
Lemma wrapper_miss_loads_witness :
  exists w',
    dvx_tearc.wrapper_KDF32 sample_wrapper0 (str "ring") 0%nat 0
    = (w', 1%nat, Ok (fill 32 (str "ring")), None).
Proof.
  destruct (jump_bucket (dvx_tearc.cache sample_wrapper0) (str "ring")
              (proj1 (proj1 sample_wrapper0_inv))) as [b Hb].
  assert ((arc_Get (tearc.b_arc b) (str "ring")).2 = KeyNotFound) as Hmiss.
  { replace (arc_Get (tearc.b_arc b) (str "ring")).2
      with (from_option
              (fun b : @tearc.bucket (option bytes) Z nat
                         (sample_cache (option bytes)) =>
                 (arc_Get (tearc.b_arc b) (str "ring")).2)
              KeyNotFound
              (tearc.buckets (dvx_tearc.cache sample_wrapper0)
                 !! Z.to_nat (tearc.jump (dvx_tearc.cache sample_wrapper0)
                                (str "ring"))))
      by (rewrite Hb; reflexivity).
    vm_compute. reflexivity. }
  destruct (@wrapper_miss_loads nat (sample_cache (option bytes))
              (sample_cache_laws (option bytes)) sample_wrapper0
              (str "ring") 0%nat 0 b sample_wrapper0_inv Hb Hmiss)
    as [[_ Hok] _].
  destruct (Hok 1%nat (fill 32 (str "ring"))
              (arc_Set (tearc.b_arc b) (str "ring")
                 (Some (fill 32 (str "ring")))).1
              eq_refl eq_refl) as (w' & _ & Hrun & _).
  exists w'. exact Hrun.
Defined.

(** After [KDF32("ring")], [KDF64("ring")] returns the cached key of 32
    bytes and does not call the pool behind. *)
Lemma wrapper_hit_ignores_size_witness :
  exists w' g,
    dvx_tearc.wrapper_KDF64 sample_wrapper (str "ring") 1%nat
      (5 * tearc.Second)
    = (w', 1%nat, Ok (fill 32 (str "ring")), Some g).
Proof.
  destruct (jump_bucket (dvx_tearc.cache sample_wrapper) (str "ring")
              (proj1 (proj1 sample_wrapper_inv))) as [b Hb].
  assert ((arc_Get (tearc.b_arc b) (str "ring")).2
          = Hit (Some (fill 32 (str "ring")))) as Hhit.
  { replace (arc_Get (tearc.b_arc b) (str "ring")).2
      with (from_option
              (fun b : @tearc.bucket (option bytes) Z nat
                         (sample_cache (option bytes)) =>
                 (arc_Get (tearc.b_arc b) (str "ring")).2)
              KeyNotFound
              (tearc.buckets (dvx_tearc.cache sample_wrapper)
                 !! Z.to_nat (tearc.jump (dvx_tearc.cache sample_wrapper)
                                (str "ring"))))
      by (rewrite Hb; reflexivity).
    vm_compute. reflexivity. }
  destruct (arc_Get (tearc.b_arc b) (str "ring")) as [a' r] eqn:Hget.
  cbn in Hhit. subst r.
  destruct (wrapper_hit_ignores_size sample_wrapper (str "ring") 1%nat
              (5 * tearc.Second) b a' (Some (fill 32 (str "ring"))) Hb Hget)
    as (w' & g & _ & H64 & _).
  exists w', g. exact H64.
Defined.

(* ================================================================== *)
(** ** dvx/hsm: the key pool of a PKCS#11 module *)
(* ================================================================== *)

Section Hsm.
Context `{Pkcs11Laws}.

(** The loop of [selectSlot]: every slot is asked for its token; the
    last slot with the label is kept. *)
Lemma selectSlot_loop_spec (h : hsm.t) (slots : list Z) :
  forall (selectedSlot : Z) (w : hsm.world),
    (forall si, si ∈ slots -> (p11_GetTokenInfo (hsm.dev w) si).2.2 = None) ->
    hsm.selectSlot_loop h slots selectedSlot w
    = ({| hsm.dev := hsm.dev w;
          hsm.calls := hsm.calls w ++ map hsm.CGetTokenInfo slots |},
       (default selectedSlot
          (list.last
             (filter (fun si =>
                        ti_Label (p11_GetTokenInfo (hsm.dev w) si).2.1
                        = hsm.Label (hsm.config h)) slots)),
        None)).
Proof.
  induction slots as [|si rest IH]; intros sel w Hok; cbn [hsm.selectSlot_loop].
  - cbn. rewrite app_nil_r. destruct w. reflexivity.
  - unfold hsm.called.
    pose proof (GetTokenInfo_query (hsm.dev w) si) as Hq.
    pose proof (Hok si ltac:(apply list_elem_of_here)) as Hsi.
    destruct (p11_GetTokenInfo (hsm.dev w) si) as [d [ti err]] eqn:E.
    cbn in Hq, Hsi. subst d err. cbn [fst snd].
    assert (forall s,
              hsm.selectSlot_loop h rest s
                {| hsm.dev := hsm.dev w;
                   hsm.calls := hsm.calls w ++ [hsm.CGetTokenInfo si] |}
              = ({| hsm.dev := hsm.dev w;
                    hsm.calls := hsm.calls w
                                 ++ map hsm.CGetTokenInfo (si :: rest) |},
                 (default s
                    (list.last
                       (filter (fun si =>
                                  ti_Label (p11_GetTokenInfo (hsm.dev w) si).2.1
                                  = hsm.Label (hsm.config h)) rest)),
                  None))) as Hrest.
    { intros s. rewrite IH.
      - cbn. rewrite <- app_assoc. reflexivity.
      - intros x Hx. cbn. apply Hok, list_elem_of_further, Hx. }
    rewrite filter_cons, E. cbn [fst snd].
    destruct (decide (ti_Label ti ≠ hsm.Label (hsm.config h))) as [Hne|Heq].
    + rewrite Hrest.
      destruct (decide (ti_Label ti = hsm.Label (hsm.config h)));
        [contradiction | reflexivity].
    + rewrite Hrest.
      destruct (decide (ti_Label ti = hsm.Label (hsm.config h))) as [_|Hne];
        [| exfalso; apply Heq; exact Hne].
      f_equal. f_equal.
      destruct (filter _ rest) as [|x l] eqn:Ef; [reflexivity|].
      rewrite (last_cons si (x :: l)).
      destruct (list.last (x :: l)) eqn:El; [reflexivity|].
      apply last_None in El. discriminate.
Qed.
End Hsm.

Section Hsm2.
Context `{Pkcs11Lib}.

Lemma selectSlot_loop_error (h : hsm.t) (slots : list Z) :
  forall (selectedSlot : Z) (w : hsm.world),
    (forall d si, (p11_GetTokenInfo d si).1 = d) ->
    (exists si, si ∈ slots
                /\ is_Some (p11_GetTokenInfo (hsm.dev w) si).2.2) ->
    exists w' sel e,
      hsm.selectSlot_loop h slots selectedSlot w
      = (w', (sel, Some (hsm.ErrTokenInfo e))).
Proof.
  induction slots as [|si rest IH]; intros sel w Hq (x & Hx & Hbad).
  - apply elem_of_nil in Hx. contradiction.
  - cbn [hsm.selectSlot_loop]. unfold hsm.called.
    pose proof (Hq (hsm.dev w) si) as Hd.
    destruct (p11_GetTokenInfo (hsm.dev w) si) as [d [ti [e|]]] eqn:E;
      cbn [fst snd] in *.
    + eexists _, _, e. reflexivity.
    + subst d.
      assert (x ∈ rest) as Hin.
      { apply elem_of_cons in Hx as [-> | Hx]; [| exact Hx].
        rewrite E in Hbad. destruct Hbad as [? Hbad]. discriminate. }
      destruct (decide (ti_Label ti ≠ hsm.Label (hsm.config h)));
        apply IH; try exact Hq; exists x; split; assumption.
Qed.

Lemma isSupported_spec (h : hsm.t) (ms : list Z) (m : Z) (name : string) :
  hsm.isSupported h ms m name
  = if decide (m ∈ ms) then None
    else Some (hsm.ErrNotSupported m name (hsm.slot h)).
Proof.
  induction ms as [|x ms IH]; cbn [hsm.isSupported].
  - destruct (decide (m ∈ [])) as [Hin|]; [| reflexivity].
    apply elem_of_nil in Hin. contradiction.
  - destruct (decide (x = m)) as [->|Hne].
    + destruct (decide (m ∈ m :: ms)) as [|Hout]; [reflexivity|].
      exfalso. apply Hout, list_elem_of_here.
    + rewrite IH.
      destruct (decide (m ∈ ms)) as [Hin|Hout],
               (decide (m ∈ x :: ms)) as [Hin'|Hout']; try reflexivity.
      * exfalso. apply Hout', list_elem_of_further, Hin.
      * exfalso. apply elem_of_cons in Hin' as [-> | Hin']; contradiction.
Qed.
End Hsm2.

(** [selectSlot] asks every slot with a token for its token info and
    selects the last slot whose token has the label of the
    configuration.  Slot 0 stands for "none": when no token has the label,
    or when the last one that has it sits in slot 0, the function fails
    and the pool keeps its slot.  When the module fails for one of the
    slots, the function fails, also after a slot with the label. *)
Theorem selectSlot_last_match `{Pkcs11Laws} (h : hsm.t) (w : hsm.world)
    (d1 : ctx) (slots : list Z) :
  p11_GetSlotList (hsm.dev w) true = (d1, (slots, None)) ->
  let matching :=
    filter (fun si => ti_Label (p11_GetTokenInfo d1 si).2.1
                      = hsm.Label (hsm.config h)) slots in
  let selected := default 0 (list.last matching) in
  ((forall si, si ∈ slots -> (p11_GetTokenInfo d1 si).2.2 = None) ->
   hsm.selectSlot h w
   = (if decide (selected = 0) then h else hsm.with_slot h selected,
      {| hsm.dev := d1;
         hsm.calls := hsm.calls w
                      ++ hsm.CGetSlotList true
                         :: map hsm.CGetTokenInfo slots |},
      if decide (selected = 0)
      then Some (hsm.ErrSlotNotFound (hsm.Label (hsm.config h)))
      else None))
  /\ ((exists si, si ∈ slots /\ is_Some (p11_GetTokenInfo d1 si).2.2) ->
      exists w' e, hsm.selectSlot h w = (h, w', Some (hsm.ErrTokenInfo e))).
Proof.
  intros Hlist matching selected. unfold hsm.selectSlot, hsm.called.
  rewrite Hlist. cbn [fst snd]. split.
  - intros Hok.
    rewrite (selectSlot_loop_spec h slots 0
               {| hsm.dev := d1;
                  hsm.calls := hsm.calls w ++ [hsm.CGetSlotList true] |}
               Hok).
    cbn [hsm.dev hsm.calls]. fold matching. fold selected.
    rewrite <- app_assoc. cbn [app].
    destruct (decide (selected = 0)); reflexivity.
  - intros Hbad.
    destruct (selectSlot_loop_error h slots 0
                {| hsm.dev := d1;
                   hsm.calls := hsm.calls w ++ [hsm.CGetSlotList true] |}
                GetTokenInfo_query Hbad) as (w' & sel & e & ->).
    exists w', e. reflexivity.
Qed.

Lemma sample_pkcs11_laws (labels : list (Z * bytes)) (mechanisms : list Z) :
  @Pkcs11Laws (sample_pkcs11 labels mechanisms).
Proof. split. intros d si. reflexivity. Qed.

(** Slots 5 and 9 hold a token ["dvx"]: slot 9, the later one, is
    selected. *)
Lemma selectSlot_last_match_witness :
  let lib := sample_pkcs11 [(5, str "dvx"); (9, str "dvx"); (3, str "hsm")]
               [593; 625] in
  (@hsm.selectSlot lib sample_hsm
     {| hsm.dev := (0 : @ctx lib); hsm.calls := [] |}).2 = None
  /\ hsm.slot (@hsm.selectSlot lib sample_hsm
                 {| hsm.dev := (0 : @ctx lib); hsm.calls := [] |}).1.1 = 9.
Proof.
  intros lib.
  destruct (@selectSlot_last_match lib
              (sample_pkcs11_laws _ _) sample_hsm
              {| hsm.dev := (0 : @ctx lib); hsm.calls := [] |} 0 [5; 9; 3]
              eq_refl) as [Hok _].
  rewrite Hok.
  - split; reflexivity.
  - intros si Hsi.
    repeat (apply elem_of_cons in Hsi as [-> | Hsi]; [reflexivity|]).
    apply elem_of_nil in Hsi. contradiction.
Defined.

(** [checkMechanismSupport] returns no error exactly when the list of
    the slot holds both [CKM_SHA256_HMAC] and [CKM_SHA512_HMAC]; it
    reports SHA-256 first. *)
Theorem checkMechanismSupport_both `{Pkcs11Lib} (h : hsm.t) (w : hsm.world)
    (d1 : ctx) (supported : list Z) :
  p11_GetMechanismList (hsm.dev w) (hsm.slot h) = (d1, (supported, None)) ->
  hsm.checkMechanismSupport h w
  = ({| hsm.dev := d1;
        hsm.calls := hsm.calls w ++ [hsm.CGetMechanismList (hsm.slot h)] |},
     if decide (CKM_SHA256_HMAC ∉ supported)
     then Some (hsm.ErrNotSupported CKM_SHA256_HMAC "CKM_SHA256_HMAC"
                  (hsm.slot h))
     else if decide (CKM_SHA512_HMAC ∉ supported)
     then Some (hsm.ErrNotSupported CKM_SHA512_HMAC "CKM_SHA512_HMAC"
                  (hsm.slot h))
     else None).
Proof.
  intros Hlist. unfold hsm.checkMechanismSupport, hsm.called.
  rewrite Hlist. cbn [fst snd]. rewrite !isSupported_spec.
  destruct (decide (CKM_SHA256_HMAC ∈ supported)) as [H1|H1],
           (decide (CKM_SHA256_HMAC ∉ supported)) as [H1'|H1'];
    try contradiction; try reflexivity.
  destruct (decide (CKM_SHA512_HMAC ∈ supported)) as [H2|H2],
           (decide (CKM_SHA512_HMAC ∉ supported)) as [H2'|H2'];
    try contradiction; reflexivity.
Qed.

(** A token with SHA-256 HMAC only is refused for SHA-512. *)
Lemma checkMechanismSupport_both_witness :
  let lib := sample_pkcs11 [(5, str "dvx")] [593] in
  (@hsm.checkMechanismSupport lib sample_hsm
     {| hsm.dev := (0 : @ctx lib); hsm.calls := [] |}).2
  = Some (hsm.ErrNotSupported 625 "CKM_SHA512_HMAC" 0).
Proof.
  intros lib.
  rewrite (@checkMechanismSupport_both lib sample_hsm
             {| hsm.dev := (0 : @ctx lib); hsm.calls := [] |} 0 [593]
             eq_refl).
  reflexivity.
Defined.


Section HsmNew.
Context `{Pkcs11Lib}.




End HsmNew.


